(** * Transaction log manager and configuration filter: a shallow embedding

    The development follows [src/lib-index/mail-transaction-log.c] and
    [src/config/config-filter.c].  The log manager is stateful C code: it is
    embedded as functions in a small state-and-fault monad over an explicit
    store of log files (pointers are keys of a finite map, [NULL] is [None]),
    the [log->files] chain (the [next] links, kept as the list of pointers in
    chain order) and a model of the file system the manager talks to. *)

From Stdlib Require Import ZArith Bool Lia.
From stdpp Require Import gmap strings list fin_maps.

Open Scope Z_scope.

(** ** The file system seen by one process *)

Module FS.

(** The system calls the log code issues; a world lists those that fail. *)
Inductive syscall :=
  | SysStat | SysFstat | SysOpen | SysCreate | SysLock
  | SysMap | SysRead | SysMunmap | SysClose.

#[global] Instance syscall_eq_dec : EqDecision syscall.
Proof. solve_decision. Defined.

(** One file on disk: its identity, its header and its bytes. *)
Record disk_file := DiskFile {
  df_dev : Z;
  df_ino : Z;
  df_valid : bool;           (* header magic and version are acceptable *)
  df_seq : Z;
  df_prev_seq : Z;
  df_prev_offset : Z;
  df_stamp : Z;
  df_mtime : Z;
  df_data : list Byte.byte
}.

Definition df_size (d : disk_file) : Z := Z.of_nat (length (df_data d)).

Record world := World {
  fs : gmap string disk_file;       (* path -> file *)
  fdtab : gmap Z disk_file;         (* open descriptors *)
  next_fd : Z;
  next_ino : Z;
  fs_dev : Z;
  hdr_size : Z;                     (* sizeof(struct mail_transaction_log_header) *)
  clock : Z;                        (* ioloop_time *)
  failing : list syscall
}.

Definition fails (w : world) (c : syscall) : bool := bool_decide (c ∈ failing w).

Definition with_fs (g : gmap string disk_file) (w : world) : world :=
  World g (fdtab w) (next_fd w) (next_ino w) (fs_dev w) (hdr_size w) (clock w) (failing w).
Definition with_fdtab (t : gmap Z disk_file) (w : world) : world :=
  World (fs w) t (next_fd w) (next_ino w) (fs_dev w) (hdr_size w) (clock w) (failing w).
Definition with_next_fd (n : Z) (w : world) : world :=
  World (fs w) (fdtab w) n (next_ino w) (fs_dev w) (hdr_size w) (clock w) (failing w).
Definition with_next_ino (n : Z) (w : world) : world :=
  World (fs w) (fdtab w) (next_fd w) n (fs_dev w) (hdr_size w) (clock w) (failing w).

End FS.
Import FS.

(** ** Data model of the log manager *)

(** [struct mail_transaction_log_header], the fields the manager reads. *)
Record log_header := LogHeader {
  file_seq : Z;
  prev_file_seq : Z;
  prev_file_offset : Z;
  create_stamp : Z
}.

(** [struct mail_transaction_log_file].  The [next] link is the position of
    the file in the chain of [log_state]; [log] is the one log of the store. *)
Record log_file := LogFile {
  filepath : string;
  hdr : log_header;
  st_dev : Z;
  st_ino : Z;
  last_size : Z;
  last_mtime : Z;
  fd : Z;
  mmap_base : option (list Byte.byte);
  buffer : option (list Byte.byte);
  buffer_offset : Z;
  sync_offset : Z;
  mailbox_sync_max_offset : Z;
  mailbox_sync_saved_offset : Z;
  locked : bool;
  refcount : Z
}.

Definition set_hdr (h : log_header) (f : log_file) : log_file :=
  LogFile (filepath f) h (st_dev f) (st_ino f) (last_size f) (last_mtime f)
    (fd f) (mmap_base f) (buffer f) (buffer_offset f) (sync_offset f)
    (mailbox_sync_max_offset f) (mailbox_sync_saved_offset f) (locked f) (refcount f).
Definition set_stat (dev ino size mtime : Z) (f : log_file) : log_file :=
  LogFile (filepath f) (hdr f) dev ino size mtime
    (fd f) (mmap_base f) (buffer f) (buffer_offset f) (sync_offset f)
    (mailbox_sync_max_offset f) (mailbox_sync_saved_offset f) (locked f) (refcount f).
Definition set_fd (x : Z) (f : log_file) : log_file :=
  LogFile (filepath f) (hdr f) (st_dev f) (st_ino f) (last_size f) (last_mtime f)
    x (mmap_base f) (buffer f) (buffer_offset f) (sync_offset f)
    (mailbox_sync_max_offset f) (mailbox_sync_saved_offset f) (locked f) (refcount f).
Definition set_mmap_base (m : option (list Byte.byte)) (f : log_file) : log_file :=
  LogFile (filepath f) (hdr f) (st_dev f) (st_ino f) (last_size f) (last_mtime f)
    (fd f) m (buffer f) (buffer_offset f) (sync_offset f)
    (mailbox_sync_max_offset f) (mailbox_sync_saved_offset f) (locked f) (refcount f).
Definition set_buffer (b : option (list Byte.byte)) (f : log_file) : log_file :=
  LogFile (filepath f) (hdr f) (st_dev f) (st_ino f) (last_size f) (last_mtime f)
    (fd f) (mmap_base f) b (buffer_offset f) (sync_offset f)
    (mailbox_sync_max_offset f) (mailbox_sync_saved_offset f) (locked f) (refcount f).
Definition set_buffer_offset (x : Z) (f : log_file) : log_file :=
  LogFile (filepath f) (hdr f) (st_dev f) (st_ino f) (last_size f) (last_mtime f)
    (fd f) (mmap_base f) (buffer f) x (sync_offset f)
    (mailbox_sync_max_offset f) (mailbox_sync_saved_offset f) (locked f) (refcount f).
Definition set_sync_offset (x : Z) (f : log_file) : log_file :=
  LogFile (filepath f) (hdr f) (st_dev f) (st_ino f) (last_size f) (last_mtime f)
    (fd f) (mmap_base f) (buffer f) (buffer_offset f) x
    (mailbox_sync_max_offset f) (mailbox_sync_saved_offset f) (locked f) (refcount f).
Definition set_mailbox_sync_max_offset (x : Z) (f : log_file) : log_file :=
  LogFile (filepath f) (hdr f) (st_dev f) (st_ino f) (last_size f) (last_mtime f)
    (fd f) (mmap_base f) (buffer f) (buffer_offset f) (sync_offset f)
    x (mailbox_sync_saved_offset f) (locked f) (refcount f).
Definition set_locked (b : bool) (f : log_file) : log_file :=
  LogFile (filepath f) (hdr f) (st_dev f) (st_ino f) (last_size f) (last_mtime f)
    (fd f) (mmap_base f) (buffer f) (buffer_offset f) (sync_offset f)
    (mailbox_sync_max_offset f) (mailbox_sync_saved_offset f) b (refcount f).
Definition set_refcount (x : Z) (f : log_file) : log_file :=
  LogFile (filepath f) (hdr f) (st_dev f) (st_ino f) (last_size f) (last_mtime f)
    (fd f) (mmap_base f) (buffer f) (buffer_offset f) (sync_offset f)
    (mailbox_sync_max_offset f) (mailbox_sync_saved_offset f) (locked f) x.

(** [MAIL_TRANSACTION_LOG_FILE_IN_MEMORY(file)]: the file has no descriptor. *)
Definition FILE_IN_MEMORY (f : log_file) : bool := fd f =? -1.

(** The part of [struct mail_index] the log manager touches:
    [index->filepath], [MAIL_INDEX_IS_IN_MEMORY(index)], [index->log_locked]
    and the index-scoped channel of system call errors. *)
Record mail_index := MailIndex {
  index_filepath : string;
  index_in_memory : bool;
  log_locked : bool;
  syscall_errors : list (string * string)
}.

(** [struct mail_transaction_log] together with the store its pointers
    live in.  [views] holds one entry per reference a reader has on a file. *)
Record log_state := LogState {
  heap : gmap nat log_file;
  next_ptr : nat;
  head : option nat;
  files : list nat;
  open_file : option nat;
  index : mail_index;
  views : list nat;
  env : world
}.

Definition with_heap (h : gmap nat log_file) (s : log_state) : log_state :=
  LogState h (next_ptr s) (head s) (files s) (open_file s) (index s) (views s) (env s).
Definition with_next_ptr (n : nat) (s : log_state) : log_state :=
  LogState (heap s) n (head s) (files s) (open_file s) (index s) (views s) (env s).
Definition with_head (p : option nat) (s : log_state) : log_state :=
  LogState (heap s) (next_ptr s) p (files s) (open_file s) (index s) (views s) (env s).
Definition with_files (l : list nat) (s : log_state) : log_state :=
  LogState (heap s) (next_ptr s) (head s) l (open_file s) (index s) (views s) (env s).
Definition with_open_file (p : option nat) (s : log_state) : log_state :=
  LogState (heap s) (next_ptr s) (head s) (files s) p (index s) (views s) (env s).
Definition with_index (i : mail_index) (s : log_state) : log_state :=
  LogState (heap s) (next_ptr s) (head s) (files s) (open_file s) i (views s) (env s).
Definition with_views (v : list nat) (s : log_state) : log_state :=
  LogState (heap s) (next_ptr s) (head s) (files s) (open_file s) (index s) v (env s).
Definition with_env (w : world) (s : log_state) : log_state :=
  LogState (heap s) (next_ptr s) (head s) (files s) (open_file s) (index s) (views s) w.

(** ** Elementary changes of the state *)

(** [*q = v] *)
Definition store (q : nat) (v : log_file) (s : log_state) : log_state :=
  with_heap (<[q := v]> (heap s)) s.

Definition on_env (g : world -> world) (s : log_state) : log_state :=
  with_env (g (env s)) s.

(** A descriptor is handed out for a file, and given back. *)
Definition open_fd (d : disk_file) (w : world) : world :=
  with_next_fd (next_fd w + 1) (with_fdtab (<[next_fd w := d]> (fdtab w)) w).
Definition close_fd (n : Z) (w : world) : world :=
  with_fdtab (delete n (fdtab w)) w.

(** A new file is renamed into [path]; what was there becomes [path.2]. *)
Definition publish (path : string) (d : disk_file) (w : world) : world :=
  with_next_ino (next_ino w + 1)
    (with_fs (<[path := d]>
                (match fs w !! path with
                 | Some old => <[path +:+ ".2" := old]> (fs w)
                 | None => fs w
                 end)) w).

Definition record_syscall_error (path name : string) (s : log_state) : log_state :=
  with_index (MailIndex (index_filepath (index s)) (index_in_memory (index s))
                        (log_locked (index s))
                        (syscall_errors (index s) ++ [(path, name)])) s.

Definition with_log_locked (b : bool) (s : log_state) : log_state :=
  with_index (MailIndex (index_filepath (index s)) (index_in_memory (index s)) b
                        (syscall_errors (index s))) s.

(** ** The monad: state passing with faults *)

Inductive fault :=
  | AssertFailed        (* an [i_assert] does not hold: the process panics *)
  | NullDeref           (* a field of [NULL] is read or written *)
  | DanglingPtr         (* a field of a freed file is read or written *)
  | UninitializedRead   (* a local is read before it was assigned *)
  | OutOfFuel.          (* the loop bound of the model was reached *)

Inductive outcome (A : Type) :=
  | Ret (a : A) (s : log_state)
  | Fault (e : fault).
Arguments Ret {A} a s.
Arguments Fault {A} e.

Definition M (A : Type) : Type := log_state -> outcome A.

Definition ret {A} (a : A) : M A := fun s => Ret a s.
Definition bind {A B} (m : M A) (k : A -> M B) : M B :=
  fun s => match m s with
           | Ret a s' => k a s'
           | Fault e => Fault e
           end.
Definition raise {A} (e : fault) : M A := fun _ => Fault e.
Definition get : M log_state := fun s => Ret s s.
Definition modify (g : log_state -> log_state) : M unit := fun s => Ret tt (g s).

Notation "x <- m ;; k" := (bind m (fun x => k))
  (at level 100, m at next level, right associativity).
Notation "m ;;; k" := (bind m (fun _ => k))
  (at level 100, right associativity).

Definition i_assert (b : bool) : M unit :=
  if b then ret tt else raise AssertFailed.

(** [*p] for a file pointer. *)
Definition deref (p : option nat) : M log_file :=
  fun s => match p with
           | None => Fault NullDeref
           | Some q => match heap s !! q with
                       | Some f => Ret f s
                       | None => Fault DanglingPtr
                       end
           end.

(** [p->field = ...]: the file at [p] is replaced by [g] of it. *)
Definition update (p : option nat) (g : log_file -> log_file) : M unit :=
  f <- deref p ;;
  match p with
  | Some q => modify (store q (g f))
  | None => raise NullDeref
  end.

Definition modify_env (g : world -> world) : M unit :=
  modify (on_env g).

(** [mail_index_file_set_syscall_error(index, path, name)] *)
Definition mail_index_file_set_syscall_error (path name : string) : M unit :=
  modify (record_syscall_error path name).

(** [log->index->log_locked = b] *)
Definition set_log_locked (b : bool) : M unit :=
  modify (with_log_locked b).

(** ** The log file layer

    [mail-transaction-log-file.c] and the view registry are not part of the
    sources at hand; the manager only calls them.  Each function below
    stands for one of them and is written from the specification. *)

Definition MAIL_TRANSACTION_LOG_SUFFIX : string := ".log".
Definition MEMORY_LOG_NAME : string := "(in-memory transaction log file)".

Definition blank_file (path : string) : log_file :=
  LogFile path (LogHeader 0 0 0 0) 0 0 0 0 (-1) None None 0 0 0 0 false 0.

(** The next free pointer is handed out for a blank file. *)
Definition alloc_state (path : string) (s : log_state) : log_state :=
  with_next_ptr (S (next_ptr s)) (store (next_ptr s) (blank_file path) s).

(** Modelled from the spec: [mail_transaction_log_file_alloc] (the file
    layer is missing).  "Allocates a new LogFile": a fresh pointer to a file
    with no descriptor, no mapping, no buffer, unlocked, referenced by
    nobody, remembering its path. *)
Definition mail_transaction_log_file_alloc (path : string) : M (option nat) :=
  s <- get ;;
  (modify (alloc_state path) ;;; ret (Some (next_ptr s))).

(** Modelled from the spec: the data model keeps the superseded versions on
    [files], newest first, and the head off it; scenario S4 has the old
    head join [files] when a rotation installs its successor.  Nothing in
    the manager links a file, so the file layer does it when it has
    produced the successor of the current head: the head is put in front
    of the chain unless it is on it already. *)
Definition link_state (s : log_state) : log_state :=
  with_files (match head s with
              | Some h => if bool_decide (h ∈ files s) then files s
                          else h :: files s
              | None => files s
              end) s.

Definition link_superseded_head : M unit := modify link_state.

(** What a file takes over from the disk file it was opened on. *)
Definition load_disk_file (d : disk_file) (w : world) (f : log_file) : log_file :=
  set_fd (next_fd w)
    (set_sync_offset (hdr_size w)
       (set_stat (df_dev d) (df_ino d) (df_size d) (df_mtime d)
          (set_hdr (LogHeader (df_seq d) (df_prev_seq d) (df_prev_offset d)
                              (df_stamp d)) f))).

(** The file at [q], so far [f], is now open on [d]. *)
Definition attach_state (q : nat) (d : disk_file) (f : log_file) (s : log_state)
  : log_state :=
  on_env (open_fd d) (store q (load_disk_file d (env s) f) s).

Definition attach_disk_file (p : option nat) (d : disk_file) : M unit :=
  s <- get ;;
  (update p (load_disk_file d (env s)) ;;;
   modify_env (open_fd d)).

(** Modelled from the spec: [mail_transaction_log_file_open] (missing).
    "Opens the named path read-write, verifies the header magic, loads
    metadata": 1 when the file was opened, 0 when the path does not exist,
    -1 on a system call failure, which is "logged with path and syscall
    name" on the index.  A file whose header fails validation also gives 0,
    as the spec requires of [find_file] on a corrupt [.2] file.
    [check_existing] is set by the manager only for the [.2] archive, whose
    file is an older version and supersedes nothing. *)
Definition mail_transaction_log_file_open (p : option nat) (check_existing : bool)
  : M Z :=
  f <- deref p ;;
  s <- get ;;
  if fails (env s) SysOpen
  then (mail_index_file_set_syscall_error (filepath f) "open()" ;;; ret (-1))
  else match fs (env s) !! filepath f with
       | None => ret 0
       | Some d =>
         if negb (df_valid d) then ret 0
         else (attach_disk_file p d ;;;
               (if check_existing then ret tt else link_superseded_head) ;;;
               ret 1)
       end.

(** The header of the successor of the current head: "file_seq =
    head.file_seq + 1", "prev_file_seq = head.file_seq", "prev_file_offset =
    head.sync_offset"; the first file of a log has sequence 1 (S1). *)
Definition next_header : M log_header :=
  s <- get ;;
  match head s with
  | None => ret (LogHeader 1 0 0 (clock (env s)))
  | Some h =>
    f <- deref (Some h) ;;
    ret (LogHeader (file_seq (hdr f) + 1) (file_seq (hdr f)) (sync_offset f)
                   (clock (env s)))
  end.

(** The file a creation writes: a valid header and nothing else, on a new
    inode. *)
Definition fresh_disk_file (w : world) (h : log_header) : disk_file :=
  DiskFile (fs_dev w) (next_ino w) true (file_seq h) (prev_file_seq h)
           (prev_file_offset h) (create_stamp h) (clock w)
           (repeat Byte.x00 (Z.to_nat (hdr_size w))).

(** Modelled from the spec: [mail_transaction_log_file_create] (missing).
    "Atomically materialises a new log file ... write the header with a
    fresh file_seq, fsync, then rename into the canonical path"; the file
    that was at the path becomes the [.2] archive (S2).  When the path
    holds a file other than the one whose stat signature the caller
    remembered, another process has created it and "the existing file must
    be used instead".  0 on success, -1 on failure; a system call failure
    is "logged with path and syscall name" on the index, a corrupt file
    found at the path is surfaced by the -1 alone. *)
Definition mail_transaction_log_file_create (p : option nat) : M Z :=
  f <- deref p ;;
  s <- get ;;
  let w := env s in
  let fresh : M Z :=
    h <- next_header ;;
    let d := fresh_disk_file w h in
    (modify_env (publish (filepath f) d) ;;;
     attach_disk_file p d ;;;
     link_superseded_head ;;;
     ret 0) in
  if fails w SysCreate
  then (mail_index_file_set_syscall_error (filepath f) "creat()" ;;; ret (-1))
  else match fs w !! filepath f with
       | Some d =>
         if (df_ino d =? st_ino f) && (df_dev d =? st_dev f) then fresh
         else if df_valid d
              then (attach_disk_file p d ;;; link_superseded_head ;;; ret 0)
              else ret (-1)
       | None => fresh
       end.

(** Modelled from the spec: [mail_transaction_log_file_alloc_in_memory]
    (missing).  "Returns a LogFile with fd=-1 and a growable in-memory
    buffer acting as the storage"; no file system call is made. *)
Definition mail_transaction_log_file_alloc_in_memory : M (option nat) :=
  p <- mail_transaction_log_file_alloc MEMORY_LOG_NAME ;;
  h <- next_header ;;
  s <- get ;;
  (update p (fun f => set_buffer (Some [])
                        (set_buffer_offset (hdr_size (env s))
                           (set_sync_offset (hdr_size (env s)) (set_hdr h f)))) ;;;
   link_superseded_head ;;;
   ret p).

(** The file at [q] leaves the chain and the store. *)
Definition free_state (q : nat) (s : log_state) : log_state :=
  with_files (filter (fun x => x ≠ q) (files s)) (with_heap (delete q (heap s)) s).

(** Modelled from the spec: [mail_transaction_log_file_free] (missing).
    The file is destroyed: it leaves the chain, its descriptor is closed and
    its memory is released.  The caller's pointer variable is set to [NULL]
    at the call site. *)
Definition mail_transaction_log_file_free (p : option nat) : M unit :=
  f <- deref p ;;
  match p with
  | None => raise NullDeref
  | Some q =>
    (modify (free_state q) ;;;
     modify_env (if FILE_IN_MEMORY f then (fun w => w) else close_fd (fd f)))
  end.

(** Modelled from the spec: [mail_transaction_log_file_lock] (missing):
    the exclusive whole-file lock; -1 when it cannot be had in time. *)
Definition mail_transaction_log_file_lock (p : option nat) : M Z :=
  f <- deref p ;;
  s <- get ;;
  if locked f then ret 0
  else if fails (env s) SysLock then ret (-1)
  else (update p (set_locked true) ;;; ret 0).

(** Modelled from the spec: [mail_transaction_log_file_unlock] (missing). *)
Definition mail_transaction_log_file_unlock (p : option nat) : M unit :=
  update p (set_locked false).

(** Modelled from the spec: [mail_transaction_log_file_map] (missing).
    "Ensures the byte range is accessible in memory"; the window starts at
    offset 0 and, the end being EOF, reaches the end of the file, up to
    which [sync_offset] advances.  1 on success, 0 when the range starts
    past EOF, -1 on failure; an in-memory file is its own storage.  A
    failing [mmap], also on a descriptor that is not open, is a "syscall
    failure: logged via an index-scoped error channel, returned as -1". *)
Definition mail_transaction_log_file_map (p : option nat) (start_offset : Z)
  : M Z :=
  f <- deref p ;;
  s <- get ;;
  if FILE_IN_MEMORY f then ret 1
  else if fails (env s) SysMap
  then (mail_index_file_set_syscall_error (filepath f) "mmap()" ;;; ret (-1))
  else match fdtab (env s) !! fd f with
       | None => (mail_index_file_set_syscall_error (filepath f) "mmap()" ;;;
                  ret (-1))
       | Some d =>
         if df_size d <? start_offset then ret 0
         else (update p (fun f => set_mmap_base (Some (df_data d))
                                    (set_buffer None
                                       (set_buffer_offset (df_size d)
                                          (set_sync_offset (df_size d) f)))) ;;;
               ret 1)
       end.

(** Modelled from the spec: [mail_transaction_log_file_read] (missing).
    "Reads file contents from disk into the in-memory buffer up to current
    EOF": the number of bytes read, -1 on failure.  A failing [read], also
    on a descriptor that is not open, is logged on the index like every
    system call failure. *)
Definition mail_transaction_log_file_read (p : option nat) (offset : Z) : M Z :=
  f <- deref p ;;
  s <- get ;;
  if fails (env s) SysRead
  then (mail_index_file_set_syscall_error (filepath f) "read()" ;;; ret (-1))
  else match fdtab (env s) !! fd f with
       | None => (mail_index_file_set_syscall_error (filepath f) "read()" ;;;
                  ret (-1))
       | Some d =>
         let bytes := drop (Z.to_nat offset) (df_data d) in
         (update p (fun f => set_buffer (Some bytes)
                               (set_buffer_offset offset
                                  (set_sync_offset (df_size d) f))) ;;;
          ret (Z.of_nat (length bytes)))
       end.

(** The spec's uniform addressing of a file's bytes: "ptr(offset) = buffer
    if offset >= buffer_offset else mmap_base + offset". *)
Definition file_byte (f : log_file) (offset : Z) : option Byte.byte :=
  match buffer f with
  | Some b =>
    if buffer_offset f <=? offset
    then b !! Z.to_nat (offset - buffer_offset f)
    else match mmap_base f with
         | Some m => if 0 <=? offset then m !! Z.to_nat offset else None
         | None => None
         end
  | None =>
    match mmap_base f with
    | Some m => if 0 <=? offset then m !! Z.to_nat offset else None
    | None => None
    end
  end.

(** Modelled from the spec: [mail_transaction_log_views_close] (the view
    registry is missing).  "On log.close() all views are forcibly closed.
    Each view's close decrements the pinned LogFile's refcount." *)
Fixpoint release_pins (l : list nat) : M unit :=
  match l with
  | [] => ret tt
  | q :: l' =>
    (update (Some q) (fun f => set_refcount (refcount f - 1) f) ;;;
     release_pins l')
  end.

Definition mail_transaction_log_views_close : M unit :=
  s <- get ;;
  (release_pins (views s) ;;; modify (with_views [])).

(** ** The manager: [mail-transaction-log.c] *)

(** [mail_transaction_log_set_head] *)
Definition mail_transaction_log_set_head (file : option nat) : M unit :=
  s <- get ;;
  (i_assert (negb (bool_decide (head s = file))) ;;;
   update file (fun f => set_refcount (refcount f + 1) f) ;;;
   modify (with_head file)).

(** [mail_transaction_log_alloc]: a log bound to its index, with no file. *)
Definition mail_transaction_log_alloc (i : mail_index) (w : world) : log_state :=
  LogState ∅ 0%nat None [] None i [] w.

(** [if (log->open_file != NULL) mail_transaction_log_file_free(&log->open_file);] *)
Definition free_open_file : M unit :=
  s <- get ;;
  match open_file s with
  | Some q => (mail_transaction_log_file_free (Some q) ;;;
               modify (with_open_file None))
  | None => ret tt
  end.

Definition log_path : M string :=
  s <- get ;;
  ret (index_filepath (index s) +:+ MAIL_TRANSACTION_LOG_SUFFIX).

(** [mail_transaction_log_open] *)
Definition mail_transaction_log_open : M Z :=
  free_open_file ;;;
  s <- get ;;
  if index_in_memory (index s) then ret 0
  else
    path <- log_path ;;
    file <- mail_transaction_log_file_alloc path ;;
    r <- mail_transaction_log_file_open file false ;;
    if r <=? 0 then
      (* leave the file for _create() *)
      (modify (with_open_file file) ;;; ret r)
    else
      (mail_transaction_log_set_head file ;;; ret 1).

(** The disk branch of [mail_transaction_log_create] up to the call of
    [mail_transaction_log_set_head]: the value of the local [file] there.
    [mail_transaction_log_file_free(&file)] leaves it [NULL]. *)
Definition create_disk_file : M (option nat) :=
  s <- get ;;
  path <- log_path ;;
  file <- mail_transaction_log_file_alloc path ;;
  (match open_file s with
   | Some q =>
     (* remember what file we tried to open. if someone else created
        a new file, use it instead of recreating it *)
     o <- deref (Some q) ;;
     (update file (set_stat (st_dev o) (st_ino o) (last_size o) (last_mtime o)) ;;;
      mail_transaction_log_file_free (Some q) ;;;
      modify (with_open_file None))
   | None => ret tt
   end ;;;
   r <- mail_transaction_log_file_create file ;;
   if r <? 0
   then (mail_transaction_log_file_free file ;;; ret None)
   else ret file).

(** [mail_transaction_log_create] *)
Definition mail_transaction_log_create : M Z :=
  s <- get ;;
  if index_in_memory (index s) then
    file <- mail_transaction_log_file_alloc_in_memory ;;
    (mail_transaction_log_set_head file ;;; ret 0)
  else
    file <- create_disk_file ;;
    (mail_transaction_log_set_head file ;;; ret 1).

(** [mail_transaction_logs_clean]: one pass over the chain as it is on
    entry ([next] is read before the file is freed); every file nobody
    references is freed. *)
Fixpoint clean_chain (l : list nat) : M unit :=
  match l with
  | [] => ret tt
  | q :: l' =>
    f <- deref (Some q) ;;
    (i_assert (0 <=? refcount f) ;;;
     (if refcount f =? 0 then mail_transaction_log_file_free (Some q) else ret tt) ;;;
     clean_chain l')
  end.

Definition mail_transaction_logs_clean : M unit :=
  s <- get ;;
  clean_chain (files s).

(** [mail_transaction_log_close] *)
Definition mail_transaction_log_close : M unit :=
  mail_transaction_log_views_close ;;;
  free_open_file ;;;
  s <- get ;;
  (match head s with
   | Some h => update (Some h) (fun f => set_refcount (refcount f - 1) f)
   | None => ret tt
   end ;;;
   mail_transaction_logs_clean ;;;
   s' <- get ;;
   i_assert (bool_decide (files s' = []))).

(** [munmap] and [close]: a failure is reported on the index and nothing
    else changes; [close] releases the descriptor. *)
Definition sys_munmap (path : string) : M unit :=
  s <- get ;;
  if fails (env s) SysMunmap
  then mail_index_file_set_syscall_error path "munmap()"
  else ret tt.

Definition sys_close (path : string) (d : Z) : M unit :=
  s <- get ;;
  if fails (env s) SysClose
  then mail_index_file_set_syscall_error path "close()"
  else modify_env (close_fd d).

(** [mail_transaction_log_move_to_memory] *)
Definition mail_transaction_log_move_to_memory : M Z :=
  s <- get ;;
  match head s with
  | None => ret 0
  | Some h =>
    let file := Some h in
    f <- deref file ;;
    if FILE_IN_MEMORY f then ret 0
    else
      (* read the whole file to memory *)
      (update file (set_buffer_offset 0) ;;;
       (match buffer f with
        | Some _ => update file (set_buffer None)
        | None => ret tt
        end) ;;;
       (match mmap_base f with
        | Some _ => (sys_munmap (filepath f) ;;; update file (set_mmap_base None))
        | None => ret tt
        end) ;;;
       r <- mail_transaction_log_file_read file 0 ;;
       if r <=? 0 then ret (-1)
       else
         (sys_close (filepath f) (fd f) ;;;
          update file (set_fd (-1)) ;;;
          ret 0))
  end.

(** [fstat(fd, &st)]: device, inode, mtime and size of an open file. *)
Definition sys_fstat (d : Z) : M (option disk_file) :=
  s <- get ;;
  if fails (env s) SysFstat then ret None
  else ret (fdtab (env s) !! d).

(** [mail_transaction_log_rotate].  On the [fstat] failure path the source
    reads [file->filepath] before [file] was assigned. *)
Definition mail_transaction_log_rotate : M Z :=
  s <- get ;;
  h <- deref (head s) ;;
  let path := filepath h in
  (i_assert (locked h) ;;;
   r <- (if index_in_memory (index s)
         then (file <- mail_transaction_log_file_alloc_in_memory ;; ret (inr file))
         else
           st <- sys_fstat (fd h) ;;
           match st with
           | None => raise UninitializedRead
           | Some d =>
             file <- mail_transaction_log_file_alloc path ;;
             (update file (set_stat (df_dev d) (df_ino d) (df_size d) (df_mtime d)) ;;;
              c <- mail_transaction_log_file_create file ;;
              if c <? 0
              then (mail_transaction_log_file_free file ;;; ret (inl (-1)))
              else ret (inr file))
           end) ;;
   match r with
   | inl e => ret e
   | inr file =>
     (update (head s) (fun f => set_refcount (refcount f - 1) f) ;;;
      o <- deref (head s) ;;
      (if refcount o =? 0
       then mail_transaction_logs_clean
       else mail_transaction_log_file_unlock (head s)) ;;;
      mail_transaction_log_set_head file ;;;
      ret 0)
   end).

(** [nfs_safe_stat(path, &st)] *)
Definition nfs_safe_stat (path : string) : M (option disk_file) :=
  s <- get ;;
  if fails (env s) SysStat then ret None
  else ret (fs (env s) !! path).

(** [mail_transaction_log_refresh] *)
Definition mail_transaction_log_refresh : M Z :=
  s <- get ;;
  (i_assert (bool_decide (head s ≠ None)) ;;;
   h <- deref (head s) ;;
   if FILE_IN_MEMORY h then ret 0
   else
     path <- log_path ;;
     st <- nfs_safe_stat path ;;
     match st with
     | None =>
       ((if fails (env s) SysStat
         then mail_index_file_set_syscall_error path "stat()"
         else ret tt) ;;;
        ret (-1))
     | Some d =>
       if (st_ino h =? df_ino d) && (st_dev h =? df_dev d) then
         (* same file *)
         ret 0
       else
         file <- mail_transaction_log_file_alloc path ;;
         r <- mail_transaction_log_file_open file false ;;
         if r <=? 0 then (mail_transaction_log_file_free file ;;; ret (-1))
         else
           nf <- deref file ;;
           (i_assert (negb (locked nf)) ;;;
            update (head s) (fun f => set_refcount (refcount f - 1) f) ;;;
            o <- deref (head s) ;;
            (if refcount o =? 0 then mail_transaction_logs_clean else ret tt) ;;;
            mail_transaction_log_set_head file ;;;
            ret 0)
     end).

(** [mail_transaction_log_get_mailbox_sync_pos] *)
Definition mail_transaction_log_get_mailbox_sync_pos : M (Z * Z) :=
  s <- get ;;
  h <- deref (head s) ;;
  ret (file_seq (hdr h), mailbox_sync_max_offset h).

(** [mail_transaction_log_set_mailbox_sync_pos] *)
Definition mail_transaction_log_set_mailbox_sync_pos (seq file_offset : Z)
  : M unit :=
  s <- get ;;
  h <- deref (head s) ;;
  (i_assert (seq =? file_seq (hdr h)) ;;;
   i_assert (mailbox_sync_saved_offset h <=? file_offset) ;;;
   if mailbox_sync_max_offset h <=? file_offset
   then update (head s) (set_mailbox_sync_max_offset file_offset)
   else ret tt).

(** The scan of the chain in [mail_transaction_log_find_file]. *)
Fixpoint scan_chain (l : list nat) (seq : Z) : M (option nat) :=
  match l with
  | [] => ret None
  | q :: l' =>
    f <- deref (Some q) ;;
    if file_seq (hdr f) =? seq then ret (Some q) else scan_chain l' seq
  end.

(** The second half of [mail_transaction_log_find_file]: the chain, then
    the [.2] file of the rotation. *)
Definition find_in_chain_or_archive (seq : Z) : M (Z * option nat) :=
  s <- get ;;
  hit <- scan_chain (files s) seq ;;
  match hit with
  | Some q => ret (1, Some q)
  | None =>
    if index_in_memory (index s) then ret (0, None)
    else
      (* see if we have it in log.2 file *)
      file <- mail_transaction_log_file_alloc
                (index_filepath (index s) +:+ MAIL_TRANSACTION_LOG_SUFFIX +:+ ".2") ;;
      r <- mail_transaction_log_file_open file true ;;
      if r <=? 0 then ret (r, None)
      else
        f <- deref file ;;
        (* but is it what we expected? *)
        if negb (file_seq (hdr f) =? seq) then ret (0, None)
        else ret (1, file)
  end.

(** [mail_transaction_log_find_file]: the result and [*file_r]. *)
Definition mail_transaction_log_find_file (seq : Z) : M (Z * option nat) :=
  s <- get ;;
  h <- deref (head s) ;;
  if file_seq (hdr h) <? seq then
    (* see if the .log file has been recreated *)
    if locked h then
      (* transaction log is locked. there's no way a newer file exists. *)
      ret (0, None)
    else
      r <- mail_transaction_log_refresh ;;
      if r <? 0 then ret (-1, None)
      else
        s' <- get ;;
        h' <- deref (head s') ;;
        if file_seq (hdr h') <? seq then ret (0, None)
        else find_in_chain_or_archive seq
  else find_in_chain_or_archive seq.

(** One turn of the loop of [mail_transaction_log_lock_head]: [inl ret]
    when the loop is left ([break] or [return]), [inr tt] for "try again". *)
Definition lock_head_turn : M (Z + unit) :=
  s <- get ;;
  let file := head s in
  l <- mail_transaction_log_file_lock file ;;
  if l <? 0 then ret (inl (-1))
  else
    (update file (fun f => set_refcount (refcount f + 1) f) ;;;
     r <- mail_transaction_log_refresh ;;
     (update file (fun f => set_refcount (refcount f - 1) f) ;;;
      f <- deref file ;;
      file' <- (if refcount f =? 0
                then (mail_transaction_logs_clean ;;; ret None)
                else ret file) ;;
      s' <- get ;;
      if (r =? 0) && bool_decide (head s' = file') then
        (* success *)
        ret (inl r)
      else
        ((match file' with
          | Some _ => mail_transaction_log_file_unlock file'
          | None => ret tt
          end) ;;;
         if r <? 0 then ret (inl r)
         else (* try again *) ret (inr tt)))).

(** [mail_transaction_log_lock_head]: the [for (;;)] loop, bounded. *)
Fixpoint mail_transaction_log_lock_head (fuel : nat) : M Z :=
  match fuel with
  | O => raise OutOfFuel
  | S n =>
    t <- lock_head_turn ;;
    match t with
    | inl r => ret r
    | inr _ => mail_transaction_log_lock_head n
    end
  end.

(** [mail_transaction_log_sync_lock]: the result and the two out
    parameters, written on success only. *)
Definition mail_transaction_log_sync_lock (fuel : nat) : M (Z * option (Z * Z)) :=
  s <- get ;;
  (i_assert (negb (log_locked (index s))) ;;;
   l <- mail_transaction_log_lock_head fuel ;;
   if l <? 0 then ret (-1, None)
   else
     s1 <- get ;;
     h <- deref (head s1) ;;
     (* update sync_offset *)
     m <- mail_transaction_log_file_map (head s1) (sync_offset h) ;;
     if m <? 0 then
       (mail_transaction_log_file_unlock (head s1) ;;; ret (-1, None))
     else
       (set_log_locked true ;;;
        h' <- deref (head s1) ;;
        ret (0, Some (file_seq (hdr h'), sync_offset h')))).

(** [mail_transaction_log_sync_unlock] *)
Definition mail_transaction_log_sync_unlock : M unit :=
  s <- get ;;
  (i_assert (log_locked (index s)) ;;;
   set_log_locked false ;;;
   mail_transaction_log_file_unlock (head s)).

(** [mail_transaction_log_get_head] *)
Definition mail_transaction_log_get_head : M (Z * Z) :=
  s <- get ;;
  (i_assert (log_locked (index s)) ;;;
   h <- deref (head s) ;;
   ret (file_seq (hdr h), sync_offset h)).

(** [mail_transaction_log_is_head_prev] *)
Definition mail_transaction_log_is_head_prev (seq file_offset : Z) : M bool :=
  s <- get ;;
  h <- deref (head s) ;;
  ret ((prev_file_seq (hdr h) =? seq) && (prev_file_offset (hdr h) =? file_offset)).

(** ** The readers of the log *)

Definition pin_state (q : nat) (s : log_state) : log_state :=
  with_views (q :: views s) s.

(** One entry for [q] leaves the list of references. *)
Fixpoint remove_one (q : nat) (l : list nat) : list nat :=
  match l with
  | [] => []
  | x :: l' => if bool_decide (x = q) then l' else x :: remove_one q l'
  end.

Definition unpin_state (q : nat) (s : log_state) : log_state :=
  with_views (remove_one q (views s)) s.

(** Modelled from the spec: a reader opens a view on a file of the log (the
    view registry is missing): "each reader pins one or more LogFiles by
    reference count". *)
Definition view_pin (q : nat) : M unit :=
  s <- get ;;
  (i_assert (bool_decide (head s = Some q \/ q ∈ files s)) ;;;
   update (Some q) (fun f => set_refcount (refcount f + 1) f) ;;;
   modify (pin_state q)).

(** Modelled from the spec: a reader closes its view: "each view's close
    decrements the pinned LogFile's refcount and, if the file is not head,
    triggers a purge sweep". *)
Definition view_unpin (q : nat) : M unit :=
  s <- get ;;
  (i_assert (bool_decide (q ∈ views s)) ;;;
   update (Some q) (fun f => set_refcount (refcount f - 1) f) ;;;
   modify (unpin_state q) ;;;
   if bool_decide (head s = Some q) then ret tt else mail_transaction_logs_clean).

(** ** The configuration filter: [config-filter.c] *)

Module ConfigFilter.

(** [struct config_filter], the fields [config_filter_is_superset] and the
    sort order read.  A [const char *] that may be [NULL] is an [option]. *)
Record config_filter := Filter {
  service : option string;
  local_name : option string;
  local_bits : Z;             (* unsigned int *)
  remote_bits : Z             (* unsigned int *)
}.

(** [config_filter_is_superset]: the result and the lines given to
    [i_warning]. *)
Definition config_filter_is_superset (sup filter : config_filter)
  : bool * list string :=
  (* assume that both of the filters match the same subset, so we don't
     need to compare IPs and service name. *)
  if local_bits filter <? local_bits sup then (false, [])
  else if remote_bits filter <? remote_bits sup then (false, [])
  else match local_name sup, local_name filter with
       | Some n, None => (false, [n])
       | _, _ =>
         match service sup, service filter with
         | Some _, None => (false, [])
         | _, _ => (true, [])
         end
       end.

End ConfigFilter.

(** ** The configuration filter: matching, ordering and collecting

    The rest of [config-filter.c].  What it calls of [lib/network],
    [lib/dns-util], [lib/strfuncs], [lib/array] and [lib-settings] is not
    part of the sources at hand: those functions are parameters of the
    sections below. *)

Module ConfigMatch.
Import ConfigFilter.
Import Stdlib.Strings.Ascii.

(** [p != NULL] *)
Definition non_null {A} (p : option A) : bool :=
  match p with
  | Some _ => true
  | None => false
  end.

(** [config_filter_match_service]; [strcmp] is equality of the strings. *)
Definition config_filter_match_service (mask filter : config_filter) : bool :=
  match service mask with
  | Some mask_service =>
    match service filter with
    | None => false
    | Some filter_service =>
      match mask_service with
      | String "!"%char negated =>
        (* not service *)
        if String.eqb filter_service negated then false else true
      | _ =>
        if negb (String.eqb filter_service mask_service) then false else true
      end
    end
  | None => true
  end.

(** [strchr(local_name, ' ')] together with [t_strdup_until(local_name,
    ptr)] and [ptr + 1]: the name before the first space and what follows
    the space; [None] for [NULL]. *)
Fixpoint strchr_space (s : string) : option (string * string) :=
  match s with
  | EmptyString => None
  | String c rest =>
    if Ascii.eqb c " "%char then Some (EmptyString, rest)
    else match strchr_space rest with
         | Some (name, after) => Some (String c name, after)
         | None => None
         end
  end.

(** [config_filter_parser_cmp], on the filters of the two parsers. *)
Definition config_filter_cmp (f1 f2 : config_filter) : Z :=
  (* remote and locals are first, although it doesn't really
     matter which one comes first *)
  if non_null (local_name f1) && negb (non_null (local_name f2)) then -1
  else if negb (non_null (local_name f1)) && non_null (local_name f2) then 1
  else if local_bits f2 <? local_bits f1 then -1
  else if local_bits f1 <? local_bits f2 then 1
  else if remote_bits f2 <? remote_bits f1 then -1
  else if remote_bits f1 <? remote_bits f2 then 1
  else if non_null (service f1) && negb (non_null (service f2)) then -1
  else if negb (non_null (service f1)) && non_null (service f2) then 1
  else 0.

Section Matching.

(** [struct ip_addr], [net_is_in_network(ip, net_ip, bits)],
    [net_ip_compare], [dns_match_wildcard] (0 for a match), [null_strcmp]
    and [null_strcasecmp]. *)
Variable ip_addr : Type.
Variable net_is_in_network : ip_addr -> ip_addr -> Z -> bool.
Variable net_ip_compare : ip_addr -> ip_addr -> bool.
Variable dns_match_wildcard : string -> string -> Z.
Variable null_strcmp : option string -> option string -> Z.
Variable null_strcasecmp : option string -> option string -> Z.

(** [struct config_filter] with its two networks. *)
Record net_filter := NetFilter {
  base : config_filter;
  local_net : ip_addr;
  remote_net : ip_addr
}.

(** The loop of [config_filter_match_local_name], bounded: [None] when the
    bound is reached. *)
Fixpoint match_local_name_loop (fuel : nat) (filter_local_name local_name : string)
  : option bool :=
  match fuel with
  | O => None
  | S n =>
    match strchr_space local_name with
    | Some (name, after) =>
      if dns_match_wildcard filter_local_name name =? 0 then Some true
      else match_local_name_loop n filter_local_name after
    | None => Some (dns_match_wildcard filter_local_name local_name =? 0)
    end
  end.

(** [config_filter_match_local_name]: each turn of the loop consumes a
    space, so the length of the names bounds it. *)
Definition config_filter_match_local_name (mask_local_name filter_local_name : string)
  : option bool :=
  (* Handle multiple names separated by spaces in local_name *)
  match_local_name_loop (S (String.length mask_local_name))
                        filter_local_name mask_local_name.

(** [config_filter_match_rest]; [None] when the loop above has not ended. *)
Definition config_filter_match_rest (mask filter : net_filter) : option bool :=
  let local_part :=
    if negb (local_bits (base mask) =? 0) then
      if local_bits (base filter) =? 0 then false
      else if negb (net_is_in_network (local_net filter) (local_net mask)
                                      (local_bits (base mask)))
      then false
      else true
    else true in
  let remote_part :=
    (* FIXME: it's not comparing full masks *)
    if negb (remote_bits (base mask) =? 0) then
      if remote_bits (base filter) =? 0 then false
      else if negb (net_is_in_network (remote_net filter) (remote_net mask)
                                      (remote_bits (base mask)))
      then false
      else local_part
    else local_part in
  match local_name (base mask) with
  | Some mask_name =>
    match local_name (base filter) with
    | None => Some false
    | Some filter_name =>
      match config_filter_match_local_name mask_name filter_name with
      | None => None
      | Some matched => if negb matched then Some false else Some remote_part
      end
    end
  | None => Some remote_part
  end.

(** [config_filter_match] *)
Definition config_filter_match (mask filter : net_filter) : option bool :=
  if negb (config_filter_match_service (base mask) (base filter)) then Some false
  else config_filter_match_rest mask filter.

(** [config_filters_equal] *)
Definition config_filters_equal (f1 f2 : net_filter) : bool :=
  if negb (null_strcmp (service (base f1)) (service (base f2)) =? 0) then false
  else if negb (remote_bits (base f1) =? remote_bits (base f2)) then false
  else if negb (net_ip_compare (remote_net f1) (remote_net f2)) then false
  else if negb (local_bits (base f1) =? local_bits (base f2)) then false
  else if negb (net_ip_compare (local_net f1) (local_net f2)) then false
  else if negb (null_strcasecmp (local_name (base f1)) (local_name (base f2)) =? 0)
  then false
  else true.

End Matching.

Section Collecting.

(** [struct setting_parser_context], [settings_parser_dup],
    [settings_parser_apply_changes] (the result, the destination as it is
    left and the conflicting key; the flag tells whether a key is asked for)
    and [array_sort]. *)
Variable settings_parser : Type.
Variable settings_parser_dup : settings_parser -> settings_parser.
Variable settings_parser_apply_changes :
  settings_parser -> settings_parser -> bool -> Z * settings_parser * string.
Variable array_sort : forall A : Type, (A -> A -> Z) -> list A -> list A.

(** [struct config_module_parser]; an array of them ends at the first
    [root == NULL] and is the list of the elements before it. *)
Record config_module_parser := ModuleParser {
  root : string;
  parser : settings_parser
}.

(** [struct config_filter_parser] *)
Record config_filter_parser := FilterParser {
  filter : config_filter;
  file_and_line : string;
  parsers : list config_module_parser
}.

(** [struct config_filter_context]: the [NULL]-terminated array
    [ctx->parsers] and the errors. *)
Record config_filter_context := FilterContext {
  ctx_parsers : list config_filter_parser;
  ctx_errors : list string
}.

(** [config_filter_parser_cmp] and [config_filter_parser_cmp_rev] *)
Definition config_filter_parser_cmp (p1 p2 : config_filter_parser) : Z :=
  config_filter_cmp (filter p1) (filter p2).

Definition config_filter_parser_cmp_rev (p1 p2 : config_filter_parser) : Z :=
  - config_filter_parser_cmp p1 p2.

(** [config_filter_find_all]: [&ctx->parsers[0]] alone is pushed; when the
    context has no parser that element is the terminating [NULL], and the
    result starts with [NULL]. *)
Definition config_filter_find_all (ctx : config_filter_context)
  : list config_filter_parser :=
  array_sort _ config_filter_parser_cmp (take 1 (ctx_parsers ctx)).

(** [config_filter_find_subset] *)
Definition config_filter_find_subset (ctx : config_filter_context)
  : list config_filter_parser :=
  array_sort _ config_filter_parser_cmp_rev (ctx_parsers ctx).

(** What a call can come to: a crash (a [NULL] pointer is followed, an
    array is left, an assertion fails) or a return. *)
Inductive applied :=
  | Crashed
  | Conflict (error : string)
  | Applied (dest : list config_module_parser).

(** [config_module_parser_apply_changes]: [src->parsers[i]] is read for
    every [dest[i]]; [error_r == NULL] is [want_error = false]. *)
Fixpoint config_module_parser_apply_changes
    (dest : list config_module_parser) (src : config_filter_parser)
    (src_parsers : list config_module_parser) (want_error : bool) : applied :=
  match dest with
  | [] => Applied []
  | d :: dest' =>
    match src_parsers with
    | [] => Crashed
    | sp :: src_parsers' =>
      match settings_parser_apply_changes (parser d) (parser sp) want_error with
      | (r, changed, conflict_key) =>
        if r <? 0 then
          if want_error
          then Conflict ("Conflict in setting " +:+ conflict_key +:+
                         " found from filter at " +:+ file_and_line src)
          else (* i_assert(error_r != NULL) *) Crashed
        else
          match config_module_parser_apply_changes dest' src src_parsers'
                                                   want_error with
          | Applied rest => Applied (ModuleParser (root d) changed :: rest)
          | other => other
          end
      end
    end
  end.

(** What [config_filter_parsers_get] returns: the result, [*parsers_r],
    [*error_r] and the lines given to [i_warning]. *)
Inductive got :=
  | GetCrashed
  | Got (ret : Z) (parsers_r : option (list config_module_parser))
        (error_r : option string) (warnings : list string).

(** The loop of [config_filter_parsers_get] over [src[i]], [i >= 1], with
    [src[i-1]] at hand. *)
Fixpoint apply_rest (dest : list config_module_parser)
    (prev : config_filter_parser) (rest : list config_filter_parser)
    (warnings : list string) : got :=
  match rest with
  | [] => Got 0 (Some dest) None warnings
  | cur :: rest' =>
    let (superset, warned) := config_filter_is_superset (filter cur) (filter prev) in
    match config_module_parser_apply_changes dest cur (parsers cur)
                                             (negb superset) with
    | Crashed => GetCrashed
    | Conflict error => Got (-1) None (Some error) (warnings ++ warned)
    | Applied dest' => apply_rest dest' cur rest' (warnings ++ warned)
    end
  end.

(** [config_filter_parsers_get] *)
Definition config_filter_parsers_get (ctx : config_filter_context) : got :=
  match config_filter_find_all ctx with
  | [] => (* src[0] == NULL *) GetCrashed
  | first :: rest =>
    (* all of them should have the same number of parsers.
       duplicate our initial parsers from the first match *)
    let dest := map (fun p => ModuleParser (root p) (settings_parser_dup (parser p)))
                    (parsers first) in
    (* apply the changes from rest of the matches *)
    apply_rest dest first rest []
  end.

(** [config_filter_add_error] and [config_filter_get_errors] *)
Definition config_filter_add_error (ctx : config_filter_context) (error : string)
  : config_filter_context :=
  FilterContext (ctx_parsers ctx) (ctx_errors ctx ++ [error]).

Definition config_filter_get_errors (ctx : config_filter_context) : list string :=
  ctx_errors ctx.

End Collecting.

(** The names of a space-separated list, an empty name wherever two spaces
    meet or the list begins or ends with one. *)
Fixpoint names_of (s : string) : list string :=
  match s with
  | EmptyString => [EmptyString]
  | String c rest =>
    if Ascii.eqb c " "%char then EmptyString :: names_of rest
    else match names_of rest with
         | name :: names => String c name :: names
         | [] => [String c EmptyString]
         end
  end.

(** A service name does not open with the negation mark. *)
Definition plain_name (n : string) : Prop :=
  match n with
  | String c _ => c <> "!"%char
  | EmptyString => True
  end.

End ConfigMatch.

(** ** Notions the properties are stated with *)

(** The file the head pointer designates. *)
Definition head_file (s : log_state) : option log_file :=
  match head s with
  | Some h => heap s !! h
  | None => None
  end.

(** Pointers in use were handed out by the allocator. *)
Record wf_ptrs (s : log_state) : Prop := WfPtrs {
  wf_heap : forall q f, heap s !! q = Some f -> (q < next_ptr s)%nat;
  wf_head : forall q, head s = Some q -> (q < next_ptr s)%nat;
  wf_files : forall q, q ∈ files s -> (q < next_ptr s)%nat;
  wf_open_file : forall q, open_file s = Some q -> (q < next_ptr s)%nat
}.

(** Nobody references the file at [q]. *)
Definition unreferenced (s : log_state) (q : nat) : Prop :=
  exists f, heap s !! q = Some f /\ refcount f = 0.

(** What a sweep over [l] leaves of [s]: the unreferenced files of [l] are
    gone from the store and the chain, and nothing else has changed but the
    descriptors that were closed. *)
Record swept (l : list nat) (s s' : log_state) : Prop := Swept {
  swept_head : head s' = head s;
  swept_open_file : open_file s' = open_file s;
  swept_index : index s' = index s;
  swept_views : views s' = views s;
  swept_next_ptr : next_ptr s' = next_ptr s;
  swept_fs : fs (env s') = fs (env s);
  swept_failing : failing (env s') = failing (env s);
  swept_next_fd : next_fd (env s') = next_fd (env s);
  swept_next_ino : next_ino (env s') = next_ino (env s);
  swept_hdr_size : hdr_size (env s') = hdr_size (env s);
  swept_clock : clock (env s') = clock (env s);
  swept_fs_dev : fs_dev (env s') = fs_dev (env s);
  swept_fdtab : forall k d, fdtab (env s') !! k = Some d ->
                            fdtab (env s) !! k = Some d;
  swept_gone : forall q, q ∈ l -> unreferenced s q -> heap s' !! q = None;
  swept_kept : forall q, ~ (q ∈ l /\ unreferenced s q) ->
                         heap s' !! q = heap s !! q;
  swept_files : forall q, q ∈ files s' <->
                          q ∈ files s /\ ~ (q ∈ l /\ unreferenced s q);
  swept_alloc : forall q, q ∈ l -> exists f, heap s !! q = Some f /\ 0 <= refcount f
}.

(** The canonical path of the log: [index->filepath] with the suffix. *)
Definition log_path_of (s : log_state) : string :=
  index_filepath (index s) +:+ MAIL_TRANSACTION_LOG_SUFFIX.

(** The header [next_header] computes when the head file is [fh]. *)
Definition successor_header (s : log_state) (fh : option log_file) : log_header :=
  match fh with
  | Some f => LogHeader (file_seq (hdr f) + 1) (file_seq (hdr f)) (sync_offset f)
                        (clock (env s))
  | None => LogHeader 1 0 0 (clock (env s))
  end.

(** ** The chain invariant *)

(** The head is off the chain and every file of the chain is older than
    the head; the pointers of the log designate live files. *)
Record log_inv (s : log_state) : Prop := LogInv {
  inv_ptrs : wf_ptrs s;
  inv_head_alloc : forall h, head s = Some h -> is_Some (heap s !! h);
  inv_files_alloc : forall q, q ∈ files s -> is_Some (heap s !! q);
  inv_no_head : head s = None -> files s = [];
  inv_head_off_chain : forall h, head s = Some h -> h ∉ files s;
  inv_open_file_off : forall q, open_file s = Some q ->
                                head s <> Some q /\ q ∉ files s;
  inv_older : forall h fh q fq,
    head s = Some h -> heap s !! h = Some fh ->
    q ∈ files s -> heap s !! q = Some fq ->
    file_seq (hdr fq) < file_seq (hdr fh)
}.

(** The file is still the same file on disk. *)
Definition same_identity (f f' : log_file) : Prop :=
  filepath f' = filepath f /\ hdr f' = hdr f /\ st_ino f' = st_ino f /\
  st_dev f' = st_dev f /\ fd f' = fd f.

(** What the other processes are trusted with: sequences only grow.  A log
    file found at the path of the log, or at the path of the head, is
    either the file of the head itself, on which the descriptor of the head
    is open, or a newer file. *)
Definition disk_is_ahead (s : log_state) : Prop :=
  forall h fh path d,
    head s = Some h -> heap s !! h = Some fh ->
    path = index_filepath (index s) +:+ MAIL_TRANSACTION_LOG_SUFFIX \/
    path = filepath fh ->
    fs (env s) !! path = Some d ->
    file_seq (hdr fh) < df_seq d \/
    (df_ino d = st_ino fh /\ df_dev d = st_dev fh /\
     forall d0, fdtab (env s) !! fd fh = Some d0 ->
                df_ino d0 = st_ino fh /\ df_dev d0 = st_dev fh).

(** The chain invariant together with the assumption on the disk. *)
Definition sound (s : log_state) : Prop := log_inv s /\ disk_is_ahead s.

(** The states of the first life of a log: it is allocated, opened or
    created while it has no head, and then used; the index and the other
    processes change the index flags and the file system in between.  The
    operations that look at the disk for a newer file are taken when the
    disk is ahead of the log: the other processes hand out sequences that
    grow.  A log that is opened again after
    [mail_transaction_log_close], which leaves [log->head] as it is, is not
    among them. *)
Inductive reachable : log_state -> Prop :=
  | reach_alloc i w : reachable (mail_transaction_log_alloc i w)
  | reach_env s w : reachable s -> reachable (with_env w s)
  | reach_index s i : reachable s -> reachable (with_index i s)
  | reach_open s r s' :
      reachable s -> head s = None ->
      mail_transaction_log_open s = Ret r s' -> reachable s'
  | reach_create s r s' :
      reachable s -> head s = None ->
      mail_transaction_log_create s = Ret r s' -> reachable s'
  | reach_close s r s' :
      reachable s ->
      mail_transaction_log_close s = Ret r s' -> reachable s'
  | reach_move_to_memory s r s' :
      reachable s ->
      mail_transaction_log_move_to_memory s = Ret r s' -> reachable s'
  | reach_rotate s r s' :
      reachable s -> disk_is_ahead s ->
      mail_transaction_log_rotate s = Ret r s' -> reachable s'
  | reach_refresh s r s' :
      reachable s -> disk_is_ahead s ->
      mail_transaction_log_refresh s = Ret r s' -> reachable s'
  | reach_set_mailbox_sync_pos s seq off r s' :
      reachable s ->
      mail_transaction_log_set_mailbox_sync_pos seq off s = Ret r s' ->
      reachable s'
  | reach_find_file s seq r s' :
      reachable s -> disk_is_ahead s ->
      mail_transaction_log_find_file seq s = Ret r s' -> reachable s'
  | reach_lock_head s fuel r s' :
      reachable s -> disk_is_ahead s ->
      mail_transaction_log_lock_head fuel s = Ret r s' -> reachable s'
  | reach_sync_lock s fuel r s' :
      reachable s -> disk_is_ahead s ->
      mail_transaction_log_sync_lock fuel s = Ret r s' -> reachable s'
  | reach_sync_unlock s r s' :
      reachable s ->
      mail_transaction_log_sync_unlock s = Ret r s' -> reachable s'
  | reach_view_pin s q r s' :
      reachable s -> view_pin q s = Ret r s' -> reachable s'
  | reach_view_unpin s q r s' :
      reachable s -> view_unpin q s = Ret r s' -> reachable s'.

(** Between the production of a new file at [p] and its installation as
    head: the new file is live, off the chain and newer than the chain.
    The old head may be on the chain by now, or freed. *)
Record pre_inv (p : nat) (s : log_state) : Prop := PreInv {
  pre_ptrs : wf_ptrs s;
  pre_new : exists nf, heap s !! p = Some nf /\
      forall q fq, q ∈ files s -> heap s !! q = Some fq ->
                   file_seq (hdr fq) < file_seq (hdr nf);
  pre_off_chain : p ∉ files s;
  pre_files_alloc : forall q, q ∈ files s -> is_Some (heap s !! q);
  pre_open_file_off : forall q, open_file s = Some q -> q <> p /\ q ∉ files s
}.

(** How [refresh] and [rotate] retire the old head [h] and install the file
    produced at [p], from the state [s1] in which that file is ready: the
    old head loses one reference; the chain is swept when that was the last
    one, otherwise [rotate] unlocks the old head ([refresh] does nothing);
    then the new file becomes the head. *)
Definition retires_and_installs (sweep_only : bool) (h p : nat)
    (s1 s' : log_state) : Prop :=
  exists fh1 s3 nf,
    heap s1 !! h = Some fh1 /\
    let fh2 := set_refcount (refcount fh1 - 1) fh1 in
    let s2 := store h fh2 s1 in
    ((refcount fh1 - 1 = 0 /\ swept (files s2) s2 s3) \/
     (refcount fh1 - 1 <> 0 /\
      s3 = if sweep_only then s2 else store h (set_locked false fh2) s2)) /\
    heap s3 !! p = Some nf /\ head s3 <> Some p /\
    s' = with_head (Some p) (store p (set_refcount (refcount nf + 1) nf) s3).

(** The state [s1] in which the successor [nf] of the head has been
    produced at the next pointer [p] of [s]: nothing else in the store has
    changed, and the head has joined the chain. *)
Record produced (s : log_state) (p : nat) (nf : log_file) (s1 : log_state)
  : Prop := Produced {
  prod_ptr : p = next_ptr s;
  prod_next_ptr : next_ptr s1 = S p;
  prod_head : head s1 = head s;
  prod_open_file : open_file s1 = open_file s;
  prod_index : index s1 = index s;
  prod_views : views s1 = views s;
  prod_files : files s1 = files (link_state s);
  prod_new : heap s1 !! p = Some nf;
  prod_others : forall q, q <> p -> heap s1 !! q = heap s !! q;
  prod_refcount : refcount nf = 0
}.

(** The state an operation leaves; the state it found when it faults. *)
Definition state_after {A} (m : M A) (s : log_state) : log_state :=
  match m s with
  | Ret _ s' => s'
  | Fault _ => s
  end.

(** The head designates an address that has been allocated. *)
Definition head_in_bounds (s : log_state) : Prop :=
  forall q, head s = Some q -> (q < next_ptr s)%nat.

(** The state in which [mail_transaction_log_lock_head] calls the refresh:
    the lock on the head, the file [fl] at [q] of [sl], has just been
    taken, and the loop holds a reference of its own on the file. *)
Definition under_the_lock (q : nat) (fl : log_file) (sl : log_state)
  : log_state :=
  store q (set_refcount (refcount fl + 1) fl) sl.

(** What a successful turn of [mail_transaction_log_lock_head] does to
    [s]: the lock on the head, at [q], is taken, which leaves [s']; the
    refresh is then run under the lock, on [s'] with the reference of the
    loop on the head, and returns 0 without changing that state; the
    reference is given back, and the log is as the locking left it. *)
Definition locked_in_place (s s' : log_state) : Prop :=
  exists q fl,
    head s = Some q /\
    mail_transaction_log_file_lock (Some q) s = Ret 0 s' /\
    head s' = Some q /\ heap s' !! q = Some fl /\ locked fl = true /\
    mail_transaction_log_refresh (under_the_lock q fl s')
    = Ret 0 (under_the_lock q fl s').

(** The turns of the loop of [mail_transaction_log_lock_head] that ended in
    "try again": from [s] they lead to [st]. *)
Inductive retried : log_state -> log_state -> Prop :=
  | retried_none s : retried s s
  | retried_turn s s1 st :
      lock_head_turn s = Ret (inr tt) s1 -> retried s1 st -> retried s st.

(** The path of the archive the rotation leaves: the path of the log with
    [.2] after it. *)
Definition archive_path_of (s : log_state) : string :=
  index_filepath (index s) +:+ MAIL_TRANSACTION_LOG_SUFFIX +:+ ".2".

(** No file of the chain [l] has the sequence [seq]. *)
Definition chain_misses (s : log_state) (l : list nat) (seq : Z) : Prop :=
  forall x, x ∈ l ->
    exists fx, heap s !! x = Some fx /\ file_seq (hdr fx) <> seq.

(** No rotation has occurred since the log took its head [fh]: the head is
    locked, or lives in memory, or the path of the log still holds its
    file. *)
Definition not_rotated (s : log_state) (fh : log_file) : Prop :=
  locked fh = true \/ FILE_IN_MEMORY fh = true \/
  (fails (env s) SysStat = false /\
   exists d, fs (env s) !! log_path_of s = Some d /\
             st_ino fh = df_ino d /\ st_dev fh = df_dev d).

(** What the look into the archive gives when the chain has missed. *)
Definition archive_outcome (s : log_state) (seq : Z)
  : outcome (Z * option nat) :=
  let p := next_ptr s in
  let sa := alloc_state (archive_path_of s) s in
  if fails (env s) SysOpen
  then Ret (-1, None) (record_syscall_error (archive_path_of s) "open()" sa)
  else match fs (env s) !! archive_path_of s with
       | None => Ret (0, None) sa
       | Some d =>
         if negb (df_valid d) then Ret (0, None) sa
         else if df_seq d =? seq
              then Ret (1, Some p)
                       (attach_state p d (blank_file (archive_path_of s)) sa)
              else Ret (0, None)
                       (attach_state p d (blank_file (archive_path_of s)) sa)
       end.



(** ** The rest of the manager and its callers *)

Section Rotation.

(** The three constants of [mail-transaction-log-private.h], which is not
    part of the sources at hand. *)
Variables MAIL_TRANSACTION_LOG_ROTATE_MIN_SIZE
          MAIL_TRANSACTION_LOG_ROTATE_MAX_SIZE
          MAIL_TRANSACTION_LOG_ROTATE_TIME : Z.

(** [LOG_WANT_ROTATE(file)]; [ioloop_time] is the clock of the world, and
    the cast of the creation stamp to [time_t] keeps its value. *)
Definition LOG_WANT_ROTATE (file : log_file) (ioloop_time : Z) : bool :=
  ((MAIL_TRANSACTION_LOG_ROTATE_MIN_SIZE <? sync_offset file)
   && (create_stamp (hdr file) <? ioloop_time - MAIL_TRANSACTION_LOG_ROTATE_TIME))
  || (MAIL_TRANSACTION_LOG_ROTATE_MAX_SIZE <? sync_offset file).

(** [mail_transaction_log_want_rotate] *)
Definition mail_transaction_log_want_rotate : M bool :=
  s <- get ;;
  h <- deref (head s) ;;
  ret (LOG_WANT_ROTATE h (clock (env s))).

End Rotation.

(** A caller that reports one synced position after another. *)
Fixpoint set_mailbox_sync_pos_each (seq : Z) (offsets : list Z) : M unit :=
  match offsets with
  | [] => ret tt
  | file_offset :: rest =>
    (mail_transaction_log_set_mailbox_sync_pos seq file_offset ;;;
     set_mailbox_sync_pos_each seq rest)
  end.

(** Another process has put a new log file at the path of the log, and no
    system call fails: the head [f] is an unlocked file on disk that a
    reader references besides the log, and [d], at the path, is another
    file. *)
Record superseded (s : log_state) (f : log_file) (d : disk_file) : Prop := Superseded {
  sup_unlocked : locked f = false;
  sup_on_disk : FILE_IN_MEMORY f = false;
  sup_pinned : 1 < refcount f;
  sup_calls : failing (env s) = [];
  sup_at_path : fs (env s) !! log_path_of s = Some d;
  sup_valid : df_valid d = true;
  sup_other : (st_ino f =? df_ino d) && (st_dev f =? df_dev d) = false
}.

(** The state a refresh leaves when it replaces the head at [h], so far
    [fh], by the file [d] found at the path of the log. *)
Definition refreshed (h : nat) (fh : log_file) (d : disk_file) (s : log_state)
  : log_state :=
  let p := next_ptr s in
  let path := log_path_of s in
  let nf := load_disk_file d (env s) (blank_file path) in
  with_head (Some p)
    (store p (set_refcount (refcount nf + 1) nf)
       (store h (set_refcount (refcount fh - 1) fh)
          (link_state (attach_state p d (blank_file path) (alloc_state path s))))).

(** ** Sample states *)

Module Samples.

Definition quiet_world : world :=
  World ∅ ∅ 3 100 1 24 1000 [].

Definition disk_index : mail_index := MailIndex "/m/idx" false false [].
Definition memory_index : mail_index := MailIndex "/m/idx" true false [].

(** A disk-backed file with sequence [seq] on inode [ino], open on [d]. *)
Definition disk_log_file (seq ino d : Z) (lck : bool) (rc : Z) : log_file :=
  LogFile "/m/idx.log" (LogHeader seq (seq - 1) 0 0) 1 ino 24 0 d
          None None 0 24 24 24 lck rc.

(** A head whose mailbox watermark already stands at 10. *)
Definition watermark_state : log_state :=
  LogState {[ 0%nat := set_mailbox_sync_max_offset 10
                         (LogFile "/m/idx.log" (LogHeader 1 0 0 0) 1 7 24 0 3
                                  None None 0 24 0 0 false 1) ]}
           1%nat (Some 0%nat) [] None disk_index [] quiet_world.

(** A fresh log on disk whose directory holds no log file yet, after a
    first [mail_transaction_log_open]: the attempt is kept in [open_file]. *)
Definition after_failed_open : log_state :=
  match mail_transaction_log_open (mail_transaction_log_alloc disk_index quiet_world) with
  | Ret _ s => s
  | Fault _ => mail_transaction_log_alloc disk_index quiet_world
  end.

(** The same log once its index has been moved to memory. *)
Definition leftover_open_in_memory : log_state :=
  with_index memory_index after_failed_open.

(** Two generations on disk: the head with sequence 2 and its predecessor,
    kept on the chain by the reference of a reader; both are open. *)
Definition old_disk_file : disk_file :=
  DiskFile 1 7 true 1 0 0 0 0 (repeat Byte.x00 24).
Definition new_disk_file : disk_file :=
  DiskFile 1 8 true 2 1 24 0 0 (repeat Byte.x00 24 ++ [Byte.x2a; Byte.x2b]).

Definition two_generations : log_state :=
  LogState {[ 0%nat := disk_log_file 1 7 3 false 1;
              1%nat := disk_log_file 2 8 4 false 1 ]}
           2%nat (Some 1%nat) [0%nat] None disk_index [0%nat]
           (World {[ "/m/idx.log" := new_disk_file;
                     "/m/idx.log.2" := old_disk_file ]}
                  {[ 3 := old_disk_file; 4 := new_disk_file ]}
                  5 100 1 24 1000 []).


(** The life of a log as in scenario S2: created in a new directory, pinned
    by a reader, locked for a sync and rotated. *)
Definition created : log_state :=
  state_after mail_transaction_log_create
              (mail_transaction_log_alloc disk_index quiet_world).
Definition pinned : log_state := state_after (view_pin 0) created.
Definition locked_for_sync : log_state :=
  state_after (mail_transaction_log_sync_lock 2) pinned.
Definition rotated : log_state :=
  state_after mail_transaction_log_rotate locked_for_sync.

(** Scenario S3 at the moment [mail_transaction_log_lock_head] has locked
    the head and taken its own reference: the head, with sequence 1, is
    locked, and another process has already put the file with sequence 2 at
    the path of the log. *)
Definition locked_behind_disk : log_state :=
  LogState {[ 0%nat := disk_log_file 1 7 3 true 2 ]}
           1%nat (Some 0%nat) [] None disk_index []
           (World {[ "/m/idx.log" := new_disk_file;
                     "/m/idx.log.2" := old_disk_file ]}
                  {[ 3 := old_disk_file ]}
                  4 100 1 24 1000 []).


(** The locked log of [locked_for_sync] on a day reading a file fails, and
    on a day creating one fails. *)
Definition failing_world (c : syscall) (w : world) : world :=
  World (fs w) (fdtab w) (next_fd w) (next_ino w) (fs_dev w) (hdr_size w)
        (clock w) [c].
Definition locked_no_read : log_state :=
  on_env (failing_world SysRead) locked_for_sync.

(** Scenario S3 before the call of [mail_transaction_log_lock_head]: the
    head, with sequence 1, is referenced by the log and by a reader, and
    another process has put the file with sequence 2 at the path. *)
Definition behind_disk : log_state :=
  LogState {[ 0%nat := disk_log_file 1 7 3 false 2 ]}
           1%nat (Some 0%nat) [] None disk_index [0%nat]
           (World {[ "/m/idx.log" := new_disk_file;
                     "/m/idx.log.2" := old_disk_file ]}
                  {[ 3 := old_disk_file ]}
                  4 100 1 24 1000 []).


End Samples.

(** ** The claims that fail, as they are worded *)

(** "Calling set_mailbox_sync_pos(s, x) then set_mailbox_sync_pos(s, y) with
    y < x leaves mailbox_sync_max_offset equal to x." *)
Definition second_call_leaves_first_offset (s : log_state) (seq x y : Z) : Prop :=
  forall h, head_file s = Some h ->
    seq = file_seq (hdr h) ->
    mailbox_sync_saved_offset h <= x -> mailbox_sync_saved_offset h <= y ->
    y < x ->
    exists s1 s2 h2,
      mail_transaction_log_set_mailbox_sync_pos seq x s = Ret tt s1 /\
      mail_transaction_log_set_mailbox_sync_pos seq y s1 = Ret tt s2 /\
      head_file s2 = Some h2 /\ mailbox_sync_max_offset h2 = x.

(** "For an in-memory index [open] returns 0 immediately without touching
    open_file or head." *)
Definition open_in_memory_touches_nothing (s : log_state) : Prop :=
  index_in_memory (index s) = true ->
  exists s', mail_transaction_log_open s = Ret 0 s' /\
             open_file s' = open_file s /\ head s' = head s.

(** "move_to_memory converts every on-disk file of the Log into an
    in-memory file": once it has returned, no file of the log, head or
    chain, has a descriptor left. *)
Definition moves_every_file_to_memory (s : log_state) : Prop :=
  forall r s', mail_transaction_log_move_to_memory s = Ret r s' ->
  forall q f, head s = Some q \/ q ∈ files s ->
    heap s' !! q = Some f -> fd f = -1.

(** "For every Log whose head is locked, calling refresh() leaves the head
    identity unchanged and returns 0." *)
Definition refresh_is_noop_when_locked (s : log_state) : Prop :=
  forall h, head_file s = Some h -> locked h = true ->
    exists s', mail_transaction_log_refresh s = Ret 0 s' /\ head s' = head s.



(** * Properties *)

(** ** Reasoning in the monad *)

Lemma bind_Ret {A B} (m : M A) (k : A -> M B) s a s' :
  m s = Ret a s' -> bind m k s = k a s'.
Proof. intros E. unfold bind. now rewrite E. Qed.

Lemma bind_Fault {A B} (m : M A) (k : A -> M B) s e :
  m s = Fault e -> bind m k s = Fault e.
Proof. intros E. unfold bind. now rewrite E. Qed.

Lemma bind_inv {A B} (m : M A) (k : A -> M B) s b s' :
  bind m k s = Ret b s' -> exists a s1, m s = Ret a s1 /\ k a s1 = Ret b s'.
Proof.
  unfold bind. destruct (m s) as [a s1|e]; intros E; [eauto | discriminate].
Qed.

Lemma ret_inv {A} (a b : A) s s' : ret a s = Ret b s' -> b = a /\ s' = s.
Proof. unfold ret. now intros [= -> ->]. Qed.

Lemma get_inv s a s' : get s = Ret a s' -> a = s /\ s' = s.
Proof. unfold get. now intros [= -> ->]. Qed.

Lemma modify_inv g s a s' : modify g s = Ret a s' -> s' = g s.
Proof. unfold modify. now intros [= <-]. Qed.

Lemma i_assert_inv b s a s' : i_assert b s = Ret a s' -> b = true /\ s' = s.
Proof. unfold i_assert. destruct b; [now intros [= <-] | discriminate]. Qed.

Lemma deref_Some q f s : heap s !! q = Some f -> deref (Some q) s = Ret f s.
Proof. intros E. unfold deref. now rewrite E. Qed.

Lemma deref_inv p f s s' :
  deref p s = Ret f s' -> s' = s /\ exists q, p = Some q /\ heap s !! q = Some f.
Proof.
  unfold deref. destruct p as [q|]; [|discriminate].
  destruct (heap s !! q) eqn:E; [|discriminate].
  intros [= <- <-]. eauto.
Qed.

Lemma update_Some q g f s :
  heap s !! q = Some f ->
  update (Some q) g s = Ret tt (store q (g f) s).
Proof.
  intros E. unfold update. rewrite (bind_Ret _ _ _ _ _ (deref_Some _ _ _ E)).
  reflexivity.
Qed.

Lemma update_inv p g s a s' :
  update p g s = Ret a s' ->
  exists q f, p = Some q /\ heap s !! q = Some f /\ s' = store q (g f) s.
Proof.
  unfold update. intros H. apply bind_inv in H as (f & s1 & Hd & H).
  apply deref_inv in Hd as (-> & q & -> & Hq).
  apply modify_inv in H. eauto.
Qed.

(** Inversion of a run that returned, one construct at a time. *)
Ltac minv0 :=
  match goal with
  | H : bind _ _ _ = Ret _ _ |- _ =>
    let a := fresh "a" in let s := fresh "s" in let E := fresh "E" in
    apply bind_inv in H as (a & s & E & H)
  | H : ret _ _ = Ret _ _ |- _ => apply ret_inv in H as [? ?]; subst
  | H : get _ = Ret _ _ |- _ => apply get_inv in H as [? ?]; subst
  | H : modify _ _ = Ret _ _ |- _ => apply modify_inv in H; subst
  | H : modify_env _ _ = Ret _ _ |- _ => apply modify_inv in H; subst
  | H : i_assert _ _ = Ret _ _ |- _ => apply i_assert_inv in H as [? ?]; subst
  | H : deref _ _ = Ret _ _ |- _ =>
    let q := fresh "q" in let Hq := fresh "Hq" in
    apply deref_inv in H as (? & q & ? & Hq); subst
  | H : update _ _ _ = Ret _ _ |- _ =>
    let q := fresh "q" in let f := fresh "f" in let Hq := fresh "Hq" in
    apply update_inv in H as (q & f & ? & Hq & ?); subst
  | H : raise _ _ = Ret _ _ |- _ => discriminate H
  | H : Fault _ = Ret _ _ |- _ => discriminate H
  | H : Ret _ _ = Ret _ _ |- _ => injection H as ? ?; subst
  | H : (if ?b then _ else _) _ = Ret _ _ |- _ => destruct b eqn:?
  | H : (match ?x with _ => _ end) _ = Ret _ _ |- _ => destruct x eqn:?
  | H : Some _ = Some _ |- _ => injection H as ?; subst
  | H : Some _ = None |- _ => discriminate H
  | H : None = Some _ |- _ => discriminate H
  | H : inl _ = inl _ |- _ => injection H as ?; subst
  | H : inr _ = inr _ |- _ => injection H as ?; subst
  | H : inl _ = inr _ |- _ => discriminate H
  | H : inr _ = inl _ |- _ => discriminate H
  end.
(** The same, looking up what was just stored. *)
Ltac minv1 :=
  first
    [ minv0
    | match goal with
      | H : <[?k := ?v]> ?m !! ?k = Some _ |- _ =>
        rewrite (lookup_insert_eq m k v) in H; injection H as ?; subst
      | H : delete ?k ?m !! ?k = Some _ |- _ =>
        rewrite (lookup_delete_eq m k) in H; discriminate H
      | H1 : ?x = Some ?a, H2 : ?x = Some ?b |- _ =>
        rewrite H1 in H2; injection H2 as ?; subst
      end ].
Ltac minv := repeat minv1.

Lemma head_file_Some s h f :
  head s = Some h -> heap s !! h = Some f -> head_file s = Some f.
Proof. intros Hh Hf. unfold head_file. now rewrite Hh. Qed.

Lemma head_file_inv s f :
  head_file s = Some f -> exists h, head s = Some h /\ heap s !! h = Some f.
Proof. unfold head_file. destruct (head s) as [h|]; [eauto | discriminate]. Qed.

(** ** The configuration filter *)

Module ConfigFilterFacts.
Import ConfigFilter.

(** C10: whenever [sup->local_name] is non-null and [filter->local_name] is
    null, [config_filter_is_superset] answers false, whatever the bits and
    the service names are. *)
Theorem superset_false_on_missing_local_name (sup filter : config_filter) :
  local_name sup <> None -> local_name filter = None ->
  fst (config_filter_is_superset sup filter) = false.
Proof.
  intros Hs Hf. unfold config_filter_is_superset.
  destruct (local_bits filter <? local_bits sup); [reflexivity|].
  destruct (remote_bits filter <? remote_bits sup); [reflexivity|].
  rewrite Hf. destruct (local_name sup); [reflexivity | congruence].
Qed.

Lemma superset_false_on_missing_local_name_witness :
  fst (config_filter_is_superset
         (Filter (Some "imap") (Some "mail.example.org") 0 0)
         (Filter (Some "imap") None 24 0)) = false.
Proof.
  apply superset_false_on_missing_local_name; simpl; [discriminate | reflexivity].
Defined.

(** On that branch the name is handed to [i_warning] once the two
    comparisons of the bits have let the call through. *)
Lemma superset_warns_with_the_name sup filter n :
  local_bits sup <= local_bits filter -> remote_bits sup <= remote_bits filter ->
  local_name sup = Some n -> local_name filter = None ->
  config_filter_is_superset sup filter = (false, [n]).
Proof.
  intros Hl Hr Hs Hf. unfold config_filter_is_superset.
  destruct (Z.ltb_spec (local_bits filter) (local_bits sup)); [lia|].
  destruct (Z.ltb_spec (remote_bits filter) (remote_bits sup)); [lia|].
  now rewrite Hs, Hf.
Qed.

End ConfigFilterFacts.

(** ** The mailbox watermark *)

Lemma set_mailbox_sync_pos_run s h q seq x :
  head s = Some q -> heap s !! q = Some h ->
  seq = file_seq (hdr h) -> mailbox_sync_saved_offset h <= x ->
  mail_transaction_log_set_mailbox_sync_pos seq x s =
    Ret tt (if mailbox_sync_max_offset h <=? x
            then store q (set_mailbox_sync_max_offset x h) s
            else s).
Proof.
  intros Hq Hh -> Hx. unfold mail_transaction_log_set_mailbox_sync_pos.
  unfold bind at 1. unfold get. rewrite Hq.
  rewrite (bind_Ret _ _ _ _ _ (deref_Some _ _ _ Hh)).
  unfold i_assert. rewrite Z.eqb_refl.
  unfold bind at 1. unfold ret at 1.
  destruct (Z.leb_spec (mailbox_sync_saved_offset h) x); [|lia].
  unfold bind at 1. unfold ret at 1.
  destruct (mailbox_sync_max_offset h <=? x).
  - now apply update_Some.
  - reflexivity.
Qed.

(** C8 (as amended): under its preconditions the setter leaves the head with
    [mailbox_sync_max_offset] equal to the maximum of the old value and the
    offset, and touches nothing else; a second call with a smaller offset
    changes nothing, so after both calls the watermark is the maximum of the
    initial value and [x], which is [x] when [x] is not below the initial
    value. *)
Theorem set_mailbox_sync_pos_monotonic s h seq x :
  head_file s = Some h ->
  seq = file_seq (hdr h) ->
  mailbox_sync_saved_offset h <= x ->
  exists s1,
    mail_transaction_log_set_mailbox_sync_pos seq x s = Ret tt s1 /\
    head s1 = head s /\
    head_file s1 =
      Some (set_mailbox_sync_max_offset (Z.max (mailbox_sync_max_offset h) x) h) /\
    (mailbox_sync_max_offset h <= x ->
     head_file s1 = Some (set_mailbox_sync_max_offset x h)) /\
    (forall y, mailbox_sync_saved_offset h <= y -> y < x ->
       mail_transaction_log_set_mailbox_sync_pos seq y s1 = Ret tt s1).
Proof.
  intros Hf Hseq Hx.
  destruct (head_file_inv _ _ Hf) as (q & Hq & Hh).
  rewrite (set_mailbox_sync_pos_run s h q seq x Hq Hh Hseq Hx).
  destruct (Z.leb_spec (mailbox_sync_max_offset h) x) as [Hle|Hgt].
  - eexists. split; [reflexivity|]. split; [reflexivity|].
    assert (Hnew : head_file (store q (set_mailbox_sync_max_offset x h) s)
             = Some (set_mailbox_sync_max_offset x h)).
    { unfold head_file. simpl. rewrite Hq. apply lookup_insert_eq. }
    split; [rewrite Z.max_r by lia; exact Hnew|].
    split; [intros _; exact Hnew|].
    intros y Hy Hyx.
    rewrite (set_mailbox_sync_pos_run _ (set_mailbox_sync_max_offset x h) q seq y);
      [ simpl; destruct (Z.leb_spec x y); [lia | reflexivity]
      | exact Hq | apply lookup_insert_eq | exact Hseq | exact Hy ].
  - exists s. split; [reflexivity|]. split; [reflexivity|].
    split.
    { rewrite Z.max_l by lia. rewrite Hf. f_equal. now destruct h. }
    split; [lia|].
    intros y Hy Hyx.
    rewrite (set_mailbox_sync_pos_run s h q seq y Hq Hh Hseq Hy).
    destruct (Z.leb_spec (mailbox_sync_max_offset h) y); [lia | reflexivity].
Qed.

Lemma set_mailbox_sync_pos_monotonic_witness :
  exists s1,
    mail_transaction_log_set_mailbox_sync_pos 1 5 Samples.watermark_state = Ret tt s1 /\
    head s1 = head Samples.watermark_state /\
    head_file s1 = head_file Samples.watermark_state.
Proof.
  destruct (set_mailbox_sync_pos_monotonic Samples.watermark_state
              (set_mailbox_sync_max_offset 10
                 (LogFile "/m/idx.log" (LogHeader 1 0 0 0) 1 7 24 0 3
                          None None 0 24 0 0 false 1)) 1 5)
    as (s1 & H1 & H2 & H3 & _); [reflexivity | reflexivity | simpl; lia |].
  exists s1. split; [exact H1|]. split; [exact H2|]. rewrite H3. reflexivity.
Defined.

(** The watermark stood at 10; setting 5 and then 3 leaves it at 10, not 5. *)
Lemma second_call_leaves_first_offset_fails :
  ~ second_call_leaves_first_offset Samples.watermark_state 1 5 3.
Proof.
  intros H.
  destruct (H _ eq_refl eq_refl) as (s1 & s2 & h2 & E1 & E2 & Hh & Hm);
    [simpl; lia | simpl; lia | lia |].
  vm_compute in E1. injection E1 as <-.
  vm_compute in E2. injection E2 as <-.
  vm_compute in Hh. injection Hh as <-.
  simpl in Hm. discriminate.
Qed.

(** ** Installing a head *)

Lemma set_head_Some s p f :
  head s <> Some p -> heap s !! p = Some f ->
  mail_transaction_log_set_head (Some p) s =
    Ret tt (with_head (Some p) (store p (set_refcount (refcount f + 1) f) s)).
Proof.
  intros Hne Hf. unfold mail_transaction_log_set_head.
  unfold bind at 1, get. rewrite bool_decide_eq_false_2 by exact Hne.
  unfold i_assert, negb. unfold bind at 1, ret at 1.
  rewrite (bind_Ret _ _ _ _ _ (update_Some _ _ _ _ Hf)). reflexivity.
Qed.


Lemma set_head_inv p s a s' :
  mail_transaction_log_set_head p s = Ret a s' ->
  exists q f, p = Some q /\ head s <> Some q /\ heap s !! q = Some f /\
    s' = with_head (Some q) (store q (set_refcount (refcount f + 1) f) s).
Proof.
  unfold mail_transaction_log_set_head. intros H. minv.
  exists q, f. repeat split; auto.
  match goal with
  | H : negb _ = true |- _ =>
    apply negb_true_iff, bool_decide_eq_false in H; exact H
  end.
Qed.

(** ** Symbolic runs *)

Ltac unfold_helpers H :=
  cbv beta iota zeta delta
    [mail_transaction_log_file_alloc link_superseded_head attach_disk_file
     mail_transaction_log_file_open next_header mail_transaction_log_file_create
     mail_transaction_log_file_alloc_in_memory mail_transaction_log_file_free
     mail_transaction_log_file_lock mail_transaction_log_file_unlock
     mail_transaction_log_file_map mail_transaction_log_file_read
     log_path free_open_file sys_munmap sys_close sys_fstat nfs_safe_stat
     mail_index_file_set_syscall_error set_log_locked modify_env] in H.

Ltac snorm :=
  cbn [heap next_ptr head files open_file index views env
       with_heap with_next_ptr with_head with_files with_open_file with_index
       with_views with_env store on_env alloc_state link_state free_state
       attach_state record_syscall_error with_log_locked pin_state unpin_state
       fs fdtab next_fd next_ino fs_dev hdr_size clock failing
       with_fs with_fdtab with_next_fd with_next_ino open_fd close_fd publish
       index_filepath index_in_memory log_locked syscall_errors] in *.

Ltac sinv := repeat (minv1; snorm).
Ltac sinv0 := repeat minv0.

(** Running a program forwards on a state that is known well enough. *)
Ltac unfold_all :=
  cbv beta iota zeta delta
    [mail_transaction_log_file_alloc link_superseded_head attach_disk_file
     mail_transaction_log_file_open next_header mail_transaction_log_file_create
     mail_transaction_log_file_alloc_in_memory mail_transaction_log_file_free
     mail_transaction_log_file_lock mail_transaction_log_file_unlock
     mail_transaction_log_file_map mail_transaction_log_file_read
     log_path free_open_file sys_munmap sys_close sys_fstat nfs_safe_stat
     mail_index_file_set_syscall_error set_log_locked modify_env
     bind ret get modify raise i_assert deref update].

Ltac frun1 :=
  first
    [ progress snorm
    | match goal with
      | |- context [ (<[?k := ?v]> ?m) !! ?k ] => rewrite (lookup_insert_eq m k v)
      | H : ?x = _ |- context [match ?x with _ => _ end] => rewrite H
      | H : ?x = _ |- context [if ?x then _ else _] => rewrite H
      end
    | progress cbv beta iota ].
Ltac frun := repeat frun1.

(** ** Creating the first file *)







(** ** Opening the log *)

Lemma fails_failing w w' c : failing w' = failing w -> fails w' c = fails w c.
Proof. unfold fails. now intros ->. Qed.

Lemma free_open_file_None s : open_file s = None -> free_open_file s = Ret tt s.
Proof. intros H. unfold free_open_file, bind, get. now rewrite H. Qed.

Lemma free_open_file_inv s a s0 :
  free_open_file s = Ret a s0 ->
  head s0 = head s /\ index s0 = index s /\ next_ptr s0 = next_ptr s /\
  open_file s0 = None /\ fs (env s0) = fs (env s) /\
  failing (env s0) = failing (env s) /\ next_fd (env s0) = next_fd (env s) /\
  hdr_size (env s0) = hdr_size (env s) /\
  (open_file s = None -> s0 = s) /\
  (forall q, open_file s = Some q -> heap s0 = delete q (heap s)).
Proof.
  intros H. unfold free_open_file in H. unfold_helpers H. sinv.
  - repeat split; auto; try (destruct (FILE_IN_MEMORY a1); reflexivity).
    + intros; discriminate.
    + now intros ? [= ->].
  - repeat split; auto. intros; discriminate.
Qed.

Lemma open_in_memory s s0 :
  free_open_file s = Ret tt s0 -> index_in_memory (index s) = true ->
  mail_transaction_log_open s = Ret 0 s0.
Proof.
  intros Hfree Hmem. unfold mail_transaction_log_open.
  rewrite (bind_Ret _ _ _ _ _ Hfree).
  destruct (free_open_file_inv _ _ _ Hfree) as (_ & Hi & _).
  unfold bind at 1, get. now rewrite Hi, Hmem.
Qed.

Lemma open_on_disk s s0 :
  free_open_file s = Ret tt s0 -> index_in_memory (index s) = false ->
  fails (env s) SysOpen = false ->
  let path := index_filepath (index s) +:+ MAIL_TRANSACTION_LOG_SUFFIX in
  let p := next_ptr s in
  (fs (env s) !! path = None ->
   mail_transaction_log_open s =
     Ret 0 (with_open_file (Some p) (alloc_state path s0))) /\
  (forall d, fs (env s) !! path = Some d -> df_valid d = true ->
     head s <> Some p ->
     exists s', mail_transaction_log_open s = Ret 1 s' /\
       head s' = Some p /\ open_file s' = None /\
       heap s' !! p =
         Some (set_refcount 1 (load_disk_file d (env s0) (blank_file path)))).
Proof.
  intros Hfree Hdisk Hok path p.
  destruct (free_open_file_inv _ _ _ Hfree)
    as (Hh & Hi & Hn & Ho & Hfs & Hfl & _ & _ & _ & _).
  assert (Hok0 : fails (env s0) SysOpen = false)
    by (rewrite (fails_failing _ _ _ Hfl); exact Hok).
  assert (Hrun : forall k : Z -> option nat -> M Z,
            bind (mail_transaction_log_file_open (Some p) false)
                 (fun r => k r (Some p)) (alloc_state path s0) =
            match fs (env s) !! path with
            | None => k 0 (Some p) (alloc_state path s0)
            | Some d =>
              if negb (df_valid d) then k 0 (Some p) (alloc_state path s0)
              else k 1 (Some p)
                     (link_state
                        (on_env (open_fd d)
                           (store p (load_disk_file d (env s0) (blank_file path))
                              (alloc_state path s0))))
            end).
  { intros k. unfold mail_transaction_log_file_open.
    cbv [bind deref get ret]. snorm. subst p. rewrite <- Hn.
    rewrite (lookup_insert_eq (heap s0)). snorm. rewrite Hok0, Hfs.
    change (filepath (blank_file path)) with path.
    destruct (fs (env s) !! path) as [d|]; [|reflexivity].
    destruct (df_valid d); [|reflexivity]. cbn [negb].
    cbv [attach_disk_file link_superseded_head bind get update deref modify
         modify_env ret]. snorm.
    rewrite (lookup_insert_eq (heap s0)). reflexivity. }
  set (K := fun (r : Z) (file : option nat) =>
              if r <=? 0
              then bind (modify (with_open_file file)) (fun _ => ret r)
              else bind (mail_transaction_log_set_head file) (fun _ => ret 1)).
  assert (Hopen : mail_transaction_log_open s =
            bind (mail_transaction_log_file_open (Some p) false)
                 (fun r => K r (Some p)) (alloc_state path s0)).
  { unfold mail_transaction_log_open. rewrite (bind_Ret _ _ _ _ _ Hfree).
    unfold bind at 1, get. rewrite Hi, Hdisk.
    unfold bind at 1, log_path, bind at 1, get, ret. rewrite Hi. fold path.
    unfold bind at 1, mail_transaction_log_file_alloc.
    unfold bind at 1, get, bind at 1, modify, ret. rewrite Hn. reflexivity. }
  rewrite Hopen, Hrun. subst K. split.
  - intros ->. reflexivity.
  - intros d -> Hv Hne. rewrite Hv. cbn [negb Z.leb Z.compare].
    set (s2 := link_state _).
    assert (Hl : heap s2 !! p =
                 Some (load_disk_file d (env s0) (blank_file path))).
    { subst s2. snorm. apply lookup_insert_eq. }
    assert (Hh2 : head s2 <> Some p) by (subst s2; snorm; now rewrite Hh).
    unfold bind. rewrite (set_head_Some _ _ _ Hh2 Hl).
    eexists. split; [reflexivity|]. snorm.
    split; [reflexivity|]. split.
    + subst s2. snorm. exact Ho.
    + rewrite (lookup_insert_eq (heap s2)). reflexivity.
Qed.

(** C7 (as amended): with [s0] the state once a leftover [open_file] has
    been freed (which is [s] itself when there is none), [open] on an
    in-memory index returns 0 in [s0]: the head is untouched and
    [open_file] is [NULL] afterwards, the leftover having been destroyed;
    on a disk-backed index it returns 0 when the canonical path does not
    exist, keeping the file it allocated in [open_file], and 1 when the path
    holds a valid log, with the allocated file as head, referenced once. *)
Theorem open_outcomes s s0 :
  free_open_file s = Ret tt s0 ->
  let path := index_filepath (index s) +:+ MAIL_TRANSACTION_LOG_SUFFIX in
  let p := next_ptr s in
  (head s0 = head s /\ open_file s0 = None /\
   (open_file s = None -> s0 = s) /\
   (forall q, open_file s = Some q -> heap s0 !! q = None)) /\
  (index_in_memory (index s) = true ->
   mail_transaction_log_open s = Ret 0 s0) /\
  (index_in_memory (index s) = false -> fails (env s) SysOpen = false ->
   fs (env s) !! path = None ->
   exists s', mail_transaction_log_open s = Ret 0 s' /\
     open_file s' = Some p /\ heap s' !! p = Some (blank_file path) /\
     head s' = head s) /\
  (index_in_memory (index s) = false -> fails (env s) SysOpen = false ->
   forall d, fs (env s) !! path = Some d -> df_valid d = true ->
     head s <> Some p ->
     exists s', mail_transaction_log_open s = Ret 1 s' /\
       head s' = Some p /\ open_file s' = None /\
       heap s' !! p =
         Some (set_refcount 1 (load_disk_file d (env s0) (blank_file path)))).
Proof.
  intros Hfree path p.
  destruct (free_open_file_inv _ _ _ Hfree)
    as (Hh & Hi & Hn & Ho & _ & _ & _ & _ & Hsame & Hgone).
  split; [|split; [|split]].
  - repeat split; auto. intros q Hq. rewrite (Hgone q Hq).
    apply lookup_delete_eq.
  - now apply open_in_memory.
  - intros Hdisk Hok Hnone.
    destruct (open_on_disk s s0 Hfree Hdisk Hok) as [H0 _].
    rewrite (H0 Hnone). eexists. split; [reflexivity|]. snorm.
    split; [reflexivity|]. split; [|exact Hh].
    subst p. rewrite <- Hn. apply lookup_insert_eq.
  - intros Hdisk Hok d Hd Hv Hne.
    destruct (open_on_disk s s0 Hfree Hdisk Hok) as [_ H1]. eauto.
Qed.

Lemma open_outcomes_witness :
  exists s', mail_transaction_log_open
               (mail_transaction_log_alloc Samples.disk_index Samples.quiet_world)
             = Ret 0 s' /\
             open_file s' = Some 0%nat /\ head s' = None.
Proof.
  pose proof (open_outcomes
                (mail_transaction_log_alloc Samples.disk_index Samples.quiet_world)
                (mail_transaction_log_alloc Samples.disk_index Samples.quiet_world)
                eq_refl) as (_ & _ & H & _).
  destruct (H eq_refl eq_refl eq_refl) as (s' & Hs & Ho & _ & Hh).
  exists s'. auto.
Defined.

(** The log whose first [open] found no file, its index moved to memory
    since: [open] returns 0 but the kept attempt is freed and [open_file]
    ends up [NULL]. *)
Lemma open_in_memory_touches_nothing_fails :
  ~ open_in_memory_touches_nothing Samples.leftover_open_in_memory.
Proof.
  intros H. destruct (H eq_refl) as (s' & Hs & Ho & _).
  vm_compute in Hs. injection Hs as <-.
  vm_compute in Ho. discriminate.
Qed.

(** ** Moving the log to memory *)

Lemma move_to_memory_noop s :
  match head_file s with
  | Some f => FILE_IN_MEMORY f = true
  | None => head s = None
  end ->
  mail_transaction_log_move_to_memory s = Ret 0 s.
Proof.
  unfold head_file, mail_transaction_log_move_to_memory. intros H. unfold_all.
  destruct (head s) as [h|] eqn:Hh; [|reflexivity].
  destruct (heap s !! h) as [f|]; [|discriminate]. now rewrite H.
Qed.

Lemma move_to_memory_returns s h f d :
  head s = Some h -> heap s !! h = Some f -> FILE_IN_MEMORY f = false ->
  fails (env s) SysRead = false -> fdtab (env s) !! fd f = Some d ->
  exists r s', mail_transaction_log_move_to_memory s = Ret r s'.
Proof.
  intros Hh Hf Hm Hr Hd. unfold mail_transaction_log_move_to_memory.
  unfold_all. frun.
  destruct (buffer f) eqn:Hb, (mmap_base f) eqn:Hmm,
    (fails (env s) SysMunmap) eqn:Hmu, (fails (env s) SysClose) eqn:Hc; frun.
  all: change (fd ?x) with (fd f); frun.
  all: match goal with
       | |- context [if ?b then _ else _] => destruct b
       end; frun; eauto.
Qed.

Lemma move_to_memory_inv s h f d r s' :
  head s = Some h -> heap s !! h = Some f -> FILE_IN_MEMORY f = false ->
  fails (env s) SysRead = false -> fdtab (env s) !! fd f = Some d ->
  mail_transaction_log_move_to_memory s = Ret r s' ->
  head s' = Some h /\ files s' = files s /\
  (forall q, q <> h -> heap s' !! q = heap s !! q) /\
  exists f', heap s' !! h = Some f' /\
    hdr f' = hdr f /\ refcount f' = refcount f /\ locked f' = locked f /\
    mmap_base f' = None /\ buffer f' = Some (df_data d) /\ buffer_offset f' = 0 /\
    ((df_data d = [] /\ r = -1 /\ fd f' = fd f) \/
     (df_data d <> [] /\ r = 0 /\ fd f' = -1 /\
      (fails (env s) SysClose = false -> fdtab (env s') !! fd f = None))).
Proof.
  intros Hh Hf Hm Hr Hd H. unfold mail_transaction_log_move_to_memory in H.
  unfold_helpers H.
  apply bind_inv in H as (a & s0 & E & H). apply get_inv in E as [-> ->].
  rewrite Hh in H.
  apply bind_inv in H as (a & s0 & E & H).
  apply deref_inv in E as (-> & q & [= <-] & Hq).
  rewrite Hf in Hq. injection Hq as <-. rewrite Hm in H.
  sinv.
  all: cbn [fd set_fd set_buffer set_buffer_offset set_mmap_base
            set_sync_offset] in *.
  all: try congruence.
  all: repeat match goal with
       | H1 : ?x = Some ?a, H2 : ?x = Some ?b |- _ =>
         rewrite H1 in H2; injection H2 as ?; subst
       end.
  all: (split; [exact Hh|]); (split; [reflexivity|]);
       (split; [intros q' Hne; now rewrite ?lookup_insert_ne by congruence|]).
  all: eexists; (split; [apply lookup_insert_eq|]).
  all: cbn [hdr refcount locked mmap_base buffer buffer_offset fd
            set_fd set_buffer set_buffer_offset set_mmap_base set_sync_offset
            drop Z.to_nat].
  all: repeat (split; [first [reflexivity | assumption]|]).
  all: match goal with
       | H : (Z.of_nat (length (drop _ (df_data ?d))) <=? 0) = _ |- _ =>
         cbn [drop Z.to_nat] in H; destruct (df_data d) eqn:Hdata;
         cbn [length] in H
       end.
  all: try (left; repeat split; reflexivity).
  all: try (exfalso; apply Z.leb_le in Heqb; lia).
  all: try discriminate.
  all: right; (split; [discriminate|]); (split; [reflexivity|]);
       (split; [reflexivity|]); intros Hc; try congruence.
  all: apply lookup_delete_eq.
Qed.

Lemma file_byte_of_buffer f data off :
  mmap_base f = None -> buffer f = Some data -> buffer_offset f = 0 ->
  0 <= off -> file_byte f off = data !! Z.to_nat off.
Proof.
  intros Hm Hb Ho Hoff. unfold file_byte. rewrite Hb, Ho.
  destruct (Z.leb_spec 0 off); [|lia]. now rewrite Z.sub_0_r.
Qed.

(** C6 (as amended): [move_to_memory] converts the head, and only the head.
    When the head is on disk and its contents can be read, the call returns
    0; the head keeps its identity and its header (so its [file_seq]), its
    mapping is gone, its descriptor is closed and [fd] is -1; its buffer
    holds the whole file from offset 0, so that every byte that could be
    read before the call is read again; the chain and every other file are
    as they were. *)
Theorem move_to_memory_moves_the_head s h f d :
  head s = Some h -> heap s !! h = Some f -> fd f <> -1 ->
  fails (env s) SysRead = false -> fdtab (env s) !! fd f = Some d ->
  df_data d <> [] ->
  exists s' f',
    mail_transaction_log_move_to_memory s = Ret 0 s' /\
    head s' = Some h /\ files s' = files s /\ heap s' !! h = Some f' /\
    fd f' = -1 /\ mmap_base f' = None /\ hdr f' = hdr f /\
    (fails (env s) SysClose = false -> fdtab (env s') !! fd f = None) /\
    (forall q, q <> h -> heap s' !! q = heap s !! q) /\
    (forall off, 0 <= off -> file_byte f' off = df_data d !! Z.to_nat off) /\
    (forall off b,
       (forall o c, file_byte f o = Some c ->
                    0 <= o /\ df_data d !! Z.to_nat o = Some c) ->
       file_byte f off = Some b -> file_byte f' off = Some b).
Proof.
  intros Hh Hf Hfd Hr Hd Hne.
  assert (Hm : FILE_IN_MEMORY f = false)
    by (unfold FILE_IN_MEMORY; now apply Z.eqb_neq).
  destruct (move_to_memory_returns s h f d Hh Hf Hm Hr Hd) as (r & s' & Hrun).
  destruct (move_to_memory_inv s h f d r s' Hh Hf Hm Hr Hd Hrun)
    as (Hh' & Hfl & Hother & f' & Hf' & Hhdr & _ & _ & Hmm & Hb & Ho & Hcase).
  destruct Hcase as [(Hnil & _)|(_ & -> & Hfd' & Hclosed)]; [contradiction|].
  exists s', f'. repeat split; auto.
  - intros off Hoff. now apply file_byte_of_buffer.
  - intros off b Hcons Hbyte. destruct (Hcons off b Hbyte) as [Hoff Hdisk].
    rewrite (file_byte_of_buffer f' (df_data d) off); auto.
Qed.

Lemma move_to_memory_moves_the_head_witness :
  exists s' f',
    mail_transaction_log_move_to_memory Samples.two_generations = Ret 0 s' /\
    heap s' !! 1%nat = Some f' /\ fd f' = -1 /\
    file_seq (hdr f') = 2 /\
    heap s' !! 0%nat = heap Samples.two_generations !! 0%nat.
Proof.
  destruct (move_to_memory_moves_the_head Samples.two_generations 1%nat
              (Samples.disk_log_file 2 8 4 false 1) Samples.new_disk_file)
    as (s' & f' & Hrun & _ & _ & Hf' & Hfd & _ & Hhdr & _ & Hother & _);
    [reflexivity | reflexivity | discriminate | reflexivity | reflexivity
    | discriminate |].
  exists s', f'. repeat split; auto.
  now rewrite Hhdr.
Defined.

Lemma two_generations_after_move :
  exists s', mail_transaction_log_move_to_memory Samples.two_generations = Ret 0 s' /\
             heap s' !! 0%nat = Some (Samples.disk_log_file 1 7 3 false 1).
Proof.
  eexists. split; [vm_compute; reflexivity|]. vm_compute. reflexivity.
Qed.

(** With two generations on disk the call converts the head and returns;
    the older file of the chain still has its descriptor, 3. *)
Lemma moves_every_file_to_memory_fails :
  ~ moves_every_file_to_memory Samples.two_generations.
Proof.
  intros H. destruct two_generations_after_move as (s' & Hrun & Hold).
  specialize (H 0 s' Hrun 0%nat (Samples.disk_log_file 1 7 3 false 1)).
  assert (Hfd : fd (Samples.disk_log_file 1 7 3 false 1) = -1).
  { apply H; [|exact Hold]. right. apply list_elem_of_In. now left. }
  discriminate Hfd.
Qed.

(** ** The sweep *)

Lemma file_free_inv q s a s' :
  mail_transaction_log_file_free (Some q) s = Ret a s' ->
  exists f, heap s !! q = Some f /\
    s' = on_env (if FILE_IN_MEMORY f then (fun w => w) else close_fd (fd f))
                (free_state q s).
Proof.
  intros H. unfold mail_transaction_log_file_free in H. unfold_helpers H. sinv.
  eauto.
Qed.

Lemma clean_chain_swept l : forall s a s',
  clean_chain l s = Ret a s' -> swept l s s'.
Proof.
  induction l as [|q l IH]; intros s a s' H; cbn [clean_chain] in H.
  { apply ret_inv in H as [_ ->].
    constructor; auto.
    - intros q Hq. now apply not_elem_of_nil in Hq.
    - intros q. split; [intros Hq; split; [auto|]|tauto].
      intros [Hq' _]. now apply not_elem_of_nil in Hq'.
    - intros q Hq. now apply not_elem_of_nil in Hq. }
  apply bind_inv in H as (f & s0 & E & H).
  apply deref_inv in E as (-> & q' & [= <-] & Hf).
  apply bind_inv in H as ([] & s0 & E & H).
  apply i_assert_inv in E as [Hrc ->]. apply Z.leb_le in Hrc.
  apply bind_inv in H as ([] & s1 & E & H).
  destruct (Z.eqb_spec (refcount f) 0) as [Hz|Hnz].
  - apply file_free_inv in E as (f' & Hf' & ->).
    rewrite Hf in Hf'. injection Hf' as <-.
    specialize (IH _ _ _ H).
    set (c := if FILE_IN_MEMORY f then _ else _) in *.
    assert (Hun : forall x, unreferenced (on_env c (free_state q s)) x <->
                            unreferenced s x /\ x <> q).
    { intros x. unfold unreferenced. snorm. split.
      - intros (g & Hg & Hr). apply lookup_delete_Some in Hg as [Hne Hg].
        split; [eauto | congruence].
      - intros [(g & Hg & Hr) Hne]. exists g. split; [|auto].
        apply lookup_delete_Some. auto. }
    constructor; try (apply IH).
    + rewrite (swept_fs _ _ _ IH). subst c. now destruct (FILE_IN_MEMORY f).
    + rewrite (swept_failing _ _ _ IH). subst c. now destruct (FILE_IN_MEMORY f).
    + rewrite (swept_next_fd _ _ _ IH). subst c. now destruct (FILE_IN_MEMORY f).
    + rewrite (swept_next_ino _ _ _ IH). subst c. now destruct (FILE_IN_MEMORY f).
    + rewrite (swept_hdr_size _ _ _ IH). subst c. now destruct (FILE_IN_MEMORY f).
    + rewrite (swept_clock _ _ _ IH). subst c. now destruct (FILE_IN_MEMORY f).
    + rewrite (swept_fs_dev _ _ _ IH). subst c. now destruct (FILE_IN_MEMORY f).
    + intros k d Hk. apply (swept_fdtab _ _ _ IH) in Hk. revert Hk. subst c.
      destruct (FILE_IN_MEMORY f); snorm; [auto|].
      intros Hk. now apply lookup_delete_Some in Hk.
    + intros x Hx Hux. apply elem_of_cons in Hx.
      destruct (decide (x = q)) as [->|Hne].
      * rewrite (swept_kept _ _ _ IH); [snorm; apply lookup_delete_eq|].
        intros [_ Hu]. apply Hun in Hu. tauto.
      * apply (swept_gone _ _ _ IH); [tauto|]. apply Hun. tauto.
    + intros x Hx. rewrite (swept_kept _ _ _ IH).
      * snorm. apply lookup_delete_ne. intros ->. apply Hx.
        split; [apply elem_of_cons; auto|]. exists f. auto.
      * intros [Hl Hu]. apply Hun in Hu. apply Hx. split; [|tauto].
        apply elem_of_cons. auto.
    + intros x. rewrite (swept_files _ _ _ IH). snorm.
      rewrite list_elem_of_filter, Hun, elem_of_cons. split.
      * intros [[Hne Hx] Hn]. split; [exact Hx|].
        intros [[Heq|Hl] Hu]; [contradiction|]. apply Hn. auto.
      * intros [Hx Hn]. assert (x <> q).
        { intros ->. apply Hn. split; [auto|]. exists f. auto. }
        split; [auto|]. intros (Hl & Hu & _). apply Hn. auto.
    + intros x Hx. apply elem_of_cons in Hx as [->|Hx]; [eauto|].
      destruct (swept_alloc _ _ _ IH x Hx) as (g & Hg & Hr). snorm.
      apply lookup_delete_Some in Hg as [_ Hg]. eauto.
  - apply ret_inv in E as [_ ->].
    specialize (IH _ _ _ H).
    constructor; try (apply IH).
    + intros x Hx Hux. apply elem_of_cons in Hx as [->|Hx].
      * destruct Hux as (g & Hg & Hr). congruence.
      * now apply (swept_gone _ _ _ IH).
    + intros x Hx. apply (swept_kept _ _ _ IH). intros [Hl Hu]. apply Hx.
      split; [apply elem_of_cons; auto | auto].
    + intros x. rewrite (swept_files _ _ _ IH). rewrite elem_of_cons.
      split; intros [Hx Hn]; (split; [auto|]).
      * intros [[->|Hl] Hu]; [|tauto].
        destruct Hu as (g & Hg & Hr). congruence.
      * intros [Hl Hu]. apply Hn. auto.
    + intros x Hx. apply elem_of_cons in Hx as [->|Hx]; [eauto|].
      apply (swept_alloc _ _ _ IH x Hx).
Qed.

(** ** The file layer, inverted *)

Lemma file_alloc_run path s :
  mail_transaction_log_file_alloc path s =
    Ret (Some (next_ptr s)) (alloc_state path s).
Proof. reflexivity. Qed.

Lemma file_open_inv p ce s r s' :
  mail_transaction_log_file_open (Some p) ce s = Ret r s' ->
  exists f, heap s !! p = Some f /\
    ((r = 0 /\ s' = s) \/
     (r = -1 /\ fails (env s) SysOpen = true /\
      s' = record_syscall_error (filepath f) "open()" s) \/
     (r = 1 /\ exists d, fs (env s) !! filepath f = Some d /\ df_valid d = true /\
        s' = (if ce then attach_state p d f s
              else link_state (attach_state p d f s)))).
Proof.
  intros H. unfold mail_transaction_log_file_open in H. unfold_helpers H. sinv.
  all: eexists; (split; [eassumption|]).
  all: try (left; split; reflexivity).
  all: try (right; left; repeat split; first [assumption|reflexivity]).
  all: right; right; (split; [reflexivity|]); eexists; (split; [eassumption|]).
  all: split; [now apply negb_false_iff | reflexivity].
Qed.

Lemma next_header_inv s h s' :
  next_header s = Ret h s' ->
  s' = s /\ h = successor_header s (head_file s) /\
  (head s = None \/ is_Some (head_file s)).
Proof.
  intros H. unfold next_header in H. unfold head_file. sinv.
  - rewrite Hq. cbn. eauto.
  - auto.
Qed.

Lemma file_create_inv p s r s' :
  mail_transaction_log_file_create (Some p) s = Ret r s' ->
  exists f, heap s !! p = Some f /\
    ((r = -1 /\
      ((fails (env s) SysCreate = false /\ s' = s) \/
       (fails (env s) SysCreate = true /\
        s' = record_syscall_error (filepath f) "creat()" s))) \/
     (r = 0 /\
      ((exists d, fs (env s) !! filepath f = Some d /\ df_valid d = true /\
          ((df_ino d =? st_ino f) && (df_dev d =? st_dev f)) = false /\
          s' = link_state (attach_state p d f s)) \/
       (let d := fresh_disk_file (env s) (successor_header s (head_file s)) in
        (head s = None \/ is_Some (head_file s)) /\
        s' = link_state (attach_state p d f
                           (on_env (publish (filepath f) d) s)))))).
Proof.
  intros H. unfold mail_transaction_log_file_create in H.
  cbv beta iota zeta delta
    [link_superseded_head attach_disk_file modify_env
     mail_index_file_set_syscall_error] in H.
  sinv.
  all: repeat match goal with
       | H : next_header _ = Ret _ _ |- _ =>
         apply next_header_inv in H as (-> & -> & ?)
       end; sinv.
  all: eexists; (split; [eassumption|]).
  all: try (left; split; [reflexivity|]; right; split; reflexivity).
  all: try (left; split; [reflexivity|]; left; split; reflexivity).
  all: right; (split; [reflexivity|]).
  all: try (right; split; [assumption | reflexivity]).
  all: left; eexists; repeat split; eauto.
Qed.


(** ** The chain invariant, step by step *)

Lemma inv_transfer s s' :
  log_inv s ->
  (next_ptr s <= next_ptr s')%nat ->
  head s' = head s ->
  open_file s' = open_file s \/ open_file s' = None ->
  (forall q f, heap s' !! q = Some f -> (q < next_ptr s')%nat) ->
  (forall q, q ∈ files s' -> q ∈ files s) ->
  (forall q f', q ∈ files s' \/ head s' = Some q -> heap s' !! q = Some f' ->
     exists f, heap s !! q = Some f /\ hdr f' = hdr f) ->
  (forall h, head s = Some h -> is_Some (heap s' !! h)) ->
  (forall q, q ∈ files s' -> is_Some (heap s' !! q)) ->
  log_inv s'.
Proof.
  intros I Hn Hh Ho Hheap Hfiles Hhdr Hha Hfa.
  constructor.
  - constructor; auto.
    + intros q Hq. rewrite Hh in Hq. apply (wf_head _ (inv_ptrs _ I)) in Hq. lia.
    + intros q Hq. apply Hfiles in Hq.
      apply (wf_files _ (inv_ptrs _ I)) in Hq. lia.
    + intros q Hq. destruct Ho as [Ho|Ho]; rewrite Ho in Hq; [|discriminate].
      apply (wf_open_file _ (inv_ptrs _ I)) in Hq. lia.
  - intros h Hq. rewrite Hh in Hq. auto.
  - auto.
  - intros Hnone. rewrite Hh in Hnone. apply (inv_no_head _ I) in Hnone.
    destruct (files s') as [|q l]; [reflexivity|].
    assert (Hq : q ∈ files s) by (apply Hfiles; left).
    rewrite Hnone in Hq. now apply not_elem_of_nil in Hq.
  - intros h Hq Hin. rewrite Hh in Hq.
    apply (inv_head_off_chain _ I h Hq). auto.
  - intros q Hq. destruct Ho as [Ho|Ho]; rewrite Ho in Hq; [|discriminate].
    destruct (inv_open_file_off _ I q Hq) as [Hne Hnf].
    rewrite Hh. split; [exact Hne|]. intros Hin. apply Hnf. auto.
  - intros h fh q fq Hq Hfh Hin Hfq.
    destruct (Hhdr h fh (or_intror Hq) Hfh) as (fh0 & Hfh0 & ->).
    destruct (Hhdr q fq (or_introl Hin) Hfq) as (fq0 & Hfq0 & ->).
    rewrite Hh in Hq. eapply (inv_older _ I); eauto.
Qed.

Lemma inv_store s q f f' :
  log_inv s -> heap s !! q = Some f -> hdr f' = hdr f -> log_inv (store q f' s).
Proof.
  intros I Hq Hhdr.
  assert (Hlook : forall x g, heap (store q f' s) !! x = Some g ->
            exists g0, heap s !! x = Some g0 /\ hdr g = hdr g0).
  { intros x g. snorm. rewrite lookup_insert. case_decide.
    - subst. intros [= <-]. eauto.
    - eauto. }
  apply (inv_transfer s); snorm; auto.
  - intros x g Hx. destruct (Hlook x g Hx) as (g0 & Hg0 & _).
    apply (wf_heap _ (inv_ptrs _ I) _ _ Hg0).
  - intros h Hh. rewrite lookup_insert. case_decide; [eauto|].
    apply (inv_head_alloc _ I _ Hh).
  - intros x Hx. rewrite lookup_insert. case_decide; [eauto|].
    apply (inv_files_alloc _ I _ Hx).
Qed.

(** A file that is neither the head nor on the chain may change at will. *)
Lemma inv_store_off s q f' :
  log_inv s -> (q < next_ptr s)%nat -> head s <> Some q -> q ∉ files s ->
  log_inv (store q f' s).
Proof.
  intros I Hq Hh Hf.
  apply (inv_transfer s); snorm; auto.
  - intros x g. rewrite lookup_insert. case_decide; [subst; auto|].
    apply (wf_heap _ (inv_ptrs _ I)).
  - intros x g Hx. rewrite lookup_insert. case_decide.
    + subst. destruct Hx; congruence.
    + eauto.
  - intros h Hhd. rewrite lookup_insert. case_decide; [eauto|].
    apply (inv_head_alloc _ I _ Hhd).
  - intros x Hx. rewrite lookup_insert. case_decide; [eauto|].
    apply (inv_files_alloc _ I _ Hx).
Qed.

Lemma inv_alloc s path : log_inv s -> log_inv (alloc_state path s).
Proof.
  intros I.
  assert (Hfresh : heap s !! next_ptr s = None).
  { destruct (heap s !! next_ptr s) eqn:E; [|reflexivity].
    apply (wf_heap _ (inv_ptrs _ I)) in E. lia. }
  apply (inv_transfer s); snorm; auto.
  - intros x g. rewrite lookup_insert. case_decide; [subst; lia|].
    intros Hx. apply (wf_heap _ (inv_ptrs _ I)) in Hx. lia.
  - intros x g Hx. rewrite lookup_insert. case_decide; [|eauto].
    subst. exfalso. destruct Hx as [Hx|Hx].
    + apply (wf_files _ (inv_ptrs _ I)) in Hx. lia.
    + apply (wf_head _ (inv_ptrs _ I)) in Hx. lia.
  - intros h Hhd. rewrite lookup_insert. case_decide; [eauto|].
    apply (inv_head_alloc _ I _ Hhd).
  - intros x Hx. rewrite lookup_insert. case_decide; [eauto|].
    apply (inv_files_alloc _ I _ Hx).
Qed.

Lemma inv_free s q :
  log_inv s -> head s <> Some q -> log_inv (free_state q s).
Proof.
  intros I Hh.
  apply (inv_transfer s); snorm; auto.
  - intros x g Hx. apply lookup_delete_Some in Hx as [_ Hx].
    apply (wf_heap _ (inv_ptrs _ I) _ _ Hx).
  - intros x Hx. apply list_elem_of_filter in Hx. tauto.
  - intros x g _ Hx. apply lookup_delete_Some in Hx as [_ Hx]. eauto.
  - intros h Hhd. rewrite lookup_delete_ne by congruence.
    apply (inv_head_alloc _ I _ Hhd).
  - intros x Hx. apply list_elem_of_filter in Hx as [Hne Hx].
    rewrite lookup_delete_ne by congruence.
    apply (inv_files_alloc _ I _ Hx).
Qed.

Lemma inv_on_env s g : log_inv s -> log_inv (on_env g s).
Proof.
  intros I. apply (inv_transfer s); snorm; eauto.
  - apply (wf_heap _ (inv_ptrs _ I)).
  - apply (inv_head_alloc _ I).
  - apply (inv_files_alloc _ I).
Qed.

Lemma inv_with_env s w : log_inv s -> log_inv (with_env w s).
Proof. intros I. apply (inv_on_env s (fun _ => w) I). Qed.

Lemma inv_with_index s i : log_inv s -> log_inv (with_index i s).
Proof.
  intros I. apply (inv_transfer s); snorm; eauto.
  - apply (wf_heap _ (inv_ptrs _ I)).
  - apply (inv_head_alloc _ I).
  - apply (inv_files_alloc _ I).
Qed.

Lemma inv_with_views s v : log_inv s -> log_inv (with_views v s).
Proof.
  intros I. apply (inv_transfer s); snorm; eauto.
  - apply (wf_heap _ (inv_ptrs _ I)).
  - apply (inv_head_alloc _ I).
  - apply (inv_files_alloc _ I).
Qed.

Lemma inv_no_open_file s : log_inv s -> log_inv (with_open_file None s).
Proof.
  intros I. apply (inv_transfer s); snorm; eauto.
  - apply (wf_heap _ (inv_ptrs _ I)).
  - apply (inv_head_alloc _ I).
  - apply (inv_files_alloc _ I).
Qed.

Lemma inv_with_open_file s q :
  log_inv s -> (q < next_ptr s)%nat -> head s <> Some q -> q ∉ files s ->
  log_inv (with_open_file (Some q) s).
Proof.
  intros I Hq Hh Hf. destruct I as [[W1 W2 W3 W4] I2 I3 I4 I5 I6 I7].
  constructor; snorm; auto.
  - constructor; snorm; auto. now intros ? [= <-].
  - now intros ? [= <-].
Qed.

Lemma unreferenced_dec s q : unreferenced s q \/ ~ unreferenced s q.
Proof.
  unfold unreferenced. destruct (heap s !! q) as [f|] eqn:E.
  - destruct (Z.eq_dec (refcount f) 0); [eauto|].
    right. intros (g & [= <-] & Hr). contradiction.
  - right. intros (g & Hg & _). discriminate.
Qed.

Lemma swept_sub l s s' q g :
  swept l s s' -> heap s' !! q = Some g -> heap s !! q = Some g.
Proof.
  intros W Hg.
  destruct (decide (q ∈ l)) as [Hl|Hl].
  - destruct (unreferenced_dec s q) as [Hu|Hu].
    + rewrite (swept_gone _ _ _ W q Hl Hu) in Hg. discriminate.
    + rewrite (swept_kept _ _ _ W q) in Hg; tauto.
  - rewrite (swept_kept _ _ _ W q) in Hg; tauto.
Qed.

(** A sweep over the chain leaves the head alone, for the head is not on
    the chain. *)
Lemma inv_swept s s' :
  log_inv s -> swept (files s) s s' -> log_inv s'.
Proof.
  intros I W.
  assert (Hkeep : forall q g, heap s' !! q = Some g -> heap s !! q = Some g)
    by (intros q g; apply (swept_sub _ _ _ _ _ W)).
  apply (inv_transfer s); auto.
  - rewrite (swept_next_ptr _ _ _ W). lia.
  - apply (swept_head _ _ _ W).
  - left. apply (swept_open_file _ _ _ W).
  - intros q g Hg. rewrite (swept_next_ptr _ _ _ W).
    apply (wf_heap _ (inv_ptrs _ I) _ _ (Hkeep _ _ Hg)).
  - intros q Hq. now apply (swept_files _ _ _ W) in Hq.
  - intros q g _ Hg. eauto.
  - intros h Hh. rewrite (swept_kept _ _ _ W).
    + apply (inv_head_alloc _ I _ Hh).
    + intros [Hl _]. now apply (inv_head_off_chain _ I h Hh).
  - intros q Hq. apply (swept_files _ _ _ W) in Hq as [Hq Hn].
    rewrite (swept_kept _ _ _ W q Hn). apply (inv_files_alloc _ I _ Hq).
Qed.


Ltac inv_step :=
  lazymatch goal with
  | |- log_inv (store _ _ _) =>
    match goal with
    | H : _ = Some ?f |- _ => eapply (inv_store _ _ f); [ | exact H | reflexivity ]
    end
  | |- log_inv (on_env _ _) => apply inv_on_env
  | |- log_inv (with_env _ _) => apply inv_with_env
  | |- log_inv (with_index _ _) => apply inv_with_index
  | |- log_inv (record_syscall_error _ _ _) => apply inv_with_index
  | |- log_inv (with_log_locked _ _) => apply inv_with_index
  | |- log_inv (with_views _ _) => apply inv_with_views
  | |- log_inv (pin_state _ _) => apply inv_with_views
  | |- log_inv (unpin_state _ _) => apply inv_with_views
  | |- log_inv (alloc_state _ _) => apply inv_alloc
  end.
Ltac inv_steps := repeat inv_step; try assumption.

Lemma set_mailbox_sync_pos_inv s seq off r s' :
  log_inv s ->
  mail_transaction_log_set_mailbox_sync_pos seq off s = Ret r s' -> log_inv s'.
Proof.
  intros I H. unfold mail_transaction_log_set_mailbox_sync_pos in H.
  sinv0; inv_steps.
Qed.

Lemma sync_unlock_inv s r s' :
  log_inv s -> mail_transaction_log_sync_unlock s = Ret r s' -> log_inv s'.
Proof.
  intros I H. unfold mail_transaction_log_sync_unlock in H.
  unfold_helpers H. sinv0; inv_steps.
Qed.

Lemma move_to_memory_keeps_inv s r s' :
  log_inv s -> mail_transaction_log_move_to_memory s = Ret r s' -> log_inv s'.
Proof.
  intros I H. unfold mail_transaction_log_move_to_memory in H.
  unfold_helpers H. sinv0; inv_steps.
Qed.

Lemma clean_keeps_inv s r s' :
  log_inv s -> mail_transaction_logs_clean s = Ret r s' -> log_inv s'.
Proof.
  intros I H. unfold mail_transaction_logs_clean in H.
  apply bind_inv in H as (a & s0 & E & H). apply get_inv in E as [-> ->].
  apply clean_chain_swept in H. now apply (inv_swept s).
Qed.

Lemma view_pin_inv s q r s' :
  log_inv s -> view_pin q s = Ret r s' -> log_inv s'.
Proof.
  intros I H. unfold view_pin in H. sinv0; inv_steps.
Qed.

Lemma view_unpin_inv s q r s' :
  log_inv s -> view_unpin q s = Ret r s' -> log_inv s'.
Proof.
  intros I H. unfold view_unpin in H. sinv0.
  - inv_steps.
  - eapply clean_keeps_inv; [|eassumption]. inv_steps.
Qed.

Lemma release_pins_inv l : forall s r s',
  log_inv s -> release_pins l s = Ret r s' ->
  log_inv s' /\ head s' = head s /\ open_file s' = open_file s /\
  files s' = files s /\ next_ptr s' = next_ptr s.
Proof.
  induction l as [|q l IH]; intros s r s' I H; cbn [release_pins] in H.
  - apply ret_inv in H as [_ ->]. auto.
  - apply bind_inv in H as ([] & s1 & E & H).
    apply update_inv in E as (q' & f & [= <-] & Hq & ->).
    apply IH in H; [exact H|]. inv_steps.
Qed.

Lemma free_open_file_keeps_inv s r s' :
  log_inv s -> free_open_file s = Ret r s' -> log_inv s'.
Proof.
  intros I H. unfold free_open_file in H. unfold_helpers H. sinv0.
  - apply inv_no_open_file. apply inv_on_env. apply inv_free; auto.
    now apply (inv_open_file_off _ I).
  - assumption.
Qed.

Lemma close_keeps_inv s r s' :
  log_inv s -> mail_transaction_log_close s = Ret r s' -> log_inv s'.
Proof.
  intros I H. unfold mail_transaction_log_close in H.
  unfold mail_transaction_log_views_close in H.
  apply bind_inv in H as ([] & s1 & E & H).
  apply bind_inv in E as (s0 & ? & E0 & E). apply get_inv in E0 as [-> ->].
  apply bind_inv in E as ([] & s2 & E & E1).
  apply release_pins_inv in E as (I2 & _); [|exact I].
  apply modify_inv in E1. subst s1.
  apply bind_inv in H as ([] & s3 & E & H).
  apply free_open_file_keeps_inv in E; [|inv_steps].
  apply bind_inv in H as (s0 & ? & E0 & H). apply get_inv in E0 as [-> ->].
  apply bind_inv in H as ([] & s4 & E1 & H).
  apply bind_inv in H as ([] & s5 & E2 & H).
  apply bind_inv in H as (s0 & ? & E0 & H). apply get_inv in E0 as [-> ->].
  apply i_assert_inv in H as [_ ->].
  eapply clean_keeps_inv; [|exact E2].
  destruct (head s3); sinv0; inv_steps.
Qed.


(** ** From a new file to a new head *)

Lemma pre_transfer p s s' :
  pre_inv p s ->
  next_ptr s' = next_ptr s ->
  head s' = head s ->
  open_file s' = open_file s \/ open_file s' = None ->
  (forall q f, heap s' !! q = Some f -> (q < next_ptr s')%nat) ->
  (forall q, q ∈ files s' -> q ∈ files s) ->
  (forall q f', q ∈ files s' \/ q = p -> heap s' !! q = Some f' ->
     exists f, heap s !! q = Some f /\ hdr f' = hdr f) ->
  is_Some (heap s' !! p) ->
  (forall q, q ∈ files s' -> is_Some (heap s' !! q)) ->
  pre_inv p s'.
Proof.
  intros [W [nf [Hnf Hold]] Hoff Hfa Hopen] Hn Hh Ho Hheap Hfiles Hhdr Hp Hfa'.
  constructor.
  - constructor; auto.
    + intros q Hq. rewrite Hh in Hq. rewrite Hn. now apply (wf_head _ W).
    + intros q Hq. rewrite Hn. apply (wf_files _ W). auto.
    + intros q Hq. rewrite Hn.
      destruct Ho as [Ho|Ho]; rewrite Ho in Hq; [|discriminate].
      now apply (wf_open_file _ W).
  - destruct Hp as [nf' Hnf']. exists nf'. split; [exact Hnf'|].
    destruct (Hhdr p nf' (or_intror eq_refl) Hnf') as (nf0 & Hnf0 & ->).
    rewrite Hnf in Hnf0. injection Hnf0 as <-.
    intros q fq Hq Hfq.
    destruct (Hhdr q fq (or_introl Hq) Hfq) as (fq0 & Hfq0 & ->).
    eapply Hold; eauto.
  - intros Hin. apply Hoff. auto.
  - auto.
  - intros q Hq. destruct Ho as [Ho|Ho]; rewrite Ho in Hq; [|discriminate].
    destruct (Hopen q Hq) as [Hne Hnf']. split; [exact Hne|].
    intros Hin. apply Hnf'. auto.
Qed.

Lemma pre_store p s q f f' :
  pre_inv p s -> heap s !! q = Some f -> hdr f' = hdr f ->
  pre_inv p (store q f' s).
Proof.
  intros P Hq Hhdr.
  assert (Hlook : forall x g, heap (store q f' s) !! x = Some g ->
            exists g0, heap s !! x = Some g0 /\ hdr g = hdr g0).
  { intros x g. snorm. rewrite lookup_insert. case_decide.
    - subst. intros [= <-]. eauto.
    - eauto. }
  apply (pre_transfer p s); snorm; auto.
  - intros x g Hx. destruct (Hlook x g Hx) as (g0 & Hg0 & _).
    apply (wf_heap _ (pre_ptrs _ _ P) _ _ Hg0).
  - rewrite lookup_insert. case_decide; [eauto|].
    destruct (pre_new _ _ P) as (nf & Hnf & _). eauto.
  - intros x Hx. rewrite lookup_insert. case_decide; [eauto|].
    apply (pre_files_alloc _ _ P _ Hx).
Qed.

Lemma pre_on_env p s g : pre_inv p s -> pre_inv p (on_env g s).
Proof.
  intros P. apply (pre_transfer p s); snorm; eauto.
  - apply (wf_heap _ (pre_ptrs _ _ P)).
  - destruct (pre_new _ _ P) as (nf & Hnf & _). eauto.
  - apply (pre_files_alloc _ _ P).
Qed.

Lemma pre_swept p s s' :
  pre_inv p s -> swept (files s) s s' -> pre_inv p s'.
Proof.
  intros P W.
  assert (Hkeep : forall q g, heap s' !! q = Some g -> heap s !! q = Some g)
    by (intros q g; apply (swept_sub _ _ _ _ _ W)).
  apply (pre_transfer p s); auto.
  - apply (swept_next_ptr _ _ _ W).
  - apply (swept_head _ _ _ W).
  - left. apply (swept_open_file _ _ _ W).
  - intros q g Hg. rewrite (swept_next_ptr _ _ _ W).
    apply (wf_heap _ (pre_ptrs _ _ P) _ _ (Hkeep _ _ Hg)).
  - intros q Hq. now apply (swept_files _ _ _ W) in Hq.
  - intros q g _ Hg. eauto.
  - rewrite (swept_kept _ _ _ W).
    + destruct (pre_new _ _ P) as (nf & Hnf & _). eauto.
    + intros [Hl _]. now apply (pre_off_chain _ _ P).
  - intros q Hq. apply (swept_files _ _ _ W) in Hq as [Hq Hn].
    rewrite (swept_kept _ _ _ W q Hn). apply (pre_files_alloc _ _ P _ Hq).
Qed.

(** The new file becomes the head: the chain invariant holds again. *)
Lemma pre_install p s : pre_inv p s -> log_inv (with_head (Some p) s).
Proof.
  intros [W [nf [Hnf Hold]] Hoff Hfa Hopen].
  constructor; snorm.
  - constructor; snorm; try apply W.
    intros q [= <-]. apply (wf_heap _ W _ _ Hnf).
  - intros h [= <-]. eauto.
  - auto.
  - discriminate.
  - now intros h [= <-].
  - intros q Hq. destruct (Hopen q Hq) as [Hne Hnf']. split; [congruence|auto].
  - intros h fh q fq [= <-] Hfh Hq Hfq. rewrite Hnf in Hfh.
    injection Hfh as <-. eauto.
Qed.

(** A file newer than the head has been produced at the next pointer, and
    the head has joined the chain at most. *)
Lemma pre_inv_intro s s1 h fh p nf :
  log_inv s -> head s = Some h -> heap s !! h = Some fh -> p = next_ptr s ->
  next_ptr s1 = S p -> head s1 = head s -> open_file s1 = open_file s ->
  (forall q, q ∈ files s1 -> q = h \/ q ∈ files s) ->
  heap s1 !! p = Some nf ->
  (forall q, q <> p -> heap s1 !! q = heap s !! q) ->
  file_seq (hdr fh) < file_seq (hdr nf) ->
  pre_inv p s1.
Proof.
  intros I Hh Hfh -> Hn Hh1 Ho Hfiles Hnf Hother Hseq.
  assert (Hlt : forall q, q = h \/ q ∈ files s -> (q < next_ptr s)%nat).
  { intros q [->|Hq].
    - now apply (wf_head _ (inv_ptrs _ I)).
    - now apply (wf_files _ (inv_ptrs _ I)). }
  constructor.
  - constructor.
    + intros q f Hq. rewrite Hn.
      destruct (decide (q = next_ptr s)) as [->|Hne]; [lia|].
      rewrite Hother in Hq by exact Hne.
      apply (wf_heap _ (inv_ptrs _ I)) in Hq. lia.
    + intros q Hq. rewrite Hh1 in Hq. rewrite Hn.
      apply (wf_head _ (inv_ptrs _ I)) in Hq. lia.
    + intros q Hq. rewrite Hn. apply Hfiles, Hlt in Hq. lia.
    + intros q Hq. rewrite Ho in Hq. rewrite Hn.
      apply (wf_open_file _ (inv_ptrs _ I)) in Hq. lia.
  - exists nf. split; [exact Hnf|]. intros q fq Hq Hfq.
    apply Hfiles in Hq.
    assert (Hne : q <> next_ptr s) by (apply Hlt in Hq; lia).
    rewrite Hother in Hfq by exact Hne.
    destruct Hq as [->|Hq].
    + rewrite Hfh in Hfq. injection Hfq as <-. exact Hseq.
    + pose proof (inv_older _ I h fh q fq Hh Hfh Hq Hfq). lia.
  - intros Hq. apply Hfiles, Hlt in Hq. lia.
  - intros q Hq. apply Hfiles in Hq.
    assert (Hne : q <> next_ptr s) by (apply Hlt in Hq; lia).
    rewrite Hother by exact Hne.
    destruct Hq as [->|Hq]; [eauto|]. apply (inv_files_alloc _ I _ Hq).
  - intros q Hq. rewrite Ho in Hq.
    destruct (inv_open_file_off _ I q Hq) as [Hne Hnf'].
    split.
    + apply (wf_open_file _ (inv_ptrs _ I)) in Hq. lia.
    + intros Hin. apply Hfiles in Hin as [->|Hin]; [congruence|auto].
Qed.

(** The first head of a log. *)
Lemma inv_first_head s p :
  log_inv s -> head s = None -> is_Some (heap s !! p) ->
  open_file s <> Some p -> log_inv (with_head (Some p) s).
Proof.
  intros I Hh [nf Hnf] Ho.
  pose proof (inv_no_head _ I Hh) as Hnil.
  apply pre_install. constructor.
  - apply I.
  - exists nf. split; [exact Hnf|]. intros q fq Hq. rewrite Hnil in Hq.
    now apply not_elem_of_nil in Hq.
  - rewrite Hnil. apply not_elem_of_nil.
  - apply (inv_files_alloc _ I).
  - intros q Hq. split; [congruence|]. rewrite Hnil. apply not_elem_of_nil.
Qed.

Lemma inv_link_no_head s : log_inv s -> head s = None -> log_inv (link_state s).
Proof.
  intros I Hh.
  assert (Hf : files (link_state s) = files s) by (snorm; now rewrite Hh).
  apply (inv_transfer s); snorm; auto.
  - apply (wf_heap _ (inv_ptrs _ I)).
  - fold (files (link_state s)). now rewrite Hf.
  - fold (files (link_state s)). eauto.
  - apply (inv_head_alloc _ I).
  - fold (files (link_state s)). rewrite Hf. apply (inv_files_alloc _ I).
Qed.


(** ** Opening and creating keep the invariant *)

Lemma fresh_ptr s :
  wf_ptrs s ->
  head s <> Some (next_ptr s) /\ (next_ptr s ∉ files s) /\
  heap s !! next_ptr s = None /\ open_file s <> Some (next_ptr s).
Proof.
  intros W. repeat split.
  - intros H. apply (wf_head _ W) in H. lia.
  - intros H. apply (wf_files _ W) in H. lia.
  - destruct (heap s !! next_ptr s) eqn:E; [|reflexivity].
    apply (wf_heap _ W) in E. lia.
  - intros H. apply (wf_open_file _ W) in H. lia.
Qed.

(** A blank file has just been allocated at [p] and is given contents. *)
Lemma inv_fill_fresh s path f' :
  log_inv s -> log_inv (store (next_ptr s) f' (alloc_state path s)).
Proof.
  intros I. destruct (fresh_ptr s (inv_ptrs _ I)) as (Hh & Hf & _ & _).
  apply inv_store_off; snorm; auto using inv_alloc.
Qed.

Lemma free_open_file_head s r s' :
  free_open_file s = Ret r s' -> head s' = head s.
Proof. intros H. now apply free_open_file_inv in H. Qed.

Lemma inv_record s path name :
  log_inv s -> log_inv (record_syscall_error path name s).
Proof. apply inv_with_index. Qed.

Lemma open_keeps_inv s r s' :
  log_inv s -> head s = None ->
  mail_transaction_log_open s = Ret r s' -> log_inv s'.
Proof.
  intros I Hnone H. unfold mail_transaction_log_open in H.
  apply bind_inv in H as ([] & s0 & E & H).
  pose proof (free_open_file_head _ _ _ E) as Hh0. rewrite Hnone in Hh0.
  apply free_open_file_keeps_inv in E; [|exact I].
  destruct (fresh_ptr s0 (inv_ptrs _ E)) as (Hfh & Hff & _ & Hfo).
  apply bind_inv in H as (? & ? & E0 & H). apply get_inv in E0 as [-> ->].
  destruct (index_in_memory (index s0)).
  { apply ret_inv in H as [_ ->]. exact E. }
  apply bind_inv in H as (path & ? & E0 & H). unfold log_path in E0.
  apply bind_inv in E0 as (? & ? & E0 & E1). apply get_inv in E0 as [-> ->].
  apply ret_inv in E1 as [-> ->].
  apply bind_inv in H as (file & ? & E0 & H).
  rewrite file_alloc_run in E0. injection E0 as <- <-.
  apply bind_inv in H as (c & s1 & Eo & H).
  apply file_open_inv in Eo
    as (f & Hf & [(Hc & ->)|[(Hc & _ & ->)|(-> & d & Hd & Hv & ->)]]).
  - destruct (Z.leb_spec c 0); [|lia]. sinv0.
    apply inv_with_open_file; snorm; auto using inv_alloc.
  - destruct (Z.leb_spec c 0); [|lia]. sinv0.
    apply inv_with_open_file; [apply inv_record, inv_alloc, E|snorm; auto..].
  - cbn [Z.leb Z.compare] in H.
    apply bind_inv in H as ([] & s2 & Es & H). apply ret_inv in H as [_ ->].
    apply set_head_inv in Es as (q & nf & [= <-] & Hne & Hnf & ->).
    apply inv_first_head; snorm; auto.
    + eapply inv_store; [|exact Hnf|reflexivity].
      apply inv_link_no_head; [|exact Hh0].
      apply inv_on_env. now apply inv_fill_fresh.
    + rewrite lookup_insert_eq. eauto.
Qed.

Lemma alloc_in_memory_inv s p s' :
  mail_transaction_log_file_alloc_in_memory s = Ret p s' ->
  let sa := alloc_state MEMORY_LOG_NAME s in
  p = Some (next_ptr s) /\
  (head s = None \/ is_Some (head_file sa)) /\
  s' = link_state
         (store (next_ptr s)
            (set_buffer (Some [])
               (set_buffer_offset (hdr_size (env s))
                  (set_sync_offset (hdr_size (env s))
                     (set_hdr (successor_header sa (head_file sa))
                              (blank_file MEMORY_LOG_NAME)))))
            sa).
Proof.
  intros H sa. unfold mail_transaction_log_file_alloc_in_memory in H.
  apply bind_inv in H as (file & ? & E0 & H).
  rewrite file_alloc_run in E0. injection E0 as <- <-.
  apply bind_inv in H as (h & ? & E0 & H).
  apply next_header_inv in E0 as (-> & -> & Hhd).
  unfold link_superseded_head in H. sinv.
  repeat split; auto.
Qed.

Lemma head_file_alloc s path :
  wf_ptrs s -> head_file (alloc_state path s) = head_file s.
Proof.
  intros W. unfold head_file. snorm. destruct (head s) as [q|] eqn:Hq; [|reflexivity].
  apply lookup_insert_ne. apply (wf_head _ W) in Hq. lia.
Qed.

Lemma create_keeps_inv s r s' :
  log_inv s -> head s = None ->
  mail_transaction_log_create s = Ret r s' -> log_inv s'.
Proof.
  intros I Hnone H. unfold mail_transaction_log_create in H.
  destruct (fresh_ptr s (inv_ptrs _ I)) as (Hfh & Hff & Hfa & Hfo).
  apply bind_inv in H as (? & ? & E0 & H). apply get_inv in E0 as [-> ->].
  destruct (index_in_memory (index s)).
  - apply bind_inv in H as (file & s1 & E & H).
    apply alloc_in_memory_inv in E as (-> & _ & ->).
    apply bind_inv in H as ([] & s2 & Es & H). apply ret_inv in H as [_ ->].
    apply set_head_inv in Es as (q & nf & [= <-] & Hne & Hnf & ->).
    apply inv_first_head; snorm; auto.
    + eapply inv_store; [|exact Hnf|reflexivity].
      apply inv_link_no_head; [|exact Hnone]. now apply inv_fill_fresh.
    + rewrite lookup_insert_eq. eauto.
  - apply bind_inv in H as (file & s1 & E & H).
    apply bind_inv in H as ([] & s2 & Es & H). apply ret_inv in H as [_ ->].
    apply set_head_inv in Es as (q & nf & -> & Hne & Hnf & ->).
    assert (Hpre : log_inv s1 /\ head s1 = None /\ open_file s1 <> Some q).
    { unfold create_disk_file in E.
      apply bind_inv in E as (? & ? & E0 & E). apply get_inv in E0 as [-> ->].
      apply bind_inv in E as (path & ? & E0 & E). unfold log_path in E0.
      apply bind_inv in E0 as (? & ? & E0 & E1). apply get_inv in E0 as [-> ->].
      apply ret_inv in E1 as [-> ->].
      apply bind_inv in E as (file & ? & E0 & E).
      rewrite file_alloc_run in E0. injection E0 as <- <-.
      apply bind_inv in E as ([] & sb & Eb & E).
      set (path := index_filepath (index s) +:+ MAIL_TRANSACTION_LOG_SUFFIX) in *.
      assert (Hb : log_inv sb /\ head sb = None /\
                   next_ptr sb = S (next_ptr s) /\
                   (next_ptr s ∉ files sb) /\ open_file sb <> Some (next_ptr s)).
      { clear E Hne Hnf. destruct (open_file s) as [o|] eqn:Ho.
        - unfold_helpers Eb. sinv0. snorm.
          split; [|split; [|split; [|split]]]; auto; try discriminate.
          + apply inv_no_open_file, inv_on_env, inv_free; [|snorm; congruence].
            match goal with
            | H : _ = Some ?f |- log_inv (store _ (set_stat _ _ _ _ ?f) _) =>
              eapply (inv_store _ _ f); [ | exact H | reflexivity ]
            end.
            now apply inv_alloc.
          + intros Hin. apply list_elem_of_filter in Hin as [_ Hin]. auto.
        - apply ret_inv in Eb as [_ ->]. snorm.
          split; [|split; [|split; [|split]]]; auto using inv_alloc. congruence. }
      destruct Hb as (Ib & Hhb & Hnb & Hfb & Hob).
      apply bind_inv in E as (c & sc & Ec & E).
      apply file_create_inv in Ec as (f & Hf & Hc).
      destruct Hc as [[-> _]|[-> Hc]].
      { cbn [Z.ltb Z.compare] in E. sinv0. }
      cbn [Z.ltb Z.compare] in E. apply ret_inv in E as [[= ->] ->].
      destruct Hc as [(d & Hd & Hv & Hsig & ->)|[_ ->]]; snorm.
      - split; [|split]; auto.
        apply inv_link_no_head; [|exact Hhb]. apply inv_on_env.
        apply inv_store_off; auto; rewrite ?Hnb, ?Hhb; auto; discriminate.
      - split; [|split]; auto.
        apply inv_link_no_head; [|exact Hhb]. apply inv_on_env.
        apply inv_store_off; snorm; auto using inv_on_env;
          rewrite ?Hnb, ?Hhb; auto; discriminate. }
    destruct Hpre as (I1 & Hh1 & Ho1).
    apply inv_first_head; snorm; auto.
    + eapply inv_store; [|exact Hnf|reflexivity]. exact I1.
    + rewrite lookup_insert_eq. eauto.
Qed.


(** ** Refreshing the head *)

Lemma refresh_noop s h fh :
  head s = Some h -> heap s !! h = Some fh ->
  (FILE_IN_MEMORY fh = true \/
   (fails (env s) SysStat = false /\
    exists d, fs (env s) !! log_path_of s = Some d /\
              st_ino fh = df_ino d /\ st_dev fh = df_dev d)) ->
  mail_transaction_log_refresh s = Ret 0 s.
Proof.
  intros Hh Hf Hc. unfold mail_transaction_log_refresh.
  unfold bind at 1, get. rewrite Hh.
  rewrite bool_decide_eq_true_2 by discriminate.
  unfold i_assert, bind at 1, ret at 1.
  rewrite (bind_Ret _ _ _ _ _ (deref_Some _ _ _ Hf)).
  destruct Hc as [->|(Hs & d & Hd & Hi & Hv)]; [reflexivity|].
  destruct (FILE_IN_MEMORY fh); [reflexivity|].
  unfold log_path, nfs_safe_stat. unfold_all. rewrite Hs.
  unfold log_path_of in Hd. rewrite Hd, Hi, Hv, !Z.eqb_refl. reflexivity.
Qed.

Lemma retires_and_installs_inv b h p s1 s' :
  pre_inv p s1 -> retires_and_installs b h p s1 s' -> log_inv s'.
Proof.
  intros P (fh1 & s3 & nf & Hfh1 & Hs3 & Hnf & Hne & ->). cbn zeta in Hs3.
  apply pre_install.
  eapply pre_store; [|exact Hnf|reflexivity].
  assert (P2 : pre_inv p (store h (set_refcount (refcount fh1 - 1) fh1) s1))
    by (eapply pre_store; [exact P|exact Hfh1|reflexivity]).
  destruct Hs3 as [[_ W]|[_ ->]].
  - eapply pre_swept; [exact P2|exact W].
  - destruct b; [exact P2|].
    eapply pre_store; [exact P2|snorm; apply lookup_insert_eq|reflexivity].
Qed.

(** What is left of the state around the new head. *)
Lemma retires_and_installs_frame b h p s1 s' nf0 :
  retires_and_installs b h p s1 s' ->
  heap s1 !! p = Some nf0 -> p <> h -> p ∉ files s1 ->
  head s' = Some p /\
  heap s' !! p = Some (set_refcount (refcount nf0 + 1) nf0) /\
  index s' = index s1 /\ open_file s' = open_file s1 /\
  views s' = views s1 /\ next_ptr s' = next_ptr s1 /\
  fs (env s') = fs (env s1) /\ failing (env s') = failing (env s1) /\
  next_fd (env s') = next_fd (env s1) /\ next_ino (env s') = next_ino (env s1) /\
  (forall k d, fdtab (env s') !! k = Some d -> fdtab (env s1) !! k = Some d) /\
  (forall q, q ∈ files s' -> q ∈ files s1).
Proof.
  intros (fh1 & s3 & nf & Hfh1 & Hs3 & Hnf & Hne & ->) Hp Hph Hpf.
  cbn zeta in Hs3. snorm.
  destruct Hs3 as [[_ W]|[_ ->]].
  - assert (Hnf0 : nf = nf0).
    { rewrite (swept_kept _ _ _ W) in Hnf by (snorm; tauto).
      snorm. rewrite lookup_insert_ne in Hnf by congruence. congruence. }
    subst nf.
    rewrite (swept_index _ _ _ W), (swept_open_file _ _ _ W),
      (swept_views _ _ _ W), (swept_next_ptr _ _ _ W), (swept_fs _ _ _ W),
      (swept_failing _ _ _ W), (swept_next_fd _ _ _ W), (swept_next_ino _ _ _ W).
    snorm. repeat split; auto.
    + apply lookup_insert_eq.
    + intros k d. apply (swept_fdtab _ _ _ W).
    + intros q Hq. now apply (swept_files _ _ _ W) in Hq.
  - assert (Hnf0 : nf = nf0).
    { destruct b; snorm; rewrite !lookup_insert_ne in Hnf by congruence;
        congruence. }
    subst nf. destruct b; snorm; repeat split; auto; apply lookup_insert_eq.
Qed.

Lemma refresh_cases s r s' :
  mail_transaction_log_refresh s = Ret r s' ->
  exists h fh, head s = Some h /\ heap s !! h = Some fh /\
    let path := log_path_of s in
    let p := next_ptr s in
    ((r = 0 /\ s' = s) \/
     (r = -1 /\ FILE_IN_MEMORY fh = false /\
      (s' = s \/ s' = record_syscall_error path "stat()" s \/
       s' = on_env (fun w => w) (free_state p (alloc_state path s)) \/
       s' = on_env (fun w => w)
              (free_state p (record_syscall_error path "open()"
                               (alloc_state path s))))) \/
     (r = 0 /\ FILE_IN_MEMORY fh = false /\
      exists d, fs (env s) !! path = Some d /\ df_valid d = true /\
        (st_ino fh =? df_ino d) && (st_dev fh =? df_dev d) = false /\
        retires_and_installs true h p
          (link_state (attach_state p d (blank_file path) (alloc_state path s)))
          s')).
Proof.
  intros H. unfold mail_transaction_log_refresh in H.
  apply bind_inv in H as (? & ? & E0 & H). apply get_inv in E0 as [-> ->].
  apply bind_inv in H as ([] & ? & E0 & H). apply i_assert_inv in E0 as [_ ->].
  apply bind_inv in H as (fh & ? & E0 & H).
  apply deref_inv in E0 as (-> & h & Hh & Hfh).
  exists h, fh. split; [exact Hh|]. split; [exact Hfh|]. cbn zeta.
  destruct (FILE_IN_MEMORY fh) eqn:Hmem.
  { apply ret_inv in H as [-> ->]. auto. }
  apply bind_inv in H as (path & ? & E0 & H). unfold log_path in E0.
  apply bind_inv in E0 as (? & ? & E0 & E1). apply get_inv in E0 as [-> ->].
  apply ret_inv in E1 as [-> ->]. fold (log_path_of s) in H.
  apply bind_inv in H as (st & ? & E0 & H). unfold nfs_safe_stat in E0.
  apply bind_inv in E0 as (? & ? & E0 & E1). apply get_inv in E0 as [-> ->].
  assert (Hst : st = (if fails (env s) SysStat then None
                      else fs (env s) !! log_path_of s) /\ x = s).
  { destruct (fails (env s) SysStat); now apply ret_inv in E1 as [-> ->]. }
  clear E1. destruct Hst as [-> ->].
  destruct (fails (env s) SysStat) eqn:Hstat.
  { unfold mail_index_file_set_syscall_error in H. sinv0.
    right; left. auto. }
  destruct (fs (env s) !! log_path_of s) as [d|] eqn:Hd.
  2:{ sinv0. right; left. auto. }
  destruct ((st_ino fh =? df_ino d) && (st_dev fh =? df_dev d)) eqn:Hsig.
  { apply ret_inv in H as [-> ->]. auto. }
  apply bind_inv in H as (file & ? & E0 & H).
  rewrite file_alloc_run in E0. injection E0 as <- <-.
  apply bind_inv in H as (c & s1 & Eo & H).
  apply file_open_inv in Eo
    as (f & Hf & [(Hc & ->)|[(Hc & _ & ->)|(-> & d' & Hd' & Hv & ->)]]).
  1,2: destruct (Z.leb_spec c 0); [|lia];
    apply bind_inv in H as ([] & s2 & E & H); apply ret_inv in H as [-> ->];
    apply file_free_inv in E as (f' & Hf' & ->);
    snorm; rewrite (lookup_insert_eq (heap s)) in Hf; injection Hf as <-;
    rewrite (lookup_insert_eq (heap s)) in Hf'; injection Hf' as <-;
    right; left; (split; [reflexivity|]); (split; [reflexivity|]); auto.
  snorm. rewrite (lookup_insert_eq (heap s)) in Hf. injection Hf as <-.
  change (filepath (blank_file (log_path_of s))) with (log_path_of s) in Hd'.
  rewrite Hd in Hd'. injection Hd' as <-.
  cbn [Z.leb Z.compare] in H.
  set (s1 := link_state _) in *.
  apply bind_inv in H as (nf0 & ? & E0 & H).
  apply deref_inv in E0 as (-> & ? & [= <-] & Hnf0).
  apply bind_inv in H as ([] & ? & E0 & H). apply i_assert_inv in E0 as [_ ->].
  apply bind_inv in H as ([] & s2 & E0 & H).
  apply update_inv in E0 as (? & fh1 & Hq & Hfh1 & ->).
  rewrite Hh in Hq. injection Hq as <-.
  apply bind_inv in H as (o & ? & E0 & H).
  apply deref_inv in E0 as (-> & ? & Hq & Ho).
  rewrite Hh in Hq. injection Hq as <-.
  snorm. rewrite (lookup_insert_eq (heap s1)) in Ho. injection Ho as <-.
  apply bind_inv in H as ([] & s3 & E3 & H).
  apply bind_inv in H as ([] & s4 & E4 & H). apply ret_inv in H as [-> ->].
  apply set_head_inv in E4 as (? & nf & [= <-] & Hne & Hnf & ->).
  right; right. split; [reflexivity|]. split; [reflexivity|].
  exists d. split; [reflexivity|]. split; [exact Hv|]. split; [exact Hsig|].
  exists fh1, s3, nf. split; [exact Hfh1|]. cbn zeta.
  split; [|auto].
  cbn [refcount set_refcount] in E3.
  destruct (Z.eqb_spec (refcount fh1 - 1) 0) as [Hz|Hnz].
  - left. split; [exact Hz|]. unfold mail_transaction_logs_clean in E3.
    apply bind_inv in E3 as (? & ? & E0 & E3). apply get_inv in E0 as [-> ->].
    now apply clean_chain_swept in E3.
  - right. split; [exact Hnz|]. now apply ret_inv in E3 as [_ ->].
Qed.

Lemma refresh_keeps_inv s r s' :
  log_inv s -> disk_is_ahead s ->
  mail_transaction_log_refresh s = Ret r s' -> log_inv s'.
Proof.
  intros I A H.
  destruct (fresh_ptr s (inv_ptrs _ I)) as (Hfh & Hff & Hfa & Hfo).
  apply refresh_cases in H as (h & fh & Hh & Hf & H). cbn zeta in H.
  destruct H as [[_ ->]|[(_ & _ & [->|[->|[->| ->]]])
                       |(_ & Hmem & d & Hd & Hv & Hsig & R)]].
  - exact I.
  - exact I.
  - now apply inv_with_index.
  - apply inv_on_env, inv_free; [now apply inv_alloc|exact Hfh].
  - apply inv_on_env, inv_free; [now apply inv_record, inv_alloc|exact Hfh].
  - eapply retires_and_installs_inv; [|exact R].
    apply (pre_inv_intro s _ h fh _
             (load_disk_file d (env (alloc_state (log_path_of s) s))
                             (blank_file (log_path_of s)))); auto.
    + snorm. rewrite Hh. intros q. case_bool_decide; [auto|].
      rewrite elem_of_cons. tauto.
    + snorm. apply lookup_insert_eq.
    + intros q Hq. snorm. now rewrite !lookup_insert_ne by congruence.
    + cbn [load_disk_file set_fd set_sync_offset set_stat set_hdr hdr file_seq].
      destruct (A h fh (log_path_of s) d Hh Hf (or_introl eq_refl) Hd)
        as [Hlt|(Hi & Hdv & _)]; [exact Hlt|].
      rewrite Hi, Hdv, !Z.eqb_refl in Hsig. discriminate.
Qed.


(** ** The disk stays ahead *)

Lemma ahead_transfer s s' :
  disk_is_ahead s ->
  index_filepath (index s') = index_filepath (index s) ->
  head s' = head s ->
  (forall h f', head s' = Some h -> heap s' !! h = Some f' ->
     exists f, heap s !! h = Some f /\ same_identity f f') ->
  fs (env s') = fs (env s) ->
  (forall k d, fdtab (env s') !! k = Some d -> fdtab (env s) !! k = Some d) ->
  disk_is_ahead s'.
Proof.
  intros A Hi Hh Hf Hfs Hfd h fh' path d Hhd Hfh' Hpath Hd.
  destruct (Hf h fh' Hhd Hfh') as (fh & Hfh & Hp & Hhdr & Hino & Hdev & Hfdn).
  rewrite Hh in Hhd. rewrite Hfs in Hd. rewrite Hi, Hp in Hpath.
  rewrite Hhdr, Hino, Hdev, Hfdn.
  destruct (A h fh path d Hhd Hfh Hpath Hd) as [Hlt|(H1 & H2 & H3)]; [auto|].
  right. split; [exact H1|]. split; [exact H2|]. intros d0 Hd0. auto.
Qed.

Lemma same_identity_refl f : same_identity f f.
Proof. repeat split. Qed.

Lemma ahead_store s q f f' :
  disk_is_ahead s -> heap s !! q = Some f -> same_identity f f' ->
  disk_is_ahead (store q f' s).
Proof.
  intros A Hq Hsame. apply (ahead_transfer s); snorm; auto.
  intros h g Hh. rewrite lookup_insert. case_decide.
  - subst. intros [= <-]. eauto.
  - intros Hg. eauto using same_identity_refl.
Qed.

Lemma ahead_store_off s q f' :
  disk_is_ahead s -> head s <> Some q -> disk_is_ahead (store q f' s).
Proof.
  intros A Hne. apply (ahead_transfer s); snorm; auto.
  intros h g Hh. rewrite lookup_insert_ne by congruence.
  eauto using same_identity_refl.
Qed.

Lemma ahead_with_index s i :
  disk_is_ahead s -> index_filepath i = index_filepath (index s) ->
  disk_is_ahead (with_index i s).
Proof.
  intros A Hi. apply (ahead_transfer s); snorm; auto.
  eauto using same_identity_refl.
Qed.

Lemma ahead_record s path name :
  disk_is_ahead s -> disk_is_ahead (record_syscall_error path name s).
Proof. intros A. now apply ahead_with_index. Qed.

Lemma ahead_with_views s v : disk_is_ahead s -> disk_is_ahead (with_views v s).
Proof.
  intros A. apply (ahead_transfer s); snorm; auto.
  eauto using same_identity_refl.
Qed.

Lemma ahead_with_open_file s p :
  disk_is_ahead s -> disk_is_ahead (with_open_file p s).
Proof.
  intros A. apply (ahead_transfer s); snorm; auto.
  eauto using same_identity_refl.
Qed.

Lemma ahead_alloc s path :
  disk_is_ahead s -> head s <> Some (next_ptr s) ->
  disk_is_ahead (alloc_state path s).
Proof.
  intros A Hne. apply (ahead_transfer s); snorm; auto.
  intros h g Hh. rewrite lookup_insert_ne by congruence.
  eauto using same_identity_refl.
Qed.

Lemma ahead_free s q :
  disk_is_ahead s -> disk_is_ahead (free_state q s).
Proof.
  intros A. apply (ahead_transfer s); snorm; auto.
  intros h g Hh Hg. apply lookup_delete_Some in Hg as [_ Hg].
  eauto using same_identity_refl.
Qed.

Lemma ahead_close_fd s n :
  disk_is_ahead s -> disk_is_ahead (on_env (close_fd n) s).
Proof.
  intros A. apply (ahead_transfer s); snorm; auto.
  - eauto using same_identity_refl.
  - intros k d Hk. now apply lookup_delete_Some in Hk.
Qed.

Lemma ahead_same_env s : disk_is_ahead s -> disk_is_ahead (on_env (fun w => w) s).
Proof.
  intros A. apply (ahead_transfer s); snorm; auto.
  eauto using same_identity_refl.
Qed.

Lemma ahead_swept l s s' : disk_is_ahead s -> swept l s s' -> disk_is_ahead s'.
Proof.
  intros A W. apply (ahead_transfer s).
  - exact A.
  - now rewrite (swept_index _ _ _ W).
  - apply (swept_head _ _ _ W).
  - intros h g _ Hg. apply (swept_sub _ _ _ _ _ W) in Hg.
    eauto using same_identity_refl.
  - apply (swept_fs _ _ _ W).
  - apply (swept_fdtab _ _ _ W).
Qed.

(** A head that has just been opened on the file of the log path. *)
Lemma ahead_new_head s p nf d :
  head s = Some p -> heap s !! p = Some nf ->
  filepath nf = log_path_of s ->
  fs (env s) !! log_path_of s = Some d ->
  st_ino nf = df_ino d -> st_dev nf = df_dev d ->
  (forall d0, fdtab (env s) !! fd nf = Some d0 -> d0 = d) ->
  disk_is_ahead s.
Proof.
  intros Hh Hnf Hp Hd Hi Hv Hfd h fh path d' Hh' Hfh Hpath Hd'.
  rewrite Hh in Hh'. injection Hh' as <-. rewrite Hnf in Hfh.
  injection Hfh as <-.
  assert (path = log_path_of s) as ->
    by (unfold log_path_of in *; destruct Hpath; congruence).
  rewrite Hd in Hd'. injection Hd' as <-.
  right. split; [auto|]. split; [auto|].
  intros d0 Hd0. apply Hfd in Hd0 as ->. auto.
Qed.

Lemma refresh_keeps_ahead s r s' :
  log_inv s -> disk_is_ahead s ->
  mail_transaction_log_refresh s = Ret r s' -> disk_is_ahead s'.
Proof.
  intros I A H.
  destruct (fresh_ptr s (inv_ptrs _ I)) as (Hfh & Hff & Hfa & Hfo).
  apply refresh_cases in H as (h & fh & Hh & Hf & H). cbn zeta in H.
  destruct H as [[_ ->]|[(_ & _ & [->|[->|[->| ->]]])
                       |(_ & Hmem & d & Hd & Hv & Hsig & R)]].
  - exact A.
  - exact A.
  - now apply ahead_with_index.
  - apply ahead_same_env, ahead_free. now apply ahead_alloc.
  - apply ahead_same_env, ahead_free, ahead_record. now apply ahead_alloc.
  - set (path := log_path_of s) in *. set (p := next_ptr s) in *.
    set (nf0 := load_disk_file d (env (alloc_state path s)) (blank_file path)).
    assert (Hph : p <> h).
    { intros <-. apply Hfh. exact Hh. }
    destruct (retires_and_installs_frame _ _ _ _ _ nf0 R)
      as (Hh' & Hnf' & Hi' & _ & _ & _ & Hfs' & _ & _ & _ & Hfd' & _); auto.
    + snorm. apply lookup_insert_eq.
    + snorm. rewrite Hh. case_bool_decide; [exact Hff|].
      rewrite not_elem_of_cons. auto.
    + eapply (ahead_new_head s' p _ d); eauto.
      * unfold log_path_of. now rewrite Hi'.
      * unfold log_path_of. rewrite Hi', Hfs'. snorm. exact Hd.
      * intros d0 Hd0. apply Hfd' in Hd0. snorm.
        cbn [fd nf0 load_disk_file set_fd set_refcount] in Hd0. snorm.
        rewrite lookup_insert_eq in Hd0. congruence.
Qed.


(** ** Locking the head *)

Lemma sound_store s q f f' :
  sound s -> heap s !! q = Some f -> same_identity f f' -> sound (store q f' s).
Proof.
  intros [I A] Hq Hs. split.
  - eapply inv_store; eauto. apply Hs.
  - eapply ahead_store; eauto.
Qed.

Lemma sound_with_log_locked s b : sound s -> sound (with_log_locked b s).
Proof.
  intros [I A]. split; [now apply inv_with_index | now apply ahead_with_index].
Qed.

Lemma sound_record_syscall_error s path name :
  sound s -> sound (record_syscall_error path name s).
Proof.
  intros [I A]. split; [now apply inv_with_index | now apply ahead_with_index].
Qed.

Lemma sound_clean s r s' :
  sound s -> mail_transaction_logs_clean s = Ret r s' -> sound s'.
Proof.
  intros [I A] H. split; [eapply clean_keeps_inv; eauto|].
  unfold mail_transaction_logs_clean in H.
  apply bind_inv in H as (a & s0 & E & H). apply get_inv in E as [-> ->].
  apply clean_chain_swept in H. eapply ahead_swept; eauto.
Qed.

Lemma sound_refresh s r s' :
  sound s -> mail_transaction_log_refresh s = Ret r s' -> sound s'.
Proof.
  intros [I A] H.
  split; [eapply refresh_keeps_inv | eapply refresh_keeps_ahead]; eauto.
Qed.

Lemma file_lock_inv p s l s' :
  mail_transaction_log_file_lock p s = Ret l s' ->
  exists q f, p = Some q /\ heap s !! q = Some f /\
    ((l = 0 /\ locked f = true /\ s' = s) \/
     (l = -1 /\ locked f = false /\ fails (env s) SysLock = true /\ s' = s) \/
     (l = 0 /\ locked f = false /\ fails (env s) SysLock = false /\
      s' = store q (set_locked true f) s)).
Proof.
  intros H. unfold mail_transaction_log_file_lock in H. sinv.
  all: eexists _, _; (split; [reflexivity|]); (split; [eassumption|]).
  - left. auto.
  - right; left. auto.
  - right; right. auto.
Qed.

Ltac sound_step :=
  lazymatch goal with
  | |- sound (store _ _ _) =>
    match goal with
    | H : _ = Some ?f |- _ =>
      eapply (sound_store _ _ f); [ | exact H | repeat split ]
    end
  | |- sound (with_log_locked _ _) => apply sound_with_log_locked
  | |- sound (record_syscall_error _ _ _) => apply sound_record_syscall_error
  | H : mail_transaction_logs_clean ?s0 = Ret ?r ?s |- sound ?s =>
    apply (sound_clean s0 r s); [ | exact H ]
  | H : mail_transaction_log_refresh ?s0 = Ret ?r ?s |- sound ?s =>
    apply (sound_refresh s0 r s); [ | exact H ]
  end.
Ltac sound_steps := repeat sound_step; try assumption.

Lemma sound_lock_head_turn s t s' :
  sound s -> lock_head_turn s = Ret t s' -> sound s'.
Proof.
  intros S H. unfold lock_head_turn in H.
  apply bind_inv in H as (? & ? & E0 & H). apply get_inv in E0 as [-> ->].
  apply bind_inv in H as (l & s1 & El & H).
  apply file_lock_inv in El as (q & f & Hq & Hf & El).
  assert (S1 : sound s1).
  { destruct El as [(_ & _ & ->)|[(_ & _ & _ & ->)|(_ & _ & _ & ->)]]; auto.
    eapply sound_store; eauto. repeat split. }
  clear El Hf. rewrite Hq in H. unfold mail_transaction_log_file_unlock in H.
  sinv0; sound_steps.
Qed.

Lemma sound_lock_head fuel : forall s r s',
  sound s -> mail_transaction_log_lock_head fuel s = Ret r s' -> sound s'.
Proof.
  induction fuel as [|n IH]; intros s r s' S H;
    cbn [mail_transaction_log_lock_head] in H; [discriminate|].
  apply bind_inv in H as (t & s1 & Et & H).
  apply sound_lock_head_turn in Et; [|exact S].
  destruct t as [l|[]].
  - apply ret_inv in H as [_ ->]. exact Et.
  - eapply IH; eauto.
Qed.

Lemma file_map_inv p start s m s' :
  mail_transaction_log_file_map p start s = Ret m s' ->
  exists q f, p = Some q /\ heap s !! q = Some f /\
    ((0 <= m /\ s' = s) \/
     (m = -1 /\ s' = record_syscall_error (filepath f) "mmap()" s) \/
     exists d, fdtab (env s) !! fd f = Some d /\ m = 1 /\
       s' = store q (set_mmap_base (Some (df_data d))
                       (set_buffer None
                          (set_buffer_offset (df_size d)
                             (set_sync_offset (df_size d) f)))) s).
Proof.
  intros H. unfold mail_transaction_log_file_map in H.
  unfold mail_index_file_set_syscall_error in H. sinv.
  all: eexists _, _; (split; [reflexivity|]); (split; [eassumption|]).
  all: first [ left; split; [lia|reflexivity]
             | right; left; split; reflexivity
             | right; right; eauto ].
Qed.

Lemma sound_sync_lock fuel s r s' :
  sound s -> mail_transaction_log_sync_lock fuel s = Ret r s' -> sound s'.
Proof.
  intros S H. unfold mail_transaction_log_sync_lock in H.
  apply bind_inv in H as (? & ? & E0 & H). apply get_inv in E0 as [-> ->].
  apply bind_inv in H as ([] & ? & E0 & H). apply i_assert_inv in E0 as [_ ->].
  apply bind_inv in H as (l & s1 & El & H).
  apply sound_lock_head in El; [|exact S].
  destruct (l <? 0); [now apply ret_inv in H as [_ ->]|].
  apply bind_inv in H as (? & ? & E0 & H). apply get_inv in E0 as [-> ->].
  apply bind_inv in H as (h & ? & E0 & H).
  apply deref_inv in E0 as (-> & q & Hq & Hh).
  apply bind_inv in H as (m & s2 & Em & H).
  apply file_map_inv in Em as (q' & f & Hq' & Hf & Em).
  assert (S2 : sound s2).
  { destruct Em as [(_ & ->)|[(_ & ->)|(d & _ & _ & ->)]];
      [exact El|now apply sound_record_syscall_error|].
    eapply sound_store; eauto. repeat split. }
  clear Em Hf. unfold mail_transaction_log_file_unlock, set_log_locked in H.
  sinv0; sound_steps.
Qed.

(** ** Rotation *)

(** ** Rotating the log *)

Lemma hdr_load_fresh w w' h f :
  hdr (load_disk_file (fresh_disk_file w h) w' f) = h.
Proof. now destruct h. Qed.

Lemma rotate_cases s r s' :
  mail_transaction_log_rotate s = Ret r s' ->
  exists h fh, head s = Some h /\ heap s !! h = Some fh /\ locked fh = true /\
    let p := next_ptr s in
    ((r = -1 /\ index_in_memory (index s) = false /\
      exists f,
        (fails (env s) SysCreate = false /\
         s' = on_env (fun w => w)
                (free_state p (store p f (alloc_state (filepath fh) s)))) \/
        (fails (env s) SysCreate = true /\
         s' = on_env (fun w => w)
                (free_state p
                   (record_syscall_error (filepath fh) "creat()"
                      (store p f (alloc_state (filepath fh) s)))))) \/
     (r = 0 /\ exists s1 nf,
        produced s p nf s1 /\
        retires_and_installs false h p s1 s' /\
        ((index_in_memory (index s) = true /\ env s1 = env s /\
          FILE_IN_MEMORY nf = true /\
          hdr nf = successor_header s (head_file (alloc_state MEMORY_LOG_NAME s))) \/
         (index_in_memory (index s) = false /\
          exists d0 sb,
            fdtab (env s) !! fd fh = Some d0 /\
            sb = store p (set_stat (df_dev d0) (df_ino d0) (df_size d0) (df_mtime d0)
                            (blank_file (filepath fh)))
                       (alloc_state (filepath fh) s) /\
            ((exists d, fs (env s) !! filepath fh = Some d /\ df_valid d = true /\
                (df_ino d =? df_ino d0) && (df_dev d =? df_dev d0) = false /\
                file_seq (hdr nf) = df_seq d) \/
             hdr nf = successor_header s (head_file sb)))))).
Proof.
  intros H. unfold mail_transaction_log_rotate in H.
  apply bind_inv in H as (? & ? & E0 & H). apply get_inv in E0 as [-> ->].
  apply bind_inv in H as (fh & ? & E0 & H).
  apply deref_inv in E0 as (-> & h & Hh & Hfh).
  apply bind_inv in H as ([] & ? & E0 & H). apply i_assert_inv in E0 as [Hl ->].
  exists h, fh. split; [exact Hh|]. split; [exact Hfh|]. split; [exact Hl|].
  cbn zeta.
  apply bind_inv in H as (res & s1 & Ep & H).
  assert (Htail : forall file, res = inr file ->
            exists p, file = Some p /\ r = 0 /\
                      retires_and_installs false h p s1 s').
  { intros file ->. rewrite Hh in H.
    apply bind_inv in H as ([] & s2 & E0 & H).
    apply update_inv in E0 as (? & fh1 & [= <-] & Hfh1 & ->).
    apply bind_inv in H as (o & ? & E0 & H).
    apply deref_inv in E0 as (-> & ? & [= <-] & Ho).
    snorm. rewrite (lookup_insert_eq (heap s1)) in Ho. injection Ho as <-.
    apply bind_inv in H as ([] & s3 & E3 & H).
    apply bind_inv in H as ([] & s4 & E4 & H). apply ret_inv in H as [-> ->].
    apply set_head_inv in E4 as (p & nf & -> & Hne & Hnf & ->).
    exists p. split; [reflexivity|]. split; [reflexivity|].
    exists fh1, s3, nf. split; [exact Hfh1|]. cbn zeta. split; [|auto].
    cbn [refcount set_refcount] in E3.
    destruct (Z.eqb_spec (refcount fh1 - 1) 0) as [Hz|Hnz].
    - left. split; [exact Hz|]. unfold mail_transaction_logs_clean in E3.
      apply bind_inv in E3 as (? & ? & E0 & E3). apply get_inv in E0 as [-> ->].
      now apply clean_chain_swept in E3.
    - right. split; [exact Hnz|].
      unfold mail_transaction_log_file_unlock in E3.
      apply update_inv in E3 as (? & f & [= <-] & Hf & ->).
      snorm. rewrite (lookup_insert_eq (heap s1)) in Hf. now injection Hf as <-. }
  destruct (index_in_memory (index s)) eqn:Hmem.
  - apply bind_inv in Ep as (file & ? & E & Ep). apply ret_inv in Ep as [-> <-].
    pose proof E as E'.
    apply alloc_in_memory_inv in E as (-> & _ & Hs1). cbn zeta in Hs1.
    destruct (Htail _ eq_refl) as (p & [= <-] & -> & R).
    right. split; [reflexivity|].
    eexists s1, _. split; [|split; [exact R|]].
    + subst s1. constructor; snorm; try reflexivity;
        [ apply lookup_insert_eq
        | intros q Hq; now rewrite !lookup_insert_ne by congruence
        | reflexivity ].
    + left. subst s1. snorm. repeat split; reflexivity.
  - apply bind_inv in Ep as (st & ? & E0 & Ep). unfold sys_fstat in E0.
    apply bind_inv in E0 as (? & ? & E0 & E1). apply get_inv in E0 as [-> ->].
    assert (Hst : st = (if fails (env s) SysFstat then None
                        else fdtab (env s) !! fd fh) /\ x = s).
    { destruct (fails (env s) SysFstat); now apply ret_inv in E1 as [-> ->]. }
    clear E1. destruct Hst as [-> ->].
    destruct (if fails (env s) SysFstat then None else fdtab (env s) !! fd fh)
      as [d0|] eqn:Hd0; [|discriminate].
    assert (Hfd : fdtab (env s) !! fd fh = Some d0)
      by (destruct (fails (env s) SysFstat); congruence).
    clear Hd0.
    apply bind_inv in Ep as (file & ? & E0 & Ep).
    rewrite file_alloc_run in E0. injection E0 as <- <-.
    apply bind_inv in Ep as ([] & sb & E0 & Ep).
    apply update_inv in E0 as (? & f0 & [= <-] & Hf0 & ->).
    snorm. rewrite (lookup_insert_eq (heap s)) in Hf0. injection Hf0 as <-.
    set (path := filepath fh) in *.
    set (f1 := set_stat _ _ _ _ _) in *.
    set (sb := store (next_ptr s) f1 (alloc_state path s)) in *.
    apply bind_inv in Ep as (c & sc & Ec & Ep).
    apply file_create_inv in Ec as (f & Hf & Hc).
    assert (f = f1) as ->.
    { subst sb. snorm. rewrite (lookup_insert_eq _ (next_ptr s)) in Hf.
      congruence. }
    destruct Hc as [[-> Hc]|[-> Hc]].
    + cbn [Z.ltb Z.compare] in Ep.
      apply bind_inv in Ep as ([] & s2 & E0 & Ep).
      apply ret_inv in Ep as [-> ->]. apply ret_inv in H as [-> ->].
      apply file_free_inv in E0 as (f' & Hf' & ->).
      left. split; [reflexivity|]. split; [reflexivity|]. exists f1.
      destruct Hc as [(Hc & ->)|(Hc & ->)].
      * rewrite Hf in Hf'. injection Hf' as <-. left. split; [exact Hc|reflexivity].
      * assert (f' = f1) as -> by (revert Hf'; snorm; congruence).
        right. split; [exact Hc|reflexivity].
    + cbn [Z.ltb Z.compare] in Ep. apply ret_inv in Ep as [-> <-].
      destruct (Htail _ eq_refl) as (p & [= <-] & -> & R).
      right. split; [reflexivity|].
      destruct Hc as [(d & Hd & Hv & Hsig & Hs1)|[_ Hs1]].
      * eexists s1, _. split; [|split; [exact R|]].
        -- subst s1 sb. constructor; snorm; try reflexivity;
             [ apply lookup_insert_eq
             | intros q Hq; now rewrite !lookup_insert_ne by congruence
             | reflexivity ].
        -- right. split; [reflexivity|]. exists d0, sb.
           split; [exact Hfd|]. split; [reflexivity|]. left.
           exists d. subst sb. snorm. auto.
      * eexists s1, _. split; [|split; [exact R|]].
        -- subst s1 sb. constructor; snorm; try reflexivity;
             [ apply lookup_insert_eq
             | intros q Hq; now rewrite !lookup_insert_ne by congruence
             | reflexivity ].
        -- right. split; [reflexivity|]. exists d0, sb.
           split; [exact Hfd|]. split; [reflexivity|]. right.
           apply hdr_load_fresh.
Qed.

Lemma produced_pre_inv s s1 h fh p nf :
  log_inv s -> head s = Some h -> heap s !! h = Some fh ->
  produced s p nf s1 -> file_seq (hdr fh) < file_seq (hdr nf) ->
  pre_inv p s1.
Proof.
  intros I Hh Hfh [? ? ? ? ? ? Hfiles ? ? ?] Hseq.
  eapply (pre_inv_intro s s1 h fh p nf); eauto.
  rewrite Hfiles. snorm. rewrite Hh. intros q. case_bool_decide; [auto|].
  rewrite elem_of_cons. tauto.
Qed.

Lemma head_file_store_fresh s f path :
  wf_ptrs s ->
  head_file (store (next_ptr s) f (alloc_state path s)) = head_file s.
Proof.
  intros W. unfold head_file. snorm. destruct (head s) as [q|] eqn:Hq; [|reflexivity].
  apply (wf_head _ W) in Hq. rewrite !lookup_insert_ne by lia. reflexivity.
Qed.

Lemma rotate_keeps_inv s r s' :
  log_inv s -> disk_is_ahead s ->
  mail_transaction_log_rotate s = Ret r s' -> log_inv s'.
Proof.
  intros I A H.
  destruct (fresh_ptr s (inv_ptrs _ I)) as (Hfh & Hff & Hfa & Hfo).
  apply rotate_cases in H as (h & fh & Hh & Hf & Hl & H). cbn zeta in H.
  assert (Hhf : head_file s = Some fh) by (eapply head_file_Some; eauto).
  destruct H as [(_ & _ & f & [(_ & ->)|(_ & ->)])|(_ & s1 & nf & P & R & Hseq)].
  - apply inv_on_env, inv_free; [now apply inv_fill_fresh|exact Hfh].
  - apply inv_on_env, inv_free; [now apply inv_record, inv_fill_fresh|exact Hfh].
  - eapply retires_and_installs_inv; [|exact R].
    eapply produced_pre_inv; eauto.
    destruct Hseq as [(_ & _ & _ & ->)|(_ & d0 & sb & Hd0 & -> & [Hadopt| ->])].
    + rewrite head_file_alloc by apply I. rewrite Hhf. cbn. lia.
    + destruct Hadopt as (d & Hd & Hv & Hsig & ->).
      destruct (A h fh (filepath fh) d Hh Hf (or_intror eq_refl) Hd)
        as [Hlt|(Hi & Hdv & Hfd)]; [exact Hlt|].
      destruct (Hfd d0 Hd0) as [Hi0 Hdv0].
      rewrite Hi, Hdv, Hi0, Hdv0, !Z.eqb_refl in Hsig. discriminate.
    + rewrite head_file_store_fresh by apply I. rewrite Hhf. cbn. lia.
Qed.

(** ** Looking a file up *)

Lemma scan_chain_inv l seq : forall s hit s',
  scan_chain l seq s = Ret hit s' ->
  s' = s /\
  match hit with
  | Some q => q ∈ l /\ exists f, heap s !! q = Some f /\ file_seq (hdr f) = seq
  | None => forall q, q ∈ l ->
              exists f, heap s !! q = Some f /\ file_seq (hdr f) <> seq
  end.
Proof.
  induction l as [|q l IH]; intros s hit s' H; cbn [scan_chain] in H.
  - apply ret_inv in H as [-> ->]. split; [reflexivity|].
    intros q Hq. now apply not_elem_of_nil in Hq.
  - apply bind_inv in H as (f & ? & E0 & H).
    apply deref_inv in E0 as (-> & ? & [= <-] & Hf).
    destruct (Z.eqb_spec (file_seq (hdr f)) seq) as [Heq|Hne].
    + apply ret_inv in H as [-> ->]. split; [reflexivity|].
      split; [left|eauto].
    + apply IH in H as [-> H]. split; [reflexivity|].
      destruct hit as [q'|].
      * destruct H as [Hin Hq']. split; [now right|exact Hq'].
      * intros q' Hq'. apply elem_of_cons in Hq' as [->|Hq']; eauto.
Qed.

Lemma find_in_chain_or_archive_keeps_inv seq s r s' :
  log_inv s -> find_in_chain_or_archive seq s = Ret r s' -> log_inv s'.
Proof.
  intros I H. unfold find_in_chain_or_archive in H.
  destruct (fresh_ptr s (inv_ptrs _ I)) as (Hfh & Hff & Hfa & Hfo).
  apply bind_inv in H as (? & ? & E0 & H). apply get_inv in E0 as [-> ->].
  apply bind_inv in H as (hit & ? & E0 & H).
  apply scan_chain_inv in E0 as [-> _].
  destruct hit; [now apply ret_inv in H as [_ ->]|].
  destruct (index_in_memory (index s)); [now apply ret_inv in H as [_ ->]|].
  apply bind_inv in H as (file & ? & E0 & H).
  rewrite file_alloc_run in E0. injection E0 as <- <-.
  apply bind_inv in H as (c & s1 & Eo & H).
  assert (I1 : log_inv s1).
  { apply file_open_inv in Eo
      as (f & Hf & [(Hc & ->)|[(Hc & _ & ->)|(-> & d & Hd & Hv & ->)]]).
    - now apply inv_alloc.
    - now apply inv_record, inv_alloc.
    - apply inv_on_env. now apply inv_fill_fresh. }
  clear Eo. sinv0; assumption.
Qed.

Lemma find_file_keeps_inv seq s r s' :
  log_inv s -> disk_is_ahead s ->
  mail_transaction_log_find_file seq s = Ret r s' -> log_inv s'.
Proof.
  intros I A H. unfold mail_transaction_log_find_file in H.
  apply bind_inv in H as (? & ? & E0 & H). apply get_inv in E0 as [-> ->].
  apply bind_inv in H as (h & ? & E0 & H).
  apply deref_inv in E0 as (-> & q & Hq & Hh).
  destruct (file_seq (hdr h) <? seq).
  - destruct (locked h); [now apply ret_inv in H as [_ ->]|].
    apply bind_inv in H as (c & s1 & Er & H).
    apply refresh_keeps_inv in Er; auto.
    destruct (c <? 0); [now apply ret_inv in H as [_ ->]|].
    apply bind_inv in H as (? & ? & E0 & H). apply get_inv in E0 as [-> ->].
    apply bind_inv in H as (h' & ? & E0 & H).
    apply deref_inv in E0 as (-> & q' & Hq' & Hh').
    destruct (file_seq (hdr h') <? seq); [now apply ret_inv in H as [_ ->]|].
    eapply find_in_chain_or_archive_keeps_inv; eauto.
  - eapply find_in_chain_or_archive_keeps_inv; eauto.
Qed.

(** ** The chain invariant along the first life of a log *)

Lemma alloc_inv i w : log_inv (mail_transaction_log_alloc i w).
Proof.
  assert (Hnil : forall q : nat, q ∈ @nil nat -> False)
    by (intros q Hq; now apply not_elem_of_nil in Hq).
  constructor; [constructor|..]; cbn; try discriminate; try reflexivity.
  all: intros q Hq; now apply Hnil in Hq.
Qed.

Lemma reachable_inv s : reachable s -> log_inv s.
Proof.
  induction 1 as [i w|s w _ I|s i _ I|s r s' _ I Hh E|s r s' _ I Hh E
                 |s r s' _ I E|s r s' _ I E|s r s' _ I A E|s r s' _ I A E
                 |s seq off r s' _ I E|s seq r s' _ I A E
                 |s fuel r s' _ I A E|s fuel r s' _ I A E|s r s' _ I E
                 |s q r s' _ I E|s q r s' _ I E].
  - apply alloc_inv.
  - now apply inv_with_env.
  - now apply inv_with_index.
  - exact (open_keeps_inv _ _ _ I Hh E).
  - exact (create_keeps_inv _ _ _ I Hh E).
  - exact (close_keeps_inv _ _ _ I E).
  - exact (move_to_memory_keeps_inv _ _ _ I E).
  - exact (rotate_keeps_inv _ _ _ I A E).
  - exact (refresh_keeps_inv _ _ _ I A E).
  - exact (set_mailbox_sync_pos_inv _ _ _ _ _ I E).
  - exact (find_file_keeps_inv _ _ _ _ I A E).
  - exact (proj1 (sound_lock_head fuel s r s' (conj I A) E)).
  - exact (proj1 (sound_sync_lock fuel s r s' (conj I A) E)).
  - exact (sync_unlock_inv _ _ _ I E).
  - exact (view_pin_inv _ _ _ _ I E).
  - exact (view_unpin_inv _ _ _ _ I E).
Qed.

(** ** The sample life of a log *)

Ltac ahead_by_computation :=
  intros h fh path d Hh Hf Hpath Hd;
  vm_compute in Hh; injection Hh as <-;
  vm_compute in Hf; injection Hf as <-;
  right;
  destruct Hpath as [-> | ->]; vm_compute in Hd; injection Hd as <-;
  (split; [reflexivity|]); (split; [reflexivity|]);
  intros d0 Hd0; vm_compute in Hd0; injection Hd0 as <-;
  split; reflexivity.

Lemma created_reachable : reachable Samples.created.
Proof.
  apply (reach_create (mail_transaction_log_alloc Samples.disk_index
                         Samples.quiet_world) 1);
    [apply reach_alloc|reflexivity|].
  vm_compute. reflexivity.
Qed.

Lemma pinned_reachable : reachable Samples.pinned.
Proof.
  apply (reach_view_pin Samples.created 0%nat tt); [apply created_reachable|].
  vm_compute. reflexivity.
Qed.

Lemma pinned_ahead : disk_is_ahead Samples.pinned.
Proof. ahead_by_computation. Qed.

Lemma locked_for_sync_reachable : reachable Samples.locked_for_sync.
Proof.
  apply (reach_sync_lock Samples.pinned 2%nat (0, Some (1, 24)));
    [apply pinned_reachable|apply pinned_ahead|].
  vm_compute. reflexivity.
Qed.

Lemma locked_for_sync_ahead : disk_is_ahead Samples.locked_for_sync.
Proof. ahead_by_computation. Qed.

Lemma rotated_reachable : reachable Samples.rotated.
Proof.
  apply (reach_rotate Samples.locked_for_sync 0);
    [apply locked_for_sync_reachable|apply locked_for_sync_ahead|].
  vm_compute. reflexivity.
Qed.

(** ** What a rotation does to the old head *)

(** C2: a successful rotation of a locked head installs the new file, the
    next file to be allocated, as head, with the reference of the log as its
    only one; the old head loses exactly one reference, and then: when that
    was its last, it is destroyed by the sweep, and leaves the store and the
    chain; otherwise it is unlocked and kept on the chain.  For an index
    in memory the new head is an in-memory file, the successor of the old
    head, and the file system is left as it was. *)
Theorem rotate_retires_the_old_head s s' h fh :
  wf_ptrs s -> head s = Some h -> heap s !! h = Some fh ->
  mail_transaction_log_rotate s = Ret 0 s' ->
  let p := next_ptr s in
  locked fh = true /\ p <> h /\
  head s' = Some p /\
  (exists nf, heap s' !! p = Some nf /\ refcount nf = 1 /\
     (index_in_memory (index s) = true ->
        FILE_IN_MEMORY nf = true /\
        hdr nf = LogHeader (file_seq (hdr fh) + 1) (file_seq (hdr fh))
                           (sync_offset fh) (clock (env s)))) /\
  (refcount fh - 1 = 0 -> heap s' !! h = None /\ (h ∉ files s')) /\
  (refcount fh - 1 <> 0 ->
     heap s' !! h =
       Some (set_locked false (set_refcount (refcount fh - 1) fh)) /\
     h ∈ files s') /\
  (index_in_memory (index s) = true ->
     fs (env s') = fs (env s) /\ next_fd (env s') = next_fd (env s) /\
     next_ino (env s') = next_ino (env s) /\
     forall k d, fdtab (env s') !! k = Some d -> fdtab (env s) !! k = Some d).
Proof.
  intros W Hh Hfh H. cbn zeta.
  apply rotate_cases in H as (h0 & fh0 & Hh0 & Hfh0 & Hl & H). cbn zeta in H.
  rewrite Hh in Hh0. injection Hh0 as <-.
  rewrite Hfh in Hfh0. injection Hfh0 as <-.
  destruct H as [(Hr & _)|(_ & s1 & nf & P & R & Hcase)]; [lia|].
  pose proof (wf_head _ W h Hh) as Hlt.
  assert (Hph : next_ptr s <> h) by lia.
  destruct P as [_ Pnp Phead Pof Pidx Pv Pfiles Pnew Pothers Prc].
  assert (Hfiles1 : forall q, q ∈ files s1 <-> q = h \/ q ∈ files s).
  { intros q. rewrite Pfiles. unfold link_state. snorm. rewrite Hh.
    case_bool_decide as Hin; [|apply elem_of_cons].
    split; [tauto|]. intros [->|?]; assumption. }
  assert (Hpf : next_ptr s ∉ files s1).
  { intros Hin. apply Hfiles1 in Hin as [Hin|Hin]; [lia|].
    apply (wf_files _ W) in Hin. lia. }
  assert (Hfh1 : heap s1 !! h = Some fh).
  { rewrite Pothers by lia. exact Hfh. }
  destruct (retires_and_installs_frame _ _ _ _ _ nf R Pnew Hph Hpf)
    as (F1 & F2 & F3 & F4 & F5 & F6 & F7 & F8 & F9 & F10 & F11 & F12).
  split; [exact Hl|]. split; [exact Hph|]. split; [exact F1|].
  split.
  { eexists. split; [exact F2|]. split; [cbn; lia|].
    intros Hmem. destruct Hcase as [(_ & _ & Hm & Hhdr)|(Hdisk & _)];
      [|congruence].
    split; [exact Hm|]. cbn. rewrite Hhdr.
    rewrite head_file_alloc by exact W.
    rewrite (head_file_Some _ _ _ Hh Hfh). reflexivity. }
  destruct R as (fh1 & s3 & nf' & Hfh1' & Hs3 & Hnf' & Hne & ->).
  rewrite Hfh1 in Hfh1'. injection Hfh1' as <-. cbn zeta in Hs3.
  assert (Hin2 : h ∈ files (store h (set_refcount (refcount fh - 1) fh) s1)).
  { snorm. apply Hfiles1. now left. }
  split; [|split].
  - intros Hz. destruct Hs3 as [(_ & Sw)|(Hnz & _)]; [|lia].
    assert (Hu : unreferenced (store h (set_refcount (refcount fh - 1) fh) s1) h).
    { eexists. split; [snorm; apply lookup_insert_eq|exact Hz]. }
    split.
    + snorm. rewrite lookup_insert_ne by exact Hph.
      exact (swept_gone _ _ _ Sw h Hin2 Hu).
    + snorm. intros Hin. apply (swept_files _ _ _ Sw) in Hin as [_ Hn].
      apply Hn. split; assumption.
  - intros Hnz. destruct Hs3 as [(Hz & _)|(_ & ->)]; [lia|].
    split.
    + snorm. rewrite lookup_insert_ne by exact Hph.
      apply lookup_insert_eq.
    + snorm. apply Hfiles1. now left.
  - intros Hmem. destruct Hcase as [(_ & He & _)|(Hdisk & _)]; [|congruence].
    rewrite <- He. auto.
Qed.

Lemma locked_for_sync_wf : wf_ptrs Samples.locked_for_sync.
Proof. exact (inv_ptrs _ (reachable_inv _ locked_for_sync_reachable)). Qed.

Lemma rotate_retires_the_old_head_witness :
  head Samples.rotated = Some 1%nat /\
  exists fh, heap Samples.locked_for_sync !! 0%nat = Some fh /\
    heap Samples.rotated !! 0%nat =
      Some (set_locked false (set_refcount (refcount fh - 1) fh)) /\
    0%nat ∈ files Samples.rotated.
Proof.
  assert (E : exists fh, heap Samples.locked_for_sync !! 0%nat = Some fh /\
                         refcount fh = 2)
    by (eexists; split; vm_compute; reflexivity).
  destruct E as (fh & E & Hrc).
  pose proof (rotate_retires_the_old_head Samples.locked_for_sync Samples.rotated
                0%nat fh locked_for_sync_wf eq_refl E) as H.
  cbn zeta in H.
  destruct H as (_ & _ & Hhd & _ & _ & Hkept & _); [vm_compute; reflexivity|].
  destruct Hkept as [Hk1 Hk2]; [lia|].
  split; [exact Hhd|]. exists fh. auto.
Defined.

(** ** Locking the head *)

Lemma retires_and_installs_head b h p s1 s' :
  retires_and_installs b h p s1 s' ->
  head s' = Some p /\ index s' = index s1 /\ next_ptr s' = next_ptr s1.
Proof.
  intros (fh1 & s3 & nf & _ & Hs3 & _ & _ & ->). cbn zeta in Hs3.
  split; [reflexivity|]. snorm.
  destruct Hs3 as [(_ & Sw)|(_ & ->)].
  - rewrite (swept_index _ _ _ Sw), (swept_next_ptr _ _ _ Sw). auto.
  - destruct b; auto.
Qed.

Lemma refresh_head s r s' :
  mail_transaction_log_refresh s = Ret r s' ->
  log_locked (index s') = log_locked (index s) /\
  (next_ptr s <= next_ptr s')%nat /\
  (r = 0 \/ r = -1) /\
  (s' = s \/ (r = -1 /\ head s' = head s) \/
   (r = 0 /\ head s' = Some (next_ptr s) /\ next_ptr s' = S (next_ptr s))).
Proof.
  intros H. apply refresh_cases in H as (h & fh & Hh & Hf & H). cbn zeta in H.
  destruct H as [(-> & ->)|[(-> & _ & H)|(-> & _ & d & _ & _ & _ & R)]].
  - auto.
  - destruct H as [->|[->|[->| ->]]]; snorm; auto 10.
  - apply retires_and_installs_head in R as (R1 & R2 & R3).
    rewrite R2, R3. snorm. auto 10.
Qed.

Lemma clean_head s r s' :
  mail_transaction_logs_clean s = Ret r s' ->
  head s' = head s /\ index s' = index s /\ next_ptr s' = next_ptr s.
Proof.
  intros H. unfold mail_transaction_logs_clean in H.
  apply bind_inv in H as (a & s0 & E & H). apply get_inv in E as [-> ->].
  apply clean_chain_swept in H.
  now rewrite (swept_head _ _ _ H), (swept_index _ _ _ H), (swept_next_ptr _ _ _ H).
Qed.

Lemma store_store q a b s : store q a (store q b s) = store q a s.
Proof. unfold store, with_heap. cbn. now rewrite insert_insert_eq. Qed.

Lemma store_id q f s : heap s !! q = Some f -> store q f s = s.
Proof.
  intros E. unfold store, with_heap. rewrite (insert_id _ _ _ E).
  now destruct s.
Qed.

(** The reference the loop took on the locked head is given back: the
    log is as the locking left it. *)
Lemma reference_given_back q fl sl :
  heap sl !! q = Some fl ->
  store q (set_refcount (refcount (set_refcount (refcount fl + 1) fl) - 1)
                        (set_refcount (refcount fl + 1) fl))
        (under_the_lock q fl sl) = sl.
Proof.
  intros Hfl. unfold under_the_lock. rewrite store_store.
  assert (E : set_refcount (refcount (set_refcount (refcount fl + 1) fl) - 1)
                           (set_refcount (refcount fl + 1) fl) = fl).
  { destruct fl. unfold set_refcount. cbn -[Z.add Z.sub]. f_equal. lia. }
  rewrite E. now apply store_id.
Qed.

Lemma lock_head_turn_cases s t s' :
  head_in_bounds s -> lock_head_turn s = Ret t s' ->
  head_in_bounds s' /\ log_locked (index s') = log_locked (index s) /\
  match t with
  | inl r => r = -1 \/ (r = 0 /\ locked_in_place s s')
  | inr _ => True
  end.
Proof.
  intros B H. unfold lock_head_turn in H.
  apply bind_inv in H as (? & ? & E0 & H). apply get_inv in E0 as [-> ->].
  apply bind_inv in H as (l & sl & El & H). pose proof El as Elock.
  apply file_lock_inv in El as (q & f & Hq & Hf & El).
  assert (El' : (l = -1 /\ sl = s) \/
                (l = 0 /\ exists fl, heap sl !! q = Some fl /\ locked fl = true /\
                   hdr fl = hdr f /\ sync_offset fl = sync_offset f /\
                   refcount fl = refcount f /\
                   (sl = s \/ sl = store q fl s))).
  { destruct El as [(-> & Hl & ->)|[(-> & _ & _ & ->)|(-> & _ & _ & ->)]].
    - right. split; [reflexivity|]. exists f. auto 10.
    - left. auto.
    - right. split; [reflexivity|]. exists (set_locked true f).
      split; [snorm; apply lookup_insert_eq|]. auto 10. }
  clear El.
  destruct El' as [(-> & ->)|(-> & fl & Hfl & Hlk & Hhdr & Hso & Hrc & Hsl)].
  { change (-1 <? 0) with true in H. cbv iota in H.
    apply ret_inv in H as [-> ->]. auto. }
  change (0 <? 0) with false in H. cbv iota in H.
  assert (Hsl' : head sl = head s /\ index sl = index s /\ env sl = env s /\
                 files sl = files s /\ next_ptr sl = next_ptr s).
  { destruct Hsl as [-> | ->]; snorm; auto. }
  destruct Hsl' as (Hhd & Hidx & Henv & Hfiles & Hnp). clear Hsl.
  apply bind_inv in H as ([] & s0 & E0 & H).
  apply update_inv in E0 as (q0 & f0 & Hq0 & Hf0 & ->).
  rewrite Hq in Hq0. injection Hq0 as <-.
  rewrite Hfl in Hf0. injection Hf0 as <-.
  apply bind_inv in H as (r & s1 & Er & H).
  pose proof (refresh_head _ _ _ Er) as (Rl & Rn & Rr & Rc).
  apply bind_inv in H as ([] & s2 & E0 & H).
  apply update_inv in E0 as (q0 & f1 & Hq0 & Hf1 & ->).
  rewrite Hq in Hq0. injection Hq0 as <-.
  apply bind_inv in H as (f2 & ? & E0 & H).
  apply deref_inv in E0 as (-> & q0 & Hq0 & Hf2).
  rewrite Hq in Hq0. injection Hq0 as <-.
  revert Hf2. snorm. rewrite lookup_insert_eq. intros [= <-].
  apply bind_inv in H as (file' & s3 & Ef & H).
  assert (Hs3 : head s3 = head s1 /\ index s3 = index s1 /\
                next_ptr s3 = next_ptr s1 /\
                ((file' = None) \/
                 (file' = Some q /\ refcount f1 - 1 <> 0 /\
                  s3 = store q (set_refcount (refcount f1 - 1) f1) s1))).
  { change (refcount (set_refcount (refcount f1 - 1) f1))
      with (refcount f1 - 1) in Ef.
    revert Ef. destruct (Z.eqb_spec (refcount f1 - 1) 0) as [Hz|Hnz].
    - intros Ef. apply bind_inv in Ef as (? & ? & Ec & Ef).
      apply ret_inv in Ef as [-> ->].
      apply clean_head in Ec as (-> & -> & ->). snorm. auto.
    - intros Ef. apply ret_inv in Ef as [-> ->]. snorm.
      rewrite Hq. auto 10. }
  clear Ef. destruct Hs3 as (Hhd3 & Hidx3 & Hnp3 & Hfile').
  apply bind_inv in H as (? & ? & E0 & H). apply get_inv in E0 as [-> ->].
  assert (Hb3 : head_in_bounds s3).
  { intros x Hx. rewrite Hhd3 in Hx. rewrite Hnp3.
    destruct Rc as [->|[(_ & Rc)|(_ & Rc & Rc')]].
    - revert Hx. snorm. rewrite Hhd, Hnp. apply B.
    - rewrite Rc in Hx. revert Hx Rn. snorm. rewrite Hhd, Hnp.
      intros Hx Rn. apply B in Hx. lia.
    - rewrite Rc in Hx. injection Hx as <-. lia. }
  assert (Hl3 : log_locked (index s3) = log_locked (index s)).
  { rewrite Hidx3, Rl. snorm. now rewrite Hidx. }
  destruct ((r =? 0) && bool_decide (head s3 = file')) eqn:Hsucc.
  - apply ret_inv in H as [-> ->].
    split; [exact Hb3|]. split; [exact Hl3|].
    apply andb_true_iff in Hsucc as [Hr Hsame].
    apply Z.eqb_eq in Hr as ->. apply bool_decide_eq_true_1 in Hsame.
    right. split; [reflexivity|].
    assert (Hhs0 : head (store q (set_refcount (refcount fl + 1) fl) sl) = Some q)
      by (snorm; now rewrite Hhd).
    assert (Hs1 : s1 = store q (set_refcount (refcount fl + 1) fl) sl).
    { destruct Rc as [->|[(Rc & _)|(_ & Rc & _)]]; [reflexivity|lia|].
      exfalso. rewrite Hhd3, Rc in Hsame. revert Hsame. snorm. rewrite Hnp.
      pose proof (B q Hq) as Hlt.
      destruct Hfile' as [->|(-> & _)]; [discriminate|].
      intros [= Hsame]. lia. }
    subst s1. rewrite Hhs0 in Hhd3.
    destruct Hfile' as [->|(-> & Hnz & ->)]; [congruence|].
    revert Hf1. snorm. rewrite lookup_insert_eq. intros [= <-].
    fold (under_the_lock q fl sl) in Er |- *.
    rewrite (reference_given_back q fl sl Hfl).
    exists q, fl.
    split; [exact Hq|]. split; [rewrite <- Hq; exact Elock|].
    split; [exact Hhs0|]. split; [exact Hfl|]. split; [exact Hlk|].
    exact Er.
  - assert (Hu : exists su, head su = head s3 /\ index su = index s3 /\
                   next_ptr su = next_ptr s3 /\
                   (if r <? 0 then ret (inl r) else ret (inr tt)) su = Ret t s').
    { apply bind_inv in H as ([] & su & Eu & H). exists su.
      split; [|split; [|split]]; try exact H.
      all: destruct file'; [unfold mail_transaction_log_file_unlock in Eu;
             apply update_inv in Eu as (? & ? & _ & _ & ->); reflexivity
           | apply ret_inv in Eu as [_ ->]; reflexivity]. }
    destruct Hu as (su & Hu1 & Hu2 & Hu3 & Hu).
    assert (Hbu : head_in_bounds su).
    { intros x Hx. rewrite Hu1 in Hx. rewrite Hu3. now apply Hb3. }
    destruct (Z.ltb_spec r 0).
    + apply ret_inv in Hu as [-> ->]. rewrite Hu2.
      split; [exact Hbu|]. split; [exact Hl3|]. left. lia.
    + apply ret_inv in Hu as [-> ->]. rewrite Hu2. auto.
Qed.

Lemma lock_head_cases fuel : forall s r s',
  head_in_bounds s -> mail_transaction_log_lock_head fuel s = Ret r s' ->
  head_in_bounds s' /\ log_locked (index s') = log_locked (index s) /\
  (r = -1 \/
   (r = 0 /\ exists st, head_in_bounds st /\ retried s st /\
                        lock_head_turn st = Ret (inl 0) s' /\
                        locked_in_place st s')).
Proof.
  induction fuel as [|n IH]; intros s r s' B H;
    cbn [mail_transaction_log_lock_head] in H; [discriminate|].
  apply bind_inv in H as (t & s1 & Et & H).
  pose proof (lock_head_turn_cases _ _ _ B Et) as (B1 & L1 & C).
  destruct t as [r0|[]].
  - apply ret_inv in H as [-> ->].
    split; [exact B1|]. split; [exact L1|].
    destruct C as [->|[-> C]]; [now left|right].
    split; [reflexivity|]. exists s.
    split; [exact B|]. split; [apply retried_none|]. auto.
  - apply IH in H as (B' & L' & C'); [|exact B1].
    split; [exact B'|]. split; [congruence|].
    destruct C' as [->|(-> & st & Bst & Rst & C')]; [now left|right].
    split; [reflexivity|]. exists st.
    split; [exact Bst|]. split; [exact (retried_turn s s1 st Et Rst)|exact C'].
Qed.

(** ** Refreshing under the lock *)

Lemma find_file_locked s h fh seq :
  head s = Some h -> heap s !! h = Some fh ->
  locked fh = true -> file_seq (hdr fh) < seq ->
  mail_transaction_log_find_file seq s = Ret (0, None) s.
Proof.
  intros Hh Hf Hl Hseq. unfold mail_transaction_log_find_file.
  unfold bind at 1, get. rewrite Hh.
  rewrite (bind_Ret _ _ _ _ _ (deref_Some _ _ _ Hf)).
  apply Z.ltb_lt in Hseq. rewrite Hseq, Hl. reflexivity.
Qed.

(** The loop of [mail_transaction_log_lock_head] is left in its first turn,
    with success, when the lock can be had, the file of the head is still
    the file at the path of the log, and the head is referenced. *)
Lemma lock_head_quiet n s q f :
  head s = Some q -> heap s !! q = Some f -> refcount f <> 0 ->
  (locked f = true \/ fails (env s) SysLock = false) ->
  (FILE_IN_MEMORY f = true \/
   (fails (env s) SysStat = false /\
    exists d, fs (env s) !! log_path_of s = Some d /\
              st_ino f = df_ino d /\ st_dev f = df_dev d)) ->
  exists s', mail_transaction_log_lock_head (S n) s = Ret 0 s' /\
             lock_head_turn s = Ret (inl 0) s' /\
             locked_in_place s s'.
Proof.
  intros Hq Hf Hrc Hlock Hsame.
  assert (El : exists fl sl,
             mail_transaction_log_file_lock (Some q) s = Ret 0 sl /\
             heap sl !! q = Some fl /\ locked fl = true /\
             same_identity f fl /\ sync_offset fl = sync_offset f /\
             refcount fl = refcount f /\
             head sl = head s /\ index sl = index s /\ env sl = env s /\
             files sl = files s).
  { unfold mail_transaction_log_file_lock.
    rewrite (bind_Ret _ _ _ _ _ (deref_Some _ _ _ Hf)).
    unfold bind at 1, get.
    destruct (locked f) eqn:Hl.
    - exists f, s. repeat split; auto.
    - destruct Hlock as [Hlock|Hlock]; [discriminate|]. rewrite Hlock.
      rewrite (bind_Ret _ _ _ _ _ (update_Some _ _ _ _ Hf)).
      exists (set_locked true f), (store q (set_locked true f) s).
      repeat split. snorm. apply lookup_insert_eq. }
  destruct El as (fl & sl & El & Hfl & Hlk & Hid & Hso & Hrcl & Hhd & Hidx & Henv & Hfiles).
  destruct Hid as (Hpath & Hhdr & Hino & Hdev & Hfd).
  set (f0 := set_refcount (refcount fl + 1) fl).
  set (s0 := store q f0 sl).
  assert (Hh0 : head s0 = Some q) by (subst s0; snorm; congruence).
  assert (Hf0 : heap s0 !! q = Some f0) by (subst s0; snorm; apply lookup_insert_eq).
  assert (Er : mail_transaction_log_refresh s0 = Ret 0 s0).
  { apply (refresh_noop s0 q f0 Hh0 Hf0).
    destruct Hsame as [Hm|(Hs & d & Hd & Hi & Hv)].
    - left. unfold FILE_IN_MEMORY in *. subst f0. cbn. now rewrite Hfd.
    - right. subst s0 f0. unfold log_path_of. snorm. rewrite Henv, Hidx.
      split; [exact Hs|]. exists d. cbn. rewrite Hino, Hdev. auto. }
  set (f1 := set_refcount (refcount f0 - 1) f0).
  set (s1 := store q f1 s0).
  assert (Hf1 : heap s1 !! q = Some f1) by (subst s1; snorm; apply lookup_insert_eq).
  assert (Hrc1 : (refcount f1 =? 0) = false).
  { apply Z.eqb_neq. subst f1 f0. cbn. lia. }
  assert (Et : lock_head_turn s = Ret (inl 0) s1).
  { unfold lock_head_turn. unfold bind at 1, get. rewrite Hq.
    rewrite (bind_Ret _ _ _ _ _ El).
    change (0 <? 0) with false. cbv iota.
    rewrite (bind_Ret _ _ _ _ _ (update_Some _ _ _ _ Hfl)).
    fold f0. fold s0.
    rewrite (bind_Ret _ _ _ _ _ Er).
    rewrite (bind_Ret _ _ _ _ _ (update_Some _ _ _ _ Hf0)).
    fold f1. fold s1.
    rewrite (bind_Ret _ _ _ _ _ (deref_Some _ _ _ Hf1)).
    rewrite Hrc1.
    unfold bind at 1, ret at 1.
    unfold bind at 1, get.
    assert (Hh1 : head s1 = Some q) by (subst s1; snorm; exact Hh0).
    rewrite Hh1. rewrite bool_decide_eq_true_2 by reflexivity.
    reflexivity. }
  assert (Es1 : s1 = sl) by exact (reference_given_back q fl sl Hfl).
  rewrite Es1 in Et.
  exists sl. split; [|split; [exact Et|]].
  - cbn [mail_transaction_log_lock_head].
    rewrite (bind_Ret _ _ _ _ _ Et). reflexivity.
  - exists q, fl.
    split; [exact Hq|]. split; [exact El|]. split; [congruence|].
    split; [exact Hfl|]. split; [exact Hlk|]. exact Er.
Qed.

(** C1 (as amended): [mail_transaction_log_refresh] does not read
    [head->locked].  It returns 0 and leaves the log as it is when the head
    is in memory or the file at the path of the log is the file of the
    head, by inode and device, whether the head is locked or not.  The lock
    is honoured by [mail_transaction_log_find_file], which returns 0 without
    refreshing when the head is locked.  And when
    [mail_transaction_log_lock_head] returns success, then, after the turns
    that asked to try again, its last turn took the lock on the head, ran
    the refresh on the state the locking left, with the reference of the
    loop on the head, and that refresh returned 0 and changed nothing: the
    log is left as the locking left it, the head being the file that was
    locked.  That success is had in the first turn when the lock can be
    had and the file of the head is still the file at the path. *)
Theorem refresh_under_the_lock s h fh :
  head s = Some h -> heap s !! h = Some fh ->
  ((FILE_IN_MEMORY fh = true \/
    (fails (env s) SysStat = false /\
     exists d, fs (env s) !! log_path_of s = Some d /\
               st_ino fh = df_ino d /\ st_dev fh = df_dev d)) ->
   mail_transaction_log_refresh s = Ret 0 s) /\
  (locked fh = true -> forall seq, file_seq (hdr fh) < seq ->
   mail_transaction_log_find_file seq s = Ret (0, None) s) /\
  ((h < next_ptr s)%nat -> forall fuel r s',
   mail_transaction_log_lock_head fuel s = Ret r s' -> 0 <= r ->
   r = 0 /\
   exists st, retried s st /\ lock_head_turn st = Ret (inl 0) s' /\
              locked_in_place st s') /\
  (refcount fh <> 0 ->
   (locked fh = true \/ fails (env s) SysLock = false) ->
   (FILE_IN_MEMORY fh = true \/
    (fails (env s) SysStat = false /\
     exists d, fs (env s) !! log_path_of s = Some d /\
               st_ino fh = df_ino d /\ st_dev fh = df_dev d)) ->
   forall n, exists s',
     mail_transaction_log_lock_head (S n) s = Ret 0 s' /\
     lock_head_turn s = Ret (inl 0) s' /\ locked_in_place s s').
Proof.
  intros Hh Hf. split; [|split; [|split]].
  - apply (refresh_noop s h fh); assumption.
  - intros Hl seq Hseq. eapply find_file_locked; eauto.
  - intros Hlt fuel r s' H Hr.
    assert (B : head_in_bounds s).
    { intros q Hq. rewrite Hh in Hq. now injection Hq as <-. }
    destruct (lock_head_cases fuel s r s' B H) as (_ & _ & [->|(-> & st & _ & C)]);
      [lia|].
    split; [reflexivity|]. exists st. exact C.
  - intros Hrc Hlock Hsame n.
    exact (lock_head_quiet n s h fh Hh Hf Hrc Hlock Hsame).
Qed.

Lemma refresh_under_the_lock_witness :
  mail_transaction_log_refresh Samples.locked_for_sync
  = Ret 0 Samples.locked_for_sync /\
  mail_transaction_log_find_file 2 Samples.locked_for_sync
  = Ret (0, None) Samples.locked_for_sync /\
  exists s' st,
    mail_transaction_log_lock_head 2 Samples.behind_disk = Ret 0 s' /\
    retried Samples.behind_disk st /\ locked_in_place st s'.
Proof.
  assert (E : exists fh, heap Samples.locked_for_sync !! 0%nat = Some fh /\
                locked fh = true /\ file_seq (hdr fh) = 1 /\
                st_ino fh = 100 /\ st_dev fh = 1)
    by (eexists; split; [vm_compute; reflexivity|]; repeat split).
  destruct E as (fh & E & Hl & Hseq & Hino & Hdev).
  destruct (refresh_under_the_lock Samples.locked_for_sync 0%nat fh eq_refl E)
    as (Hrefresh & Hfind & _ & _).
  split; [|split].
  - apply Hrefresh. right. split; [vm_compute; reflexivity|].
    eexists. split; [vm_compute; reflexivity|]. rewrite Hino, Hdev. split; reflexivity.
  - apply Hfind; [exact Hl|lia].
  - destruct (refresh_under_the_lock Samples.behind_disk 0%nat
                (Samples.disk_log_file 1 7 3 false 2) eq_refl eq_refl)
      as (_ & _ & Hlock & _).
    destruct (Hlock (Nat.lt_0_1) 2%nat 0
                (state_after (mail_transaction_log_lock_head 2)
                             Samples.behind_disk))
      as (_ & st & Hretried & _ & Hplace);
      [vm_compute; reflexivity|lia|].
    exists (state_after (mail_transaction_log_lock_head 2) Samples.behind_disk), st.
    split; [vm_compute; reflexivity|]. split; [exact Hretried|exact Hplace].
Defined.
(** The head is locked, another file is at the path of the log: the refresh
    returns 0, and the head is the new file. *)
Lemma refresh_is_noop_when_locked_fails :
  ~ refresh_is_noop_when_locked Samples.locked_behind_disk.
Proof.
  intros H.
  assert (Hf : head_file Samples.locked_behind_disk
               = Some (Samples.disk_log_file 1 7 3 true 2))
    by (vm_compute; reflexivity).
  destruct (H _ Hf eq_refl) as (s' & E & Hhead).
  vm_compute in E. injection E as <-. vm_compute in Hhead. discriminate.
Qed.

(** ** Locking for a sync *)

Lemma sync_lock_inv fuel s r out s' :
  head_in_bounds s ->
  mail_transaction_log_sync_lock fuel s = Ret (r, out) s' ->
  log_locked (index s) = false /\
  ((r = 0 /\ log_locked (index s') = true /\
    exists h fh, head s' = Some h /\ heap s' !! h = Some fh /\
                 locked fh = true /\
                 out = Some (file_seq (hdr fh), sync_offset fh)) \/
   (r = -1 /\ out = None /\ log_locked (index s') = false)).
Proof.
  intros B H. unfold mail_transaction_log_sync_lock in H.
  apply bind_inv in H as (? & ? & E0 & H). apply get_inv in E0 as [-> ->].
  apply bind_inv in H as ([] & ? & E0 & H).
  apply i_assert_inv in E0 as [Hn ->].
  apply negb_true_iff in Hn. split; [exact Hn|].
  apply bind_inv in H as (l & s1 & El & H).
  pose proof (lock_head_cases _ _ _ _ B El) as (B1 & L1 & C).
  rewrite Hn in L1.
  destruct C as [->|(-> & st & _ & _ & _ & C)].
  { change (-1 <? 0) with true in H. cbv iota in H.
    apply ret_inv in H as [[= -> ->] ->]. right. auto. }
  change (0 <? 0) with false in H. cbv iota in H.
  destruct C as (q & f' & _ & _ & Hh1 & Hf1 & Hl1 & _).
  apply bind_inv in H as (? & ? & E0 & H). apply get_inv in E0 as [-> ->].
  apply bind_inv in H as (h & ? & E0 & H).
  apply deref_inv in E0 as (-> & q0 & Hq0 & Hh).
  rewrite Hh1 in Hq0. injection Hq0 as <-.
  rewrite Hf1 in Hh. injection Hh as <-.
  apply bind_inv in H as (m & s2 & Em & H).
  apply file_map_inv in Em as (q0 & f0 & Hq0 & Hf0 & Em).
  rewrite Hh1 in Hq0. injection Hq0 as <-.
  rewrite Hf1 in Hf0. injection Hf0 as <-.
  assert (Hs2 : head s2 = Some q /\ log_locked (index s2) = false /\
                exists f2, heap s2 !! q = Some f2 /\ locked f2 = true).
  { destruct Em as [(_ & ->)|[(_ & ->)|(d & _ & _ & ->)]].
    - eauto.
    - snorm. eauto.
    - snorm. split; [exact Hh1|]. split; [exact L1|].
      eexists. split; [apply lookup_insert_eq|exact Hl1]. }
  clear Em. destruct Hs2 as (Hh2 & L2 & f2 & Hf2 & Hl2).
  rewrite Hh1 in H.
  destruct (m <? 0).
  - apply bind_inv in H as ([] & s3 & Eu & H).
    apply ret_inv in H as [[= -> ->] ->].
    unfold mail_transaction_log_file_unlock in Eu.
    apply update_inv in Eu as (? & ? & _ & _ & ->).
    right. snorm. auto.
  - apply bind_inv in H as ([] & s3 & El3 & H).
    unfold set_log_locked in El3. apply modify_inv in El3 as ->.
    apply bind_inv in H as (h' & ? & E0 & H).
    apply deref_inv in E0 as (-> & q0 & [= <-] & Hh').
    apply ret_inv in H as [[= -> ->] ->].
    revert Hh'. snorm. rewrite Hf2. intros [= <-].
    left. split; [reflexivity|]. split; [reflexivity|].
    exists q, f2. rewrite Hh2. auto.
Qed.







Lemma pinned_in_bounds : head_in_bounds Samples.pinned.
Proof.
  intros q Hq. exact (wf_head _ (inv_ptrs _ (reachable_inv _ pinned_reachable)) q Hq).
Qed.



(** ** Finding a file *)

Lemma scan_chain_miss l seq : forall s,
  chain_misses s l seq -> scan_chain l seq s = Ret None s.
Proof.
  induction l as [|q l IH]; intros s Hm; cbn [scan_chain]; [reflexivity|].
  destruct (Hm q) as (fq & Hfq & Hne); [left|].
  rewrite (bind_Ret _ _ _ _ _ (deref_Some _ _ _ Hfq)).
  apply Z.eqb_neq in Hne. rewrite Hne.
  apply IH. intros x Hx. apply Hm. now right.
Qed.

Lemma scan_chain_hit l1 q l2 seq s fq :
  chain_misses s l1 seq -> heap s !! q = Some fq -> file_seq (hdr fq) = seq ->
  scan_chain (l1 ++ q :: l2) seq s = Ret (Some q) s.
Proof.
  revert s. induction l1 as [|x l1 IH]; intros s Hm Hfq Hseq.
  - cbn [app scan_chain].
    rewrite (bind_Ret _ _ _ _ _ (deref_Some _ _ _ Hfq)).
    apply Z.eqb_eq in Hseq. now rewrite Hseq.
  - cbn [app scan_chain].
    destruct (Hm x) as (fx & Hfx & Hne); [left|].
    rewrite (bind_Ret _ _ _ _ _ (deref_Some _ _ _ Hfx)).
    apply Z.eqb_neq in Hne. rewrite Hne.
    apply IH; auto. intros y Hy. apply Hm. now right.
Qed.

Lemma find_on_chain s l1 q l2 seq fq :
  files s = l1 ++ q :: l2 ->
  chain_misses s l1 seq -> heap s !! q = Some fq -> file_seq (hdr fq) = seq ->
  find_in_chain_or_archive seq s = Ret (1, Some q) s.
Proof.
  intros Hfiles Hm Hfq Hseq. unfold find_in_chain_or_archive.
  unfold bind at 1, get. rewrite Hfiles.
  rewrite (bind_Ret _ _ _ _ _ (scan_chain_hit _ _ _ _ _ _ Hm Hfq Hseq)).
  reflexivity.
Qed.

Lemma find_in_memory_misses s seq :
  chain_misses s (files s) seq -> index_in_memory (index s) = true ->
  find_in_chain_or_archive seq s = Ret (0, None) s.
Proof.
  intros Hm Hmem. unfold find_in_chain_or_archive.
  unfold bind at 1, get.
  rewrite (bind_Ret _ _ _ _ _ (scan_chain_miss _ _ _ Hm)).
  now rewrite Hmem.
Qed.

Lemma archive_open_run p path s :
  heap s !! p = Some (blank_file path) ->
  mail_transaction_log_file_open (Some p) true s =
    if fails (env s) SysOpen
    then Ret (-1) (record_syscall_error path "open()" s)
    else match fs (env s) !! path with
         | None => Ret 0 s
         | Some d => if negb (df_valid d) then Ret 0 s
                     else Ret 1 (attach_state p d (blank_file path) s)
         end.
Proof.
  intros Hb. unfold mail_transaction_log_file_open.
  rewrite (bind_Ret _ _ _ _ _ (deref_Some _ _ _ Hb)).
  unfold bind at 1, get.
  change (filepath (blank_file path)) with path.
  destruct (fails (env s) SysOpen); [reflexivity|].
  destruct (fs (env s) !! path) as [d|]; [|reflexivity].
  destruct (negb (df_valid d)); [reflexivity|].
  unfold attach_disk_file. unfold_all. rewrite Hb. reflexivity.
Qed.

Lemma find_in_archive s seq :
  chain_misses s (files s) seq -> index_in_memory (index s) = false ->
  find_in_chain_or_archive seq s = archive_outcome s seq.
Proof.
  intros Hm Hdisk. unfold find_in_chain_or_archive, archive_outcome.
  unfold bind at 1, get.
  rewrite (bind_Ret _ _ _ _ _ (scan_chain_miss _ _ _ Hm)).
  rewrite Hdisk. fold (archive_path_of s).
  rewrite (bind_Ret _ _ _ _ _ (file_alloc_run _ _)).
  set (sa := alloc_state (archive_path_of s) s).
  assert (Hb : heap sa !! next_ptr s = Some (blank_file (archive_path_of s)))
    by apply lookup_insert_eq.
  pose proof (archive_open_run _ _ _ Hb) as Eo.
  change (env sa) with (env s) in Eo.
  destruct (fails (env s) SysOpen);
    [now rewrite (bind_Ret _ _ _ _ _ Eo)|].
  destruct (fs (env s) !! archive_path_of s) as [d|];
    [|now rewrite (bind_Ret _ _ _ _ _ Eo)].
  destruct (negb (df_valid d)); [now rewrite (bind_Ret _ _ _ _ _ Eo)|].
  rewrite (bind_Ret _ _ _ _ _ Eo).
  change (1 <=? 0) with false. cbv iota.
  set (st := attach_state _ _ _ sa).
  assert (Hst : heap st !! next_ptr s
                = Some (load_disk_file d (env sa) (blank_file (archive_path_of s))))
    by apply lookup_insert_eq.
  rewrite (bind_Ret _ _ _ _ _ (deref_Some _ _ _ Hst)).
  change (file_seq (hdr (load_disk_file d (env sa)
                           (blank_file (archive_path_of s)))))
    with (df_seq d).
  now destruct (df_seq d =? seq).
Qed.

Lemma find_file_below s h fh seq :
  head s = Some h -> heap s !! h = Some fh -> seq <= file_seq (hdr fh) ->
  mail_transaction_log_find_file seq s = find_in_chain_or_archive seq s.
Proof.
  intros Hh Hf Hseq. unfold mail_transaction_log_find_file.
  unfold bind at 1, get. rewrite Hh.
  rewrite (bind_Ret _ _ _ _ _ (deref_Some _ _ _ Hf)).
  apply Z.ltb_ge in Hseq. now rewrite Hseq.
Qed.

Lemma find_file_refreshes s h fh seq r s1 :
  head s = Some h -> heap s !! h = Some fh ->
  file_seq (hdr fh) < seq -> locked fh = false ->
  mail_transaction_log_refresh s = Ret r s1 ->
  (r < 0 -> mail_transaction_log_find_file seq s = Ret (-1, None) s1) /\
  (0 <= r -> forall fh1, head_file s1 = Some fh1 ->
     (file_seq (hdr fh1) < seq ->
      mail_transaction_log_find_file seq s = Ret (0, None) s1) /\
     (seq <= file_seq (hdr fh1) ->
      mail_transaction_log_find_file seq s = find_in_chain_or_archive seq s1)).
Proof.
  intros Hh Hf Hseq Hl Er.
  assert (E : mail_transaction_log_find_file seq s =
              (if r <? 0 then ret (-1, None)
               else (s' <- get ;;
                     h' <- deref (head s') ;;
                     if file_seq (hdr h') <? seq then ret (0, None)
                     else find_in_chain_or_archive seq)) s1).
  { unfold mail_transaction_log_find_file.
    unfold bind at 1, get. rewrite Hh.
    rewrite (bind_Ret _ _ _ _ _ (deref_Some _ _ _ Hf)).
    apply Z.ltb_lt in Hseq. rewrite Hseq, Hl.
    now rewrite (bind_Ret _ _ _ _ _ Er). }
  rewrite E. split.
  - intros Hr. apply Z.ltb_lt in Hr. now rewrite Hr.
  - intros Hr fh1 Hfh1. apply Z.ltb_ge in Hr. rewrite Hr.
    apply head_file_inv in Hfh1 as (h1 & Hh1 & Hf1).
    split; intros Hc; unfold bind at 1, get; rewrite Hh1;
      rewrite (bind_Ret _ _ _ _ _ (deref_Some _ _ _ Hf1)); cbv beta.
    + apply Z.ltb_lt in Hc. rewrite Hc. reflexivity.
    + apply Z.ltb_ge in Hc. rewrite Hc. reflexivity.
Qed.

Lemma find_file_not_rotated s h fh :
  head s = Some h -> heap s !! h = Some fh -> not_rotated s fh ->
  mail_transaction_log_find_file (file_seq (hdr fh) + 1) s = Ret (0, None) s.
Proof.
  intros Hh Hf Hn.
  destruct (locked fh) eqn:Hl.
  { apply (find_file_locked s h fh); auto; lia. }
  assert (Er : mail_transaction_log_refresh s = Ret 0 s).
  { apply (refresh_noop s h fh); auto.
    destruct Hn as [Hn|[Hn|Hn]]; [congruence|now left|now right]. }
  destruct (find_file_refreshes s h fh (file_seq (hdr fh) + 1) 0 s Hh Hf)
    as [_ H]; [lia|exact Hl|exact Er|].
  destruct (H (Z.le_refl 0) fh (head_file_Some _ _ _ Hh Hf)) as [H0 _].
  apply H0. lia.
Qed.

(** C5: the order of the search of [mail_transaction_log_find_file].  For a
    sequence above the head's: nothing is looked at when the head is
    locked, and the result is 0; otherwise the log is refreshed first, a
    failure of which gives -1, and the result is 0 when the sequence is
    still above the head's.  Then the chain is scanned, and its first file
    with that sequence is found, with result 1, without the archive being
    opened.  Only when the chain has missed, and the index is on disk, is
    the [.2] archive opened: 1 when it holds that sequence, 0 when it does
    not or is absent, -1 when opening fails.  In particular, when no
    rotation has occurred, the sequence after the head's is not found:
    the result is 0, not -1. *)
Theorem find_file_order s h fh seq :
  head s = Some h -> heap s !! h = Some fh ->
  (file_seq (hdr fh) < seq -> locked fh = true ->
   mail_transaction_log_find_file seq s = Ret (0, None) s) /\
  (file_seq (hdr fh) < seq -> locked fh = false ->
   forall r s1, mail_transaction_log_refresh s = Ret r s1 ->
     (r < 0 -> mail_transaction_log_find_file seq s = Ret (-1, None) s1) /\
     (0 <= r -> forall fh1, head_file s1 = Some fh1 ->
        (file_seq (hdr fh1) < seq ->
         mail_transaction_log_find_file seq s = Ret (0, None) s1) /\
        (seq <= file_seq (hdr fh1) ->
         mail_transaction_log_find_file seq s
         = find_in_chain_or_archive seq s1))) /\
  (seq <= file_seq (hdr fh) ->
   mail_transaction_log_find_file seq s = find_in_chain_or_archive seq s) /\
  (forall l1 q l2 fq,
     files s = l1 ++ q :: l2 -> chain_misses s l1 seq ->
     heap s !! q = Some fq -> file_seq (hdr fq) = seq ->
     find_in_chain_or_archive seq s = Ret (1, Some q) s) /\
  (chain_misses s (files s) seq ->
   find_in_chain_or_archive seq s =
     if index_in_memory (index s) then Ret (0, None) s
     else archive_outcome s seq) /\
  (not_rotated s fh ->
   mail_transaction_log_find_file (file_seq (hdr fh) + 1) s = Ret (0, None) s).
Proof.
  intros Hh Hf.
  split; [|split; [|split; [|split; [|split]]]].
  - intros Hseq Hl. apply (find_file_locked s h fh); auto.
  - intros Hseq Hl r s1 Er.
    exact (find_file_refreshes s h fh seq r s1 Hh Hf Hseq Hl Er).
  - intros Hseq. apply (find_file_below s h fh); auto.
  - intros l1 q l2 fq. apply find_on_chain.
  - intros Hm. destruct (index_in_memory (index s)) eqn:Hmem.
    + now apply find_in_memory_misses.
    + now apply find_in_archive.
  - intros Hn. apply (find_file_not_rotated s h fh); auto.
Qed.

(** After the rotation of the sample log the old file is found on the
    chain, and the sequence after the new head's is not found. *)
Lemma find_file_order_witness :
  mail_transaction_log_find_file 1 Samples.rotated
  = Ret (1, Some 0%nat) Samples.rotated /\
  mail_transaction_log_find_file 3 Samples.rotated
  = Ret (0, None) Samples.rotated.
Proof.
  assert (E : exists fh, heap Samples.rotated !! 1%nat = Some fh /\
                file_seq (hdr fh) = 2 /\ st_ino fh = 101 /\ st_dev fh = 1)
    by (eexists; split; [vm_compute; reflexivity|]; repeat split).
  destruct E as (fh & E & Hseq & Hino & Hdev).
  assert (E0 : exists fq, heap Samples.rotated !! 0%nat = Some fq /\
                 file_seq (hdr fq) = 1)
    by (eexists; split; [vm_compute; reflexivity|]; reflexivity).
  destruct E0 as (fq & E0 & Hseq0).
  destruct (find_file_order Samples.rotated 1%nat fh 1 eq_refl E)
    as (_ & _ & Hbelow & Hchain & _).
  destruct (find_file_order Samples.rotated 1%nat fh 3 eq_refl E)
    as (_ & _ & _ & _ & _ & Hnext).
  split.
  - rewrite Hbelow by lia.
    apply (Hchain [] 0%nat [] fq); [vm_compute; reflexivity| |exact E0|exact Hseq0].
    intros x Hx. now apply not_elem_of_nil in Hx.
  - rewrite Hseq in Hnext. apply Hnext. right; right.
    split; [vm_compute; reflexivity|].
    eexists. split; [vm_compute; reflexivity|].
    rewrite Hino, Hdev. split; reflexivity.
Defined.

(** * The configuration filter: ordering, supersets and matching *)

Module ConfigMatchFacts.
Import ConfigFilter ConfigMatch.
Import Stdlib.Strings.Ascii.

Ltac by_cases_on_filters :=
  unfold config_filter_cmp, config_filter_is_superset, non_null;
  repeat match goal with
         | |- context [local_name ?f] => destruct (local_name f)
         | |- context [service ?f] => destruct (service f)
         end;
  cbn [andb negb fst snd];
  repeat match goal with
         | |- context [?a <? ?b] => destruct (Z.ltb_spec a b)
         end;
  cbn [andb negb fst snd]; try reflexivity; try lia; try discriminate.

Lemma cmp_flip f1 f2 : config_filter_cmp f1 f2 = - config_filter_cmp f2 f1.
Proof. by_cases_on_filters. Qed.

(** X1: [config_filter_parser_cmp] is antisymmetric, as a comparator given
    to a sort has to be: exchanging the two parsers negates the result, and
    a parser compared with itself gives 0.  [config_filter_parser_cmp_rev]
    is the same comparison with its arguments exchanged. *)
Theorem parser_cmp_antisymmetric (P : Type) (p1 p2 : config_filter_parser P) :
  config_filter_parser_cmp P p1 p2 = - config_filter_parser_cmp P p2 p1 /\
  config_filter_parser_cmp P p1 p1 = 0 /\
  config_filter_parser_cmp_rev P p1 p2 = config_filter_parser_cmp P p2 p1.
Proof.
  unfold config_filter_parser_cmp_rev, config_filter_parser_cmp.
  pose proof (cmp_flip (filter P p1) (filter P p2)).
  pose proof (cmp_flip (filter P p1) (filter P p1)).
  lia.
Qed.

(** The keys the comparator reads, most significant first. *)
Lemma cmp_nonpositive f1 f2 :
  config_filter_cmp f1 f2 <= 0 <->
  (non_null (local_name f1) = true /\ non_null (local_name f2) = false) \/
  (non_null (local_name f1) = non_null (local_name f2) /\
   (local_bits f2 < local_bits f1 \/
    (local_bits f1 = local_bits f2 /\
     (remote_bits f2 < remote_bits f1 \/
      (remote_bits f1 = remote_bits f2 /\
       (non_null (service f1) = true \/ non_null (service f2) = false)))))).
Proof.
  unfold config_filter_cmp, non_null.
  destruct (local_name f1), (local_name f2), (service f1), (service f2);
    cbn [andb negb];
    repeat match goal with
           | |- context [?a <? ?b] => destruct (Z.ltb_spec a b)
           end;
    split; intros; try lia; try tauto; try (intuition (discriminate || lia)).
Qed.

(** X2: [config_filter_parser_cmp] is transitive: it orders the parsers
    consistently, whatever the sort compares. *)
Theorem parser_cmp_transitive (P : Type) (p1 p2 p3 : config_filter_parser P) :
  config_filter_parser_cmp P p1 p2 <= 0 ->
  config_filter_parser_cmp P p2 p3 <= 0 ->
  config_filter_parser_cmp P p1 p3 <= 0.
Proof.
  unfold config_filter_parser_cmp. rewrite !cmp_nonpositive.
  destruct (non_null (local_name (filter P p1))),
           (non_null (local_name (filter P p2))),
           (non_null (local_name (filter P p3))),
           (non_null (service (filter P p1))),
           (non_null (service (filter P p2))),
           (non_null (service (filter P p3)));
    intuition (try discriminate; try lia).
Qed.

Lemma parser_cmp_transitive_witness :
  config_filter_parser_cmp unit
    (FilterParser unit (Filter None (Some "mail.example.org") 0 0) "a:1" [])
    (FilterParser unit (Filter (Some "imap") None 0 0) "a:3" []) <= 0.
Proof.
  apply (parser_cmp_transitive unit _
           (FilterParser unit (Filter None None 24 0) "a:2" []));
    vm_compute; discriminate.
Defined.

(** X3: a filter that [config_filter_is_superset] accepts as a superset of
    another is never sorted before it by [config_filter_parser_cmp]: the
    loop of [config_filter_parsers_get], which asks for [src[i]] being a
    superset of [src[i-1]], agrees with the order of the sort. *)
Theorem superset_sorts_after (sup f : config_filter) :
  fst (config_filter_is_superset sup f) = true ->
  config_filter_cmp f sup <= 0.
Proof. by_cases_on_filters. Qed.

Lemma superset_sorts_after_witness :
  config_filter_cmp (Filter (Some "imap") (Some "mail.example.org") 24 0)
                    (Filter None None 0 0) <= 0.
Proof. apply superset_sorts_after. reflexivity. Defined.

(** X4: two filters are supersets of each other exactly when the
    comparator ties on them. *)
Theorem mutual_supersets_tie (f1 f2 : config_filter) :
  fst (config_filter_is_superset f1 f2) && fst (config_filter_is_superset f2 f1)
  = (config_filter_cmp f1 f2 =? 0).
Proof.
  destruct (Z.eqb_spec (config_filter_cmp f1 f2) 0) as [E|E]; revert E;
    by_cases_on_filters.
Qed.

(** X5: [config_filter_is_superset] is reflexive and transitive. *)
Theorem superset_preorder (f1 f2 f3 : config_filter) :
  fst (config_filter_is_superset f1 f1) = true /\
  (fst (config_filter_is_superset f1 f2) = true ->
   fst (config_filter_is_superset f2 f3) = true ->
   fst (config_filter_is_superset f1 f3) = true).
Proof.
  split; [by_cases_on_filters|].
  unfold config_filter_is_superset.
  destruct (local_name f1), (local_name f2), (local_name f3),
           (service f1), (service f2), (service f3);
    repeat match goal with
           | |- context [?a <? ?b] => destruct (Z.ltb_spec a b)
           end;
    cbn [fst]; intros; try reflexivity; try discriminate; try lia.
Qed.

(** X6: [config_filter_is_superset] calls [i_warning] exactly when the two
    comparisons of the bits let the call through and [sup] has a local name
    that [filter] lacks; the line is that name, and the answer is then
    false: a filter is never accepted with a warning. *)
Theorem superset_warns_exactly (sup f : config_filter) :
  (snd (config_filter_is_superset sup f) <> [] <->
   local_bits sup <= local_bits f /\ remote_bits sup <= remote_bits f /\
   local_name sup <> None /\ local_name f = None) /\
  (forall n, n ∈ snd (config_filter_is_superset sup f) ->
             local_name sup = Some n) /\
  (fst (config_filter_is_superset sup f) = true ->
   snd (config_filter_is_superset sup f) = []).
Proof.
  unfold config_filter_is_superset.
  destruct (Z.ltb_spec (local_bits f) (local_bits sup));
    [|destruct (Z.ltb_spec (remote_bits f) (remote_bits sup));
      [|destruct (local_name sup) as [n|], (local_name f), (service sup), (service f)]];
    cbn [fst snd]; (split; [split|split]);
    try (intros; exfalso; congruence); try reflexivity; try discriminate;
    try (intros (? & ? & ? & ?); lia || congruence);
    try (intros; repeat split; (lia || congruence));
    try (intros ? Hin; apply list_elem_of_singleton in Hin; congruence);
    try (intros ? Hin; now apply not_elem_of_nil in Hin).
Qed.

(** X7: for a filter that names a service, the mask [!name] matches it
    exactly when the mask [name] does not. *)
Theorem negated_service_complements (n fs : string) (m f : config_filter) :
  plain_name n -> service m = Some n -> service f = Some fs ->
  config_filter_match_service
    (Filter (Some (String "!"%char n)) (local_name m) (local_bits m) (remote_bits m)) f
  = negb (config_filter_match_service m f).
Proof.
  intros Hn Hm Hf. unfold config_filter_match_service. cbn [service].
  rewrite Hm, Hf.
  destruct n as [|c n']; [now destruct (String.eqb fs "")|].
  cbn in Hn.
  destruct (Ascii.eqb_spec c "!"%char) as [->|Hc]; [congruence|].
  destruct c as [[] [] [] [] [] [] [] []];
    try (now destruct (String.eqb fs _)); congruence.
Qed.

Lemma negated_service_complements_witness :
  config_filter_match_service (Filter (Some "!imap") None 0 0)
                              (Filter (Some "pop3") None 0 0)
  = negb (config_filter_match_service (Filter (Some "imap") None 0 0)
                                      (Filter (Some "pop3") None 0 0)).
Proof.
  apply (negated_service_complements "imap" "pop3"
           (Filter (Some "imap") None 0 0) (Filter (Some "pop3") None 0 0));
    [cbn; discriminate | reflexivity | reflexivity].
Defined.

(** *** The names of a mask *)

Lemma strchr_space_names s :
  match strchr_space s with
  | Some (name, after) =>
    names_of s = name :: names_of after /\
    (String.length after < String.length s)%nat
  | None => names_of s = [s]
  end.
Proof.
  induction s as [|c s IH]; cbn [strchr_space names_of]; [reflexivity|].
  destruct (Ascii.eqb c " "); [cbn; split; [reflexivity|lia]|].
  destruct (strchr_space s) as [[name after]|].
  - destruct IH as [-> Hlen]. cbn. split; [reflexivity|lia].
  - now rewrite IH.
Qed.

Lemma names_of_first s : exists name names, names_of s = name :: names.
Proof.
  induction s as [|c s (name & names & IH)]; cbn [names_of]; [eauto|].
  destruct (Ascii.eqb c " "); [eauto|]. rewrite IH. eauto.
Qed.

Lemma match_local_name_loop_names dns fuel : forall f s,
  (String.length s < fuel)%nat ->
  match_local_name_loop dns fuel f s
  = Some (existsb (fun name => dns f name =? 0) (names_of s)).
Proof.
  induction fuel as [|n IH]; intros f s Hlen; [lia|].
  cbn [match_local_name_loop].
  pose proof (strchr_space_names s) as Hs.
  destruct (strchr_space s) as [[name after]|].
  - destruct Hs as [-> Hlt]. cbn [existsb].
    destruct (dns f name =? 0); [reflexivity|].
    apply IH. lia.
  - rewrite Hs. cbn [existsb]. now rewrite orb_false_r.
Qed.

(** X8: the local name of a mask is a list of names separated by single
    spaces, and [config_filter_match_local_name] answers, for every mask
    and every name, whether [dns_match_wildcard] accepts one name of the
    list; where two spaces meet, or the list begins or ends with a space,
    the empty name is one of them. *)
Theorem match_local_name_tries_each_name
    (dns_match_wildcard : string -> string -> Z) (mask_names name : string) :
  config_filter_match_local_name dns_match_wildcard mask_names name
  = Some (existsb (fun n => dns_match_wildcard name n =? 0)
                  (names_of mask_names)) /\
  names_of (mask_names +:+ " ") = names_of mask_names ++ [""].
Proof.
  split.
  - apply match_local_name_loop_names. lia.
  - induction mask_names as [|c s IH]; [reflexivity|].
    change (String c s +:+ " ") with (String c (s +:+ " ")).
    cbn [names_of]. rewrite IH.
    destruct (Ascii.eqb c " "); [reflexivity|].
    destruct (names_of_first s) as (n & ns & ->). reflexivity.
Qed.

(** *** Matching *)

(** X9: a mask matches only filters that are at least as restricted as it
    is: when [config_filter_match] accepts a filter, the filter names a
    service, has a local name, and has remote and local bits wherever the
    mask does; and the mask that restricts nothing accepts every filter. *)
Theorem match_needs_every_restriction
    (ip : Type) (in_network : ip -> ip -> Z -> bool)
    (dns : string -> string -> Z) (mask f : net_filter ip) :
  (config_filter_match ip in_network dns mask f = Some true ->
   (service (base ip mask) <> None -> service (base ip f) <> None) /\
   (local_name (base ip mask) <> None -> local_name (base ip f) <> None) /\
   (remote_bits (base ip mask) <> 0 -> remote_bits (base ip f) <> 0) /\
   (local_bits (base ip mask) <> 0 -> local_bits (base ip f) <> 0)) /\
  (service (base ip mask) = None -> local_name (base ip mask) = None ->
   remote_bits (base ip mask) = 0 -> local_bits (base ip mask) = 0 ->
   config_filter_match ip in_network dns mask f = Some true).
Proof.
  unfold config_filter_match, config_filter_match_rest,
    config_filter_match_service.
  split.
  - destruct (service (base ip mask)) as [ms|], (service (base ip f)) as [fs|];
      destruct (local_name (base ip mask)) as [mn|],
               (local_name (base ip f)) as [fn|];
      try destruct (config_filter_match_local_name dns mn fn) as [[]|];
      destruct (Z.eqb_spec (remote_bits (base ip mask)) 0),
               (Z.eqb_spec (remote_bits (base ip f)) 0),
               (Z.eqb_spec (local_bits (base ip mask)) 0),
               (Z.eqb_spec (local_bits (base ip f)) 0);
      cbn [negb];
      repeat match goal with
             | |- context [if ?b then _ else _] => destruct b
             | |- context [match ?x with _ => _ end] => destruct x
             end;
      intros; try discriminate; repeat split; intros; congruence.
  - intros -> -> -> ->. reflexivity.
Qed.

(** X10: filters that [config_filters_equal] takes for equal tie in the
    order of the sort and are supersets of each other, as soon as the two
    string comparisons give 0 only for two strings or two [NULL]s. *)
Theorem equal_filters_tie
    (ip : Type) (ip_compare : ip -> ip -> bool)
    (null_strcmp null_strcasecmp : option string -> option string -> Z)
    (f1 f2 : net_filter ip) :
  (forall a b, null_strcmp a b = 0 -> non_null a = non_null b) ->
  (forall a b, null_strcasecmp a b = 0 -> non_null a = non_null b) ->
  config_filters_equal ip ip_compare null_strcmp null_strcasecmp f1 f2 = true ->
  config_filter_cmp (base ip f1) (base ip f2) = 0 /\
  fst (config_filter_is_superset (base ip f1) (base ip f2)) = true /\
  fst (config_filter_is_superset (base ip f2) (base ip f1)) = true.
Proof.
  intros Hcmp Hcase. unfold config_filters_equal.
  destruct (Z.eqb_spec (null_strcmp (service (base ip f1)) (service (base ip f2))) 0)
    as [Hs|]; [|discriminate].
  destruct (Z.eqb_spec (remote_bits (base ip f1)) (remote_bits (base ip f2)))
    as [Hr|]; [|discriminate].
  destruct (ip_compare (remote_net ip f1) (remote_net ip f2)); [|discriminate].
  destruct (Z.eqb_spec (local_bits (base ip f1)) (local_bits (base ip f2)))
    as [Hl|]; [|discriminate].
  destruct (ip_compare (local_net ip f1) (local_net ip f2)); [|discriminate].
  destruct (Z.eqb_spec (null_strcasecmp (local_name (base ip f1))
                                        (local_name (base ip f2))) 0)
    as [Hn|]; [|discriminate].
  intros _. apply Hcmp in Hs. apply Hcase in Hn.
  unfold config_filter_cmp, config_filter_is_superset.
  rewrite Hr, Hl, !Z.ltb_irrefl.
  revert Hs Hn. unfold non_null.
  destruct (local_name (base ip f1)), (local_name (base ip f2)),
           (service (base ip f1)), (service (base ip f2));
    cbn; intros; try discriminate; auto.
Qed.

Lemma equal_filters_tie_witness :
  config_filter_cmp (Filter (Some "imap") (Some "Mail.Example.Org") 24 0)
                    (Filter (Some "imap") (Some "Mail.Example.Org") 24 0) = 0.
Proof.
  pose (cmp := fun a b : option string => if bool_decide (a = b) then 0 else 1).
  assert (Hcmp : forall a b, cmp a b = 0 -> non_null a = non_null b).
  { intros a b. unfold cmp. case_bool_decide; [now subst|discriminate]. }
  exact (proj1 (equal_filters_tie Z Z.eqb cmp cmp
                  (NetFilter Z (Filter (Some "imap") (Some "Mail.Example.Org") 24 0) 10 0)
                  (NetFilter Z (Filter (Some "imap") (Some "Mail.Example.Org") 24 0) 10 0)
                  Hcmp Hcmp eq_refl)).
Defined.

(** *** Collecting the parsers *)

(** X11: [config_filter_find_all] hands over the first parser of the
    context and no other, so [config_filter_parsers_get] never reports a
    conflict: whatever the other filters of the context are, it returns 0
    with the parsers of the first filter, each duplicated, without a
    warning and without touching [*error_r].  With no parser at all in the
    context it follows a [NULL] pointer. *)
Theorem parsers_get_uses_the_first_filter
    (P : Type) (dup : P -> P) (apply_changes : P -> P -> bool -> Z * P * string)
    (array_sort : forall A : Type, (A -> A -> Z) -> list A -> list A)
    (ctx : config_filter_context P) :
  (forall A cmp (l : list A), array_sort A cmp l ≡ₚ l) ->
  match ctx_parsers P ctx with
  | first :: _ =>
    config_filter_parsers_get P dup apply_changes array_sort ctx
    = Got P 0 (Some (map (fun p => ModuleParser P (root P p) (dup (parser P p)))
                         (parsers P first)))
          None []
  | [] =>
    config_filter_parsers_get P dup apply_changes array_sort ctx = GetCrashed P
  end.
Proof.
  intros Hsort. unfold config_filter_parsers_get, config_filter_find_all.
  destruct (ctx_parsers P ctx) as [|first others].
  - change (take 1 (@nil (config_filter_parser P))) with (@nil (config_filter_parser P)).
    pose proof (Hsort _ (config_filter_parser_cmp P) []) as Hp.
    apply Permutation_nil_r in Hp. now rewrite Hp.
  - change (take 1 (first :: others)) with [first].
    pose proof (Hsort _ (config_filter_parser_cmp P) [first]) as Hp.
    apply Permutation_singleton_r in Hp. rewrite Hp. reflexivity.
Qed.

Lemma parsers_get_uses_the_first_filter_witness :
  config_filter_parsers_get Z Z.succ (fun d _ _ => (-1, d, "key")) (fun _ _ l => l)
    (FilterContext Z
       [FilterParser Z (Filter None None 0 0) "conf:1" [ModuleParser Z "login" 7];
        FilterParser Z (Filter (Some "imap") None 0 0) "conf:9"
                     [ModuleParser Z "login" 8]]
       [])
  = Got Z 0 (Some [ModuleParser Z "login" 8]) None [].
Proof.
  exact (parsers_get_uses_the_first_filter Z Z.succ (fun d _ _ => (-1, d, "key"))
           (fun _ _ l => l)
           (FilterContext Z
              [FilterParser Z (Filter None None 0 0) "conf:1"
                            [ModuleParser Z "login" 7];
               FilterParser Z (Filter (Some "imap") None 0 0) "conf:9"
                            [ModuleParser Z "login" 8]]
              [])
           (fun A cmp l => reflexivity l)).
Defined.

(** X12: the errors of a context are handed back in the order they were
    added, after those it held. *)
Theorem errors_in_order (P : Type) (ctx : config_filter_context P)
    (errors : list string) :
  config_filter_get_errors P (foldl (config_filter_add_error P) ctx errors)
  = config_filter_get_errors P ctx ++ errors /\
  ctx_parsers P (foldl (config_filter_add_error P) ctx errors) = ctx_parsers P ctx.
Proof.
  revert ctx. induction errors as [|e errors IH]; intros ctx; cbn [foldl].
  - split; [now rewrite app_nil_r|reflexivity].
  - destruct (IH (config_filter_add_error P ctx e)) as [-> ->].
    unfold config_filter_get_errors, config_filter_add_error. cbn.
    now rewrite <- app_assoc.
Qed.
End ConfigMatchFacts.

(** * The rest of the manager *)

(** ** The watermark over many calls *)

Lemma set_max_offset_same h :
  set_mailbox_sync_max_offset (mailbox_sync_max_offset h) h = h.
Proof. now destruct h. Qed.

Lemma set_max_offset_twice x y h :
  set_mailbox_sync_max_offset x (set_mailbox_sync_max_offset y h)
  = set_mailbox_sync_max_offset x h.
Proof. reflexivity. Qed.

Lemma set_mailbox_sync_pos_step s h seq x :
  head_file s = Some h -> seq = file_seq (hdr h) ->
  mailbox_sync_saved_offset h <= x ->
  exists s1,
    mail_transaction_log_set_mailbox_sync_pos seq x s = Ret tt s1 /\
    head_file s1
    = Some (set_mailbox_sync_max_offset (Z.max (mailbox_sync_max_offset h) x) h).
Proof.
  intros Hh Hseq Hx. apply head_file_inv in Hh as (q & Hq & Hf).
  rewrite (set_mailbox_sync_pos_run s h q seq x Hq Hf Hseq Hx).
  destruct (Z.leb_spec (mailbox_sync_max_offset h) x).
  - eexists. split; [reflexivity|].
    unfold head_file. cbn. rewrite Hq, lookup_insert_eq.
    now rewrite Z.max_r by lia.
  - exists s. split; [reflexivity|].
    rewrite Z.max_l by lia. rewrite set_max_offset_same.
    unfold head_file. now rewrite Hq.
Qed.

(** X13: whatever positions a caller reports, in whatever order, the
    watermark of the head ends at the greatest of its initial value and the
    offsets reported, nothing else of the head changes, and
    [mail_transaction_log_get_mailbox_sync_pos] then returns the sequence
    of the head with that offset. *)
Theorem watermark_is_the_maximum (offsets : list Z) : forall s h seq,
  head_file s = Some h -> seq = file_seq (hdr h) ->
  Forall (fun x => mailbox_sync_saved_offset h <= x) offsets ->
  exists s',
    set_mailbox_sync_pos_each seq offsets s = Ret tt s' /\
    head_file s'
    = Some (set_mailbox_sync_max_offset
              (foldl Z.max (mailbox_sync_max_offset h) offsets) h) /\
    mail_transaction_log_get_mailbox_sync_pos s'
    = Ret (seq, foldl Z.max (mailbox_sync_max_offset h) offsets) s'.
Proof.
  induction offsets as [|x offsets IH]; intros s h seq Hh Hseq Hall.
  - exists s. cbn [set_mailbox_sync_pos_each foldl].
    rewrite set_max_offset_same. split; [reflexivity|]. split; [exact Hh|].
    apply head_file_inv in Hh as (q & Hq & Hf).
    unfold mail_transaction_log_get_mailbox_sync_pos.
    unfold bind at 1, get. rewrite Hq.
    rewrite (bind_Ret _ _ _ _ _ (deref_Some _ _ _ Hf)). now subst.
  - apply Forall_cons in Hall as [Hx Hall].
    destruct (set_mailbox_sync_pos_step s h seq x Hh Hseq Hx) as (s1 & E1 & Hh1).
    destruct (IH s1 _ seq Hh1 Hseq Hall) as (s' & E & Hh' & Hget).
    exists s'. cbn [set_mailbox_sync_pos_each foldl].
    rewrite (bind_Ret _ _ _ _ _ E1).
    split; [exact E|]. split; [exact Hh'|exact Hget].
Qed.

Lemma watermark_is_the_maximum_witness :
  exists s',
    set_mailbox_sync_pos_each 1 [5; 3; 12] Samples.watermark_state = Ret tt s' /\
    mail_transaction_log_get_mailbox_sync_pos s' = Ret (1, 12) s'.
Proof.
  destruct (watermark_is_the_maximum [5; 3; 12] Samples.watermark_state
              (set_mailbox_sync_max_offset 10
                 (LogFile "/m/idx.log" (LogHeader 1 0 0 0) 1 7 24 0 3
                          None None 0 24 0 0 false 1)) 1)
    as (s' & E & _ & Hget); [reflexivity | reflexivity | |].
  - repeat constructor; cbn; lia.
  - exists s'. split; [exact E|exact Hget].
Defined.

(** X14: [mail_transaction_log_set_mailbox_sync_pos] stops on an
    assertion, and changes nothing, when the sequence is not the sequence
    of the head or the offset lies before the saved offset of the head;
    without a head it follows a [NULL] pointer. *)
Theorem set_mailbox_sync_pos_asserts s seq x :
  (forall h, head_file s = Some h ->
     seq <> file_seq (hdr h) \/ x < mailbox_sync_saved_offset h ->
     mail_transaction_log_set_mailbox_sync_pos seq x s = Fault AssertFailed) /\
  (head s = None ->
   mail_transaction_log_set_mailbox_sync_pos seq x s = Fault NullDeref).
Proof.
  unfold mail_transaction_log_set_mailbox_sync_pos. split.
  - intros h Hh Hbad. apply head_file_inv in Hh as (q & Hq & Hf).
    unfold bind at 1, get. rewrite Hq.
    rewrite (bind_Ret _ _ _ _ _ (deref_Some _ _ _ Hf)).
    destruct (Z.eqb_spec seq (file_seq (hdr h))) as [Heq|Hne]; [|reflexivity].
    destruct Hbad as [Hbad|Hbad]; [contradiction|].
    apply Z.leb_gt in Hbad. unfold i_assert at 1, bind at 1, ret at 1.
    unfold bind at 1. now rewrite Hbad.
  - intros Hnone. unfold bind at 1, get. now rewrite Hnone.
Qed.

(** ** Between [sync_lock] and [sync_unlock] *)

Lemma get_head_locked s q f :
  log_locked (index s) = true -> head s = Some q -> heap s !! q = Some f ->
  mail_transaction_log_get_head s = Ret (file_seq (hdr f), sync_offset f) s.
Proof.
  intros Hl Hq Hf. unfold mail_transaction_log_get_head.
  unfold bind at 1, get. rewrite Hl. unfold i_assert, bind at 1, ret at 1.
  rewrite Hq. now rewrite (bind_Ret _ _ _ _ _ (deref_Some _ _ _ Hf)).
Qed.

(** X15: once [mail_transaction_log_sync_lock] has returned 0,
    [mail_transaction_log_get_head] returns the very pair it handed out,
    and changes nothing; called while the index is not log-locked, it stops
    on its assertion. *)
Theorem get_head_agrees_with_sync_lock fuel s out s' :
  head_in_bounds s ->
  mail_transaction_log_sync_lock fuel s = Ret (0, out) s' ->
  (exists pair, out = Some pair /\
                mail_transaction_log_get_head s' = Ret pair s') /\
  mail_transaction_log_get_head s = Fault AssertFailed.
Proof.
  intros B H.
  destruct (sync_lock_inv fuel s 0 out s' B H)
    as (Hn & [(_ & Hl & h & fh & Hh & Hf & _ & ->)|(Hr & _)]); [|lia].
  split.
  - eexists. split; [reflexivity|]. now apply (get_head_locked s' h fh).
  - unfold mail_transaction_log_get_head. unfold bind at 1, get.
    now rewrite Hn.
Qed.

Lemma get_head_agrees_with_sync_lock_witness :
  mail_transaction_log_get_head Samples.locked_for_sync
  = Ret (1, 24) Samples.locked_for_sync.
Proof.
  destruct (get_head_agrees_with_sync_lock 2 Samples.pinned (Some (1, 24))
              Samples.locked_for_sync pinned_in_bounds)
    as ((pair & Hp & Hget) & _); [vm_compute; reflexivity|].
  injection Hp as <-. exact Hget.
Defined.

(** X16: [mail_transaction_log_sync_unlock] undoes
    [mail_transaction_log_sync_lock]: after a lock that returned 0 it
    returns, the index is no longer log-locked and the head is no longer
    locked, the head being the same file with the same header, offsets and
    references, and every other file as it was.  Called while the index is
    not log-locked, it stops on its assertion. *)
Theorem sync_unlock_undoes_sync_lock fuel s out s' :
  head_in_bounds s ->
  mail_transaction_log_sync_lock fuel s = Ret (0, out) s' ->
  (exists h fh,
     head s' = Some h /\ heap s' !! h = Some fh /\
     mail_transaction_log_sync_unlock s'
     = Ret tt (store h (set_locked false fh) (with_log_locked false s'))) /\
  mail_transaction_log_sync_unlock s = Fault AssertFailed.
Proof.
  intros B H.
  destruct (sync_lock_inv fuel s 0 out s' B H)
    as (Hn & [(_ & Hl & h & fh & Hh & Hf & _ & ->)|(Hr & _)]); [|lia].
  split.
  - exists h, fh. split; [exact Hh|]. split; [exact Hf|].
    unfold mail_transaction_log_sync_unlock.
    unfold bind at 1, get. rewrite Hl. unfold i_assert, bind at 1, ret at 1.
    unfold set_log_locked. unfold bind at 1, modify.
    unfold mail_transaction_log_file_unlock. rewrite Hh.
    now apply update_Some.
  - unfold mail_transaction_log_sync_unlock. unfold bind at 1, get.
    now rewrite Hn.
Qed.

Lemma sync_unlock_undoes_sync_lock_witness :
  exists s'', mail_transaction_log_sync_unlock Samples.locked_for_sync = Ret tt s'' /\
              log_locked (index s'') = false.
Proof.
  destruct (sync_unlock_undoes_sync_lock 2 Samples.pinned (Some (1, 24))
              Samples.locked_for_sync pinned_in_bounds)
    as ((h & fh & _ & _ & E) & _); [vm_compute; reflexivity|].
  eexists. split; [exact E|reflexivity].
Defined.

(** ** Wanting a rotation *)

(** X17: a rotation that is wanted stays wanted: [LOG_WANT_ROTATE] is
    monotone in the size of the file and in the time, for a given creation
    stamp; and, the lower bound on the size being at most the upper one, no
    rotation is wanted of a file that has not outgrown the lower bound. *)
Theorem want_rotate_is_monotone (min_size max_size rotate_time : Z)
    (f f' : log_file) (t t' : Z) :
  create_stamp (hdr f') = create_stamp (hdr f) ->
  sync_offset f <= sync_offset f' -> t <= t' ->
  (LOG_WANT_ROTATE min_size max_size rotate_time f t = true ->
   LOG_WANT_ROTATE min_size max_size rotate_time f' t' = true) /\
  (min_size <= max_size -> sync_offset f <= min_size ->
   LOG_WANT_ROTATE min_size max_size rotate_time f t = false).
Proof.
  intros Hstamp Hsize Htime. unfold LOG_WANT_ROTATE. rewrite Hstamp.
  split.
  - rewrite !orb_true_iff, !andb_true_iff, !Z.ltb_lt. lia.
  - intros Hb Hs. rewrite orb_false_iff, andb_false_iff, !Z.ltb_ge. lia.
Qed.

Lemma want_rotate_is_monotone_witness :
  LOG_WANT_ROTATE 1024 8192 3600 (Samples.disk_log_file 1 7 3 false 1) 10 = false.
Proof.
  refine (proj2 (want_rotate_is_monotone 1024 8192 3600
                   (Samples.disk_log_file 1 7 3 false 1)
                   (Samples.disk_log_file 1 7 3 false 1) 10 10
                   eq_refl _ _) _ _); cbn; lia.
Defined.

(** ** The sweep, seen from its callers *)

Lemma clean_chain_referenced l : forall s,
  (forall q, q ∈ l -> exists f, heap s !! q = Some f /\ 0 < refcount f) ->
  clean_chain l s = Ret tt s.
Proof.
  induction l as [|q l IH]; intros s Hl; cbn [clean_chain]; [reflexivity|].
  destruct (Hl q) as (f & Hf & Hrc); [left|].
  rewrite (bind_Ret _ _ _ _ _ (deref_Some _ _ _ Hf)).
  destruct (Z.leb_spec 0 (refcount f)); [|lia].
  unfold i_assert, bind at 1, ret at 1.
  destruct (Z.eqb_spec (refcount f) 0); [lia|].
  unfold bind at 1, ret at 1.
  apply IH. intros x Hx. apply Hl. now right.
Qed.

(** X18: when [mail_transaction_logs_clean] returns, every file of the
    chain had a reference count of 0 or more; those with 0 are gone, from
    the store and from the chain; the files that are referenced are kept,
    in the store and on the chain, as they were, like every file that is
    not on the chain; the head pointer, [open_file] and the file system are
    untouched. *)
Theorem sweep_frees_the_unreferenced s s' :
  mail_transaction_logs_clean s = Ret tt s' ->
  (forall q, q ∈ files s ->
     exists f, heap s !! q = Some f /\ 0 <= refcount f /\
       if refcount f =? 0
       then heap s' !! q = None /\ (q ∉ files s')
       else heap s' !! q = Some f /\ q ∈ files s') /\
  (forall q, q ∉ files s -> heap s' !! q = heap s !! q /\ (q ∉ files s')) /\
  head s' = head s /\ open_file s' = open_file s /\
  fs (env s') = fs (env s).
Proof.
  intros H. unfold mail_transaction_logs_clean in H.
  apply bind_inv in H as (a & s0 & E & H). apply get_inv in E as [-> ->].
  apply clean_chain_swept in H as W.
  split; [|split].
  - intros q Hq. destruct (swept_alloc _ _ _ W q Hq) as (f & Hf & Hrc).
    exists f. split; [exact Hf|]. split; [exact Hrc|].
    destruct (Z.eqb_spec (refcount f) 0) as [Hz|Hnz].
    + assert (Hu : unreferenced s q) by (exists f; auto).
      split; [exact (swept_gone _ _ _ W q Hq Hu)|].
      intros Hin. apply (swept_files _ _ _ W) in Hin as [_ Hn]. tauto.
    + assert (Hn : ~ (q ∈ files s /\ unreferenced s q)).
      { intros [_ (f' & Hf' & Hz)]. congruence. }
      split; [now rewrite (swept_kept _ _ _ W q Hn)|].
      apply (swept_files _ _ _ W). tauto.
  - intros q Hq. split.
    + apply (swept_kept _ _ _ W). tauto.
    + intros Hin. apply (swept_files _ _ _ W) in Hin. tauto.
  - split; [exact (swept_head _ _ _ W)|].
    split; [exact (swept_open_file _ _ _ W)|exact (swept_fs _ _ _ W)].
Qed.

Lemma sweep_frees_the_unreferenced_witness :
  head (state_after mail_transaction_logs_clean Samples.rotated)
  = head Samples.rotated.
Proof.
  refine (proj1 (proj2 (proj2 (sweep_frees_the_unreferenced Samples.rotated _ _)))).
  vm_compute. reflexivity.
Defined.

(** X19: sweeping twice is sweeping once: after a sweep that returned, a
    second one returns and changes nothing. *)
Theorem sweep_twice s s' :
  mail_transaction_logs_clean s = Ret tt s' ->
  mail_transaction_logs_clean s' = Ret tt s'.
Proof.
  intros H. pose proof H as H0. unfold mail_transaction_logs_clean in H0.
  apply bind_inv in H0 as (a & s0 & E & H0). apply get_inv in E as [-> ->].
  apply clean_chain_swept in H0 as W.
  unfold mail_transaction_logs_clean. unfold bind at 1, get.
  apply clean_chain_referenced. intros q Hq.
  apply (swept_files _ _ _ W) in Hq as [Hq Hn].
  destruct (swept_alloc _ _ _ W q Hq) as (f & Hf & Hrc).
  exists f. split.
  - rewrite (swept_kept _ _ _ W q Hn). exact Hf.
  - destruct (Z.eq_dec (refcount f) 0) as [Hz|Hnz]; [|lia].
    exfalso. apply Hn. split; [exact Hq|]. exists f. auto.
Qed.

Lemma sweep_twice_witness :
  mail_transaction_logs_clean
    (state_after mail_transaction_logs_clean Samples.two_generations)
  = Ret tt (state_after mail_transaction_logs_clean Samples.two_generations).
Proof.
  apply (sweep_twice Samples.two_generations). vm_compute. reflexivity.
Defined.

(** ** Moving to memory, again *)

Lemma move_to_memory_done s s' :
  mail_transaction_log_move_to_memory s = Ret 0 s' ->
  match head_file s' with
  | Some f => FILE_IN_MEMORY f = true
  | None => head s' = None
  end.
Proof.
  intros H. unfold mail_transaction_log_move_to_memory in H.
  apply bind_inv in H as (a & s0 & E & H). apply get_inv in E as [-> ->].
  destruct (head s) as [h|] eqn:Hh.
  2:{ apply ret_inv in H as [_ ->]. unfold head_file. now rewrite Hh. }
  apply bind_inv in H as (f & s0 & E & H).
  apply deref_inv in E as (-> & q & [= <-] & Hf).
  destruct (FILE_IN_MEMORY f) eqn:Hm.
  { apply ret_inv in H as [_ ->]. unfold head_file. now rewrite Hh, Hf. }
  unfold_helpers H. sinv.
  all: try discriminate.
  all: unfold head_file; snorm; rewrite Hh;
    rewrite lookup_insert_eq; reflexivity.
Qed.

(** X20: moving to memory twice is moving once: after a call that
    returned 0, a second call returns 0 and changes nothing. *)
Theorem move_to_memory_twice s s' :
  mail_transaction_log_move_to_memory s = Ret 0 s' ->
  mail_transaction_log_move_to_memory s' = Ret 0 s'.
Proof.
  intros H. apply move_to_memory_noop. now apply (move_to_memory_done s).
Qed.

Lemma move_to_memory_twice_witness :
  mail_transaction_log_move_to_memory
    (state_after mail_transaction_log_move_to_memory Samples.two_generations)
  = Ret 0 (state_after mail_transaction_log_move_to_memory Samples.two_generations).
Proof.
  apply (move_to_memory_twice Samples.two_generations). vm_compute. reflexivity.
Defined.

(** X21: when the contents cannot be read,
    [mail_transaction_log_move_to_memory] returns -1 and the head stays on
    disk, its descriptor open; but the call is no no-op: the mapping and
    the buffer of the head have been given up before the read, and
    [buffer_offset] is 0. *)
Theorem move_to_memory_fails_halfway s h f :
  head s = Some h -> heap s !! h = Some f -> FILE_IN_MEMORY f = false ->
  fails (env s) SysRead = true ->
  exists s' f',
    mail_transaction_log_move_to_memory s = Ret (-1) s' /\
    head s' = Some h /\ heap s' !! h = Some f' /\
    fd f' = fd f /\ hdr f' = hdr f /\ refcount f' = refcount f /\
    mmap_base f' = None /\ buffer f' = None /\ buffer_offset f' = 0 /\
    fdtab (env s') = fdtab (env s) /\ fs (env s') = fs (env s).
Proof.
  intros Hh Hf Hm Hr. unfold mail_transaction_log_move_to_memory.
  unfold_all. frun.
  destruct (buffer f) eqn:Hb, (mmap_base f) eqn:Hmm,
    (fails (env s) SysMunmap) eqn:Hmu; frun.
  all: eexists _, _; split; [reflexivity|]; snorm;
    (split; [exact Hh|]); (split; [apply lookup_insert_eq|]);
    cbn; repeat split; auto.
Qed.

Lemma move_to_memory_fails_halfway_witness :
  exists s', mail_transaction_log_move_to_memory Samples.locked_no_read
             = Ret (-1) s'.
Proof.
  assert (E : exists f, heap Samples.locked_no_read !! 0%nat = Some f /\
                        FILE_IN_MEMORY f = false)
    by (eexists; split; [vm_compute; reflexivity|reflexivity]).
  destruct E as (f & E & Hm).
  destruct (move_to_memory_fails_halfway Samples.locked_no_read 0%nat f)
    as (s' & _ & H & _); [vm_compute; reflexivity | exact E | exact Hm
                         | vm_compute; reflexivity |].
  exists s'. exact H.
Defined.

(** ** Failures that leave the log as it was *)

Lemma filter_other_id (p : nat) (l : list nat) :
  p ∉ l -> filter (fun x => x ≠ p) l = l.
Proof.
  induction l as [|x l IH]; intros Hp; [reflexivity|].
  apply not_elem_of_cons in Hp as [Hne Hp].
  rewrite filter_cons_True by congruence. now rewrite IH.
Qed.


Lemma free_fresh_heap_blank s path :
  wf_ptrs s ->
  heap (free_state (next_ptr s) (alloc_state path s)) = heap s /\
  files (free_state (next_ptr s) (alloc_state path s)) = files s.
Proof.
  intros W. destruct (fresh_ptr s W) as (_ & Hfiles & Hheap & _).
  snorm. split; [|now apply filter_other_id].
  rewrite delete_insert_eq. now apply delete_id.
Qed.

(** X22: [mail_transaction_log_refresh] returns 0 or -1 and never touches
    [log_locked]; and when it returns -1 the log is as it was: the head,
    the chain, [open_file], every file and the file system are unchanged,
    the file allocated for the attempt having been freed. *)
Theorem refresh_fails_cleanly s r s' :
  wf_ptrs s -> mail_transaction_log_refresh s = Ret r s' ->
  (r = 0 \/ r = -1) /\
  log_locked (index s') = log_locked (index s) /\
  (r = -1 ->
   head s' = head s /\ files s' = files s /\ open_file s' = open_file s /\
   heap s' = heap s /\ env s' = env s).
Proof.
  intros W H. pose proof (refresh_head _ _ _ H) as (Hl & _ & Hr & _).
  split; [exact Hr|]. split; [exact Hl|]. intros ->.
  apply refresh_cases in H as (h & fh & Hh & Hf & H). cbn zeta in H.
  destruct H as [(Hr0 & _)|[(_ & _ & H)|(Hr0 & _)]]; try discriminate.
  destruct H as [->|[->|[->| ->]]]; snorm; auto.
  all: destruct (free_fresh_heap_blank s (log_path_of s) W) as [E1 E2].
  all: snorm; rewrite E1, E2; auto.
Qed.

Lemma refresh_fails_cleanly_witness :
  log_locked (index (state_after mail_transaction_log_refresh Samples.rotated))
  = log_locked (index Samples.rotated).
Proof.
  refine (proj1 (proj2 (refresh_fails_cleanly Samples.rotated 0 _
                          (inv_ptrs _ (reachable_inv _ rotated_reachable)) _))).
  vm_compute. reflexivity.
Defined.



(** X24: [mail_transaction_log_rotate] does not return on a head that is
    not locked: it stops on its assertion.  On a locked head of an index on
    disk it does not return either when [fstat] fails: the error is
    reported with [file->filepath], and [file] has not been assigned yet.
    Without a head it follows a [NULL] pointer. *)
Theorem rotate_stops s :
  (forall fh, head_file s = Some fh -> locked fh = false ->
     mail_transaction_log_rotate s = Fault AssertFailed) /\
  (forall fh, head_file s = Some fh -> locked fh = true ->
     index_in_memory (index s) = false ->
     fails (env s) SysFstat = true \/ fdtab (env s) !! fd fh = None ->
     mail_transaction_log_rotate s = Fault UninitializedRead) /\
  (head s = None -> mail_transaction_log_rotate s = Fault NullDeref).
Proof.
  unfold mail_transaction_log_rotate. split; [|split].
  - intros fh Hh Hl. apply head_file_inv in Hh as (h & Hh & Hf).
    unfold bind at 1, get. rewrite Hh.
    rewrite (bind_Ret _ _ _ _ _ (deref_Some _ _ _ Hf)). now rewrite Hl.
  - intros fh Hh Hl Hdisk Hstat. apply head_file_inv in Hh as (h & Hh & Hf).
    unfold bind at 1, get. rewrite Hh.
    rewrite (bind_Ret _ _ _ _ _ (deref_Some _ _ _ Hf)). rewrite Hl, Hdisk.
    unfold i_assert, bind at 1, ret at 1.
    unfold sys_fstat. unfold_all.
    destruct (fails (env s) SysFstat); [reflexivity|].
    destruct Hstat as [Hstat|Hstat]; [discriminate|]. now rewrite Hstat.
  - intros Hnone. unfold bind at 1, get. now rewrite Hnone.
Qed.

(** ** The link between a head and its predecessor *)

(** X25: after a rotation that returned 0 the new head is the successor of
    the old one: its sequence is the old sequence plus one, and
    [mail_transaction_log_is_head_prev] answers true for the sequence and
    the sync offset of the old head.  This is so for an index in memory,
    and for an index on disk when the path of the head holds no file of
    another process. *)
Theorem rotated_head_points_back s s' h fh :
  wf_ptrs s -> head s = Some h -> heap s !! h = Some fh ->
  mail_transaction_log_rotate s = Ret 0 s' ->
  index_in_memory (index s) = true \/
  (forall d d0, fs (env s) !! filepath fh = Some d ->
                fdtab (env s) !! fd fh = Some d0 ->
                df_ino d = df_ino d0 /\ df_dev d = df_dev d0) ->
  mail_transaction_log_is_head_prev (file_seq (hdr fh)) (sync_offset fh) s'
  = Ret true s' /\
  exists nf, head_file s' = Some nf /\ file_seq (hdr nf) = file_seq (hdr fh) + 1.
Proof.
  intros W Hh Hfh H Hquiet.
  apply rotate_cases in H as (h0 & fh0 & Hh0 & Hfh0 & Hl & H). cbn zeta in H.
  rewrite Hh in Hh0. injection Hh0 as <-.
  rewrite Hfh in Hfh0. injection Hfh0 as <-.
  destruct H as [(Hr & _)|(_ & s1 & nf & P & R & Hcase)]; [lia|].
  pose proof (wf_head _ W h Hh) as Hlt.
  assert (Hph : next_ptr s <> h) by lia.
  assert (Hhdr : hdr nf = LogHeader (file_seq (hdr fh) + 1) (file_seq (hdr fh))
                                    (sync_offset fh) (clock (env s))).
  { destruct Hcase as [(_ & _ & _ & ->)|(Hdisk & d0 & sb & Hd0 & -> & [Hadopt| ->])].
    - rewrite head_file_alloc by exact W.
      now rewrite (head_file_Some _ _ _ Hh Hfh).
    - destruct Hquiet as [Hmem|Hquiet]; [congruence|].
      destruct Hadopt as (d & Hd & _ & Hsig & _).
      destruct (Hquiet d d0 Hd Hd0) as [E1 E2].
      rewrite E1, E2, !Z.eqb_refl in Hsig. discriminate.
    - rewrite head_file_store_fresh by exact W.
      now rewrite (head_file_Some _ _ _ Hh Hfh). }
  destruct P as [_ Pnp Phead Pof Pidx Pv Pfiles Pnew Pothers Prc].
  assert (Hpf : next_ptr s ∉ files s1).
  { rewrite Pfiles. unfold link_state. snorm. rewrite Hh.
    intros Hin.
    assert (Hin' : next_ptr s = h \/ next_ptr s ∈ files s).
    { case_bool_decide; [now right|]. now apply elem_of_cons in Hin. }
    destruct Hin' as [Hin'|Hin']; [lia|].
    apply (wf_files _ W) in Hin'. lia. }
  destruct (retires_and_installs_frame _ _ _ _ _ nf R Pnew Hph Hpf)
    as (F1 & F2 & _).
  split.
  - unfold mail_transaction_log_is_head_prev.
    unfold bind at 1, get. rewrite F1.
    rewrite (bind_Ret _ _ _ _ _ (deref_Some _ _ _ F2)).
    cbn. rewrite Hhdr. cbn. now rewrite !Z.eqb_refl.
  - eexists. split; [exact (head_file_Some _ _ _ F1 F2)|].
    cbn. now rewrite Hhdr.
Qed.

Lemma rotated_head_points_back_witness :
  mail_transaction_log_is_head_prev 1 24 Samples.rotated = Ret true Samples.rotated.
Proof.
  assert (E : exists fh, heap Samples.locked_for_sync !! 0%nat = Some fh /\
                file_seq (hdr fh) = 1 /\ sync_offset fh = 24)
    by (eexists; split; [vm_compute; reflexivity|]; split; reflexivity).
  destruct E as (fh & E & Hseq & Hoff).
  destruct (rotated_head_points_back Samples.locked_for_sync Samples.rotated
              0%nat fh locked_for_sync_wf eq_refl E) as [H _].
  - vm_compute. reflexivity.
  - right. intros d d0 Hd Hd0.
    assert (Hpath : filepath fh = "/m/idx.log").
    { vm_compute in E. now injection E as <-. }
    assert (Hfd : fd fh = 3).
    { vm_compute in E. now injection E as <-. }
    rewrite Hpath in Hd. rewrite Hfd in Hd0.
    vm_compute in Hd. vm_compute in Hd0.
    injection Hd as <-. injection Hd0 as <-. split; reflexivity.
  - rewrite Hseq, Hoff in H. exact H.
Defined.

(** ** What [mail_transaction_log_lock_head] can return *)

Lemma lock_head_cannot_lock n s q f :
  head s = Some q -> heap s !! q = Some f ->
  locked f = false -> fails (env s) SysLock = true ->
  mail_transaction_log_lock_head (S n) s = Ret (-1) s.
Proof.
  intros Hq Hf Hl Hfail.
  assert (El : mail_transaction_log_file_lock (Some q) s = Ret (-1) s).
  { unfold mail_transaction_log_file_lock.
    rewrite (bind_Ret _ _ _ _ _ (deref_Some _ _ _ Hf)).
    unfold bind at 1, get. now rewrite Hl, Hfail. }
  assert (Et : lock_head_turn s = Ret (inl (-1)) s).
  { unfold lock_head_turn. unfold bind at 1, get. rewrite Hq.
    now rewrite (bind_Ret _ _ _ _ _ El). }
  cbn [mail_transaction_log_lock_head].
  now rewrite (bind_Ret _ _ _ _ _ Et).
Qed.

(** X26: [mail_transaction_log_lock_head] returns 0 or -1 and never
    touches [log_locked]; and when the lock on the head cannot be had it
    returns -1 at once, the log being left exactly as it was. *)
Theorem lock_head_results fuel s :
  head_in_bounds s ->
  (forall r s', mail_transaction_log_lock_head fuel s = Ret r s' ->
     (r = 0 \/ r = -1) /\
     log_locked (index s') = log_locked (index s)) /\
  (forall n q f,
     fuel = S n -> head s = Some q -> heap s !! q = Some f ->
     locked f = false -> fails (env s) SysLock = true ->
     mail_transaction_log_lock_head fuel s = Ret (-1) s).
Proof.
  intros B. split.
  - intros r s' H.
    destruct (lock_head_cases fuel s r s' B H) as (_ & Hl & [->|(-> & _)]); auto.
  - intros n q f -> Hq Hf Hl Hfail. now apply (lock_head_cannot_lock n s q f).
Qed.

Lemma lock_head_results_witness :
  log_locked (index (state_after (mail_transaction_log_lock_head 2) Samples.pinned))
  = log_locked (index Samples.pinned).
Proof.
  destruct (lock_head_results 2 Samples.pinned pinned_in_bounds) as [H _].
  refine (proj2 (H 0 _ _)). vm_compute. reflexivity.
Defined.

(** ** Closing the log *)

Lemma release_pins_frame l : forall s r s',
  release_pins l s = Ret r s' ->
  head s' = head s /\ files s' = files s /\ open_file s' = open_file s /\
  env s' = env s /\
  forall q, heap s !! q = None -> heap s' !! q = None.
Proof.
  induction l as [|x l IH]; intros s r s' H; cbn [release_pins] in H.
  - apply ret_inv in H as [_ ->]. auto.
  - apply bind_inv in H as ([] & s1 & E & H).
    apply update_inv in E as (q' & f & [= <-] & Hq & ->).
    apply IH in H as (-> & -> & -> & -> & Hheap). snorm.
    repeat split; auto. intros q Hn. apply Hheap. snorm.
    rewrite lookup_insert_ne by congruence. exact Hn.
Qed.

(** X27: when [mail_transaction_log_close] returns, the chain is empty,
    and every file that was on it has been destroyed; [open_file] is
    [NULL] and no view is left; no file is created, renamed or removed. *)
Theorem close_empties_the_chain s s' :
  mail_transaction_log_close s = Ret tt s' ->
  files s' = [] /\ (forall q, q ∈ files s -> heap s' !! q = None) /\
  open_file s' = None /\ views s' = [] /\
  fs (env s') = fs (env s).
Proof.
  intros H. unfold mail_transaction_log_close in H.
  unfold mail_transaction_log_views_close in H.
  apply bind_inv in H as ([] & s2 & E & H).
  apply bind_inv in E as (? & ? & E0 & E). apply get_inv in E0 as [-> ->].
  apply bind_inv in E as ([] & s1 & Ep & E).
  apply modify_inv in E as ->.
  apply release_pins_frame in Ep as (Hh1 & Hf1 & Ho1 & He1 & Hheap1).
  apply bind_inv in H as ([] & s3 & Ef & H).
  assert (F3 : head s3 = head s /\ open_file s3 = None /\ views s3 = [] /\
               fs (env s3) = fs (env s) /\
               (forall q, q ∈ files s -> q ∈ files s3 \/ heap s3 !! q = None)).
  { unfold free_open_file in Ef.
    apply bind_inv in Ef as (? & ? & E0 & Ef). apply get_inv in E0 as [-> ->].
    revert Ef. snorm. destruct (open_file s1) as [o|] eqn:Ho.
    - intros Ef. apply bind_inv in Ef as ([] & s0 & Efree & Ef).
      apply modify_inv in Ef as ->.
      apply file_free_inv in Efree as (f & Hf & ->). snorm.
      rewrite Hh1, He1.
      split; [reflexivity|]. split; [reflexivity|]. split; [reflexivity|].
      split; [now destruct (FILE_IN_MEMORY f)|].
      intros q Hq. destruct (decide (q = o)) as [->|Hne].
      + right. apply lookup_delete_eq.
      + left. apply list_elem_of_filter. split; [exact Hne|]. now rewrite Hf1.
    - intros Ef. apply ret_inv in Ef as [_ ->]. snorm.
      rewrite Hh1, He1.
      split; [reflexivity|]. split; [exact Ho|]. split; [reflexivity|].
      split; [reflexivity|].
      intros q Hq. left. now rewrite Hf1. }
  clear Ef. destruct F3 as (Hh3 & Ho3 & Hv3 & Hfs3 & Hch3).
  apply bind_inv in H as (? & ? & E0 & H). apply get_inv in E0 as [-> ->].
  apply bind_inv in H as ([] & s4 & Eh & H).
  assert (F4 : head s4 = head s3 /\ open_file s4 = None /\ views s4 = [] /\
               env s4 = env s3 /\ files s4 = files s3 /\
               (forall q, heap s3 !! q = None -> heap s4 !! q = None)).
  { destruct (head s3) as [h|] eqn:Hd.
    - apply update_inv in Eh as (q' & f & [= <-] & Hq & ->). snorm.
      split; [exact Hd|]. split; [exact Ho3|]. split; [exact Hv3|].
      split; [reflexivity|]. split; [reflexivity|].
      intros q Hn. rewrite lookup_insert_ne by congruence. exact Hn.
    - apply ret_inv in Eh as [_ ->]. auto 10. }
  clear Eh. destruct F4 as (Hh4 & Ho4 & Hv4 & He4 & Hf4 & Hheap4).
  apply bind_inv in H as ([] & s5 & Ec & H).
  apply bind_inv in H as (? & ? & E0 & H). apply get_inv in E0 as [-> ->].
  apply i_assert_inv in H as [Hempty ->].
  apply bool_decide_eq_true_1 in Hempty.
  unfold mail_transaction_logs_clean in Ec.
  apply bind_inv in Ec as (? & ? & E0 & Ec). apply get_inv in E0 as [-> ->].
  apply clean_chain_swept in Ec as W.
  split; [exact Hempty|]. split.
  - intros q Hq. destruct (Hch3 q Hq) as [Hin|Hgone].
    + rewrite <- Hf4 in Hin.
      destruct (unreferenced_dec s4 q) as [Hu|Hnu].
      * exact (swept_gone _ _ _ W q Hin Hu).
      * exfalso. assert (Hin5 : q ∈ files s5).
        { apply (swept_files _ _ _ W). tauto. }
        rewrite Hempty in Hin5. now apply not_elem_of_nil in Hin5.
    + destruct (decide (q ∈ files s4)) as [Hin|Hnin].
      * destruct (swept_alloc _ _ _ W q Hin) as (f & Hf & _).
        rewrite (Hheap4 q Hgone) in Hf. discriminate.
      * rewrite (swept_kept _ _ _ W q) by tauto. now apply Hheap4.
  - rewrite (swept_open_file _ _ _ W), (swept_views _ _ _ W),
      (swept_fs _ _ _ W).
    rewrite Ho4, Hv4, He4, Hfs3. auto.
Qed.

Lemma close_empties_the_chain_witness :
  files (state_after mail_transaction_log_close Samples.rotated) = [] /\
  heap (state_after mail_transaction_log_close Samples.rotated) !! 0%nat = None.
Proof.
  destruct (close_empties_the_chain Samples.rotated
              (state_after mail_transaction_log_close Samples.rotated))
    as (H1 & H2 & _); [vm_compute; reflexivity|].
  split; [exact H1|]. apply H2. vm_compute. left.
Defined.

(** ** Catching up with another process *)

Lemma fails_nothing s c : failing (env s) = [] -> fails (env s) c = false.
Proof.
  intros E. unfold fails. rewrite E. apply bool_decide_eq_false_2.
  apply not_elem_of_nil.
Qed.

Lemma file_open_run p path s :
  heap s !! p = Some (blank_file path) ->
  mail_transaction_log_file_open (Some p) false s =
    if fails (env s) SysOpen
    then Ret (-1) (record_syscall_error path "open()" s)
    else match fs (env s) !! path with
         | None => Ret 0 s
         | Some d => if negb (df_valid d) then Ret 0 s
                     else Ret 1 (link_state (attach_state p d (blank_file path) s))
         end.
Proof.
  intros Hb. unfold mail_transaction_log_file_open.
  rewrite (bind_Ret _ _ _ _ _ (deref_Some _ _ _ Hb)).
  unfold bind at 1, get.
  change (filepath (blank_file path)) with path.
  destruct (fails (env s) SysOpen); [reflexivity|].
  destruct (fs (env s) !! path) as [d|]; [|reflexivity].
  destruct (negb (df_valid d)); [reflexivity|].
  unfold attach_disk_file. unfold_all. rewrite Hb. reflexivity.
Qed.

Lemma refresh_replaces s h fh d :
  head s = Some h -> heap s !! h = Some fh -> h <> next_ptr s ->
  FILE_IN_MEMORY fh = false -> refcount fh - 1 <> 0 ->
  failing (env s) = [] ->
  fs (env s) !! log_path_of s = Some d -> df_valid d = true ->
  (st_ino fh =? df_ino d) && (st_dev fh =? df_dev d) = false ->
  mail_transaction_log_refresh s = Ret 0 (refreshed h fh d s).
Proof.
  intros Hh Hf Hne Hmem Hrc Hcalls Hd Hv Hother.
  unfold mail_transaction_log_refresh.
  unfold bind at 1, get. rewrite Hh.
  rewrite bool_decide_eq_true_2 by discriminate.
  unfold i_assert, bind at 1, ret at 1.
  rewrite (bind_Ret _ _ _ _ _ (deref_Some _ _ _ Hf)). rewrite Hmem.
  unfold log_path. unfold bind at 1. unfold bind at 1, get, ret at 1.
  fold (log_path_of s).
  unfold nfs_safe_stat. unfold bind at 1. unfold bind at 1, get.
  rewrite (fails_nothing s SysStat Hcalls). unfold ret at 1.
  rewrite Hd, Hother.
  rewrite (bind_Ret _ _ _ _ _ (file_alloc_run _ _)).
  set (sa := alloc_state (log_path_of s) s).
  assert (Hb : heap sa !! next_ptr s = Some (blank_file (log_path_of s)))
    by apply lookup_insert_eq.
  pose proof (file_open_run _ _ _ Hb) as Eo.
  change (env sa) with (env s) in Eo.
  rewrite (fails_nothing s SysOpen Hcalls), Hd, Hv in Eo. cbn [negb] in Eo.
  rewrite (bind_Ret _ _ _ _ _ Eo).
  change (1 <=? 0) with false. cbv iota.
  set (s1 := link_state (attach_state (next_ptr s) d (blank_file (log_path_of s)) sa)).
  set (nf := load_disk_file d (env s) (blank_file (log_path_of s))).
  assert (Hnf : heap s1 !! next_ptr s = Some nf) by apply lookup_insert_eq.
  rewrite (bind_Ret _ _ _ _ _ (deref_Some _ _ _ Hnf)).
  change (locked nf) with false. cbn [negb].
  unfold bind at 1, ret at 1.
  assert (Hf1 : heap s1 !! h = Some fh).
  { subst s1 sa. snorm. rewrite !lookup_insert_ne by congruence. exact Hf. }
  rewrite (bind_Ret _ _ _ _ _ (update_Some _ _ _ _ Hf1)).
  set (fh2 := set_refcount (refcount fh - 1) fh).
  set (s2 := store h fh2 s1).
  assert (Hf2 : heap s2 !! h = Some fh2) by apply lookup_insert_eq.
  rewrite (bind_Ret _ _ _ _ _ (deref_Some _ _ _ Hf2)).
  change (refcount fh2) with (refcount fh - 1).
  destruct (Z.eqb_spec (refcount fh - 1) 0) as [|_]; [contradiction|].
  unfold bind at 1, ret at 1.
  assert (Hh2 : head s2 <> Some (next_ptr s)).
  { subst s2 s1 sa. snorm. rewrite Hh. congruence. }
  assert (Hnf2 : heap s2 !! next_ptr s = Some nf).
  { subst s2. snorm. rewrite lookup_insert_ne by congruence. exact Hnf. }
  rewrite (bind_Ret _ _ _ _ _ (set_head_Some _ _ _ Hh2 Hnf2)).
  reflexivity.
Qed.

Lemma lock_unlocked_id f :
  set_refcount (refcount (set_refcount (refcount (set_locked true f) + 1)
                                       (set_locked true f)) - 1)
    (set_refcount (refcount (set_locked true f) + 1) (set_locked true f))
  = set_locked true f.
Proof.
  destruct f. unfold set_locked, set_refcount. cbn -[Z.add Z.sub].
  f_equal. lia.
Qed.

(** The first turn of the loop succeeds on an unlocked, referenced head
    whose file is still at the path of the log: the head is locked and
    nothing else changes. *)
Lemma lock_head_at_once n s q f :
  head s = Some q -> heap s !! q = Some f ->
  locked f = false -> refcount f <> 0 -> fails (env s) SysLock = false ->
  (FILE_IN_MEMORY f = true \/
   (fails (env s) SysStat = false /\
    exists d, fs (env s) !! log_path_of s = Some d /\
              st_ino f = df_ino d /\ st_dev f = df_dev d)) ->
  mail_transaction_log_lock_head (S n) s = Ret 0 (store q (set_locked true f) s).
Proof.
  intros Hq Hf Hl Hrc Hlock Hsame.
  set (fl := set_locked true f).
  set (sl := store q fl s).
  set (f0 := set_refcount (refcount fl + 1) fl).
  set (s0 := store q f0 sl).
  set (f1 := set_refcount (refcount f0 - 1) f0).
  set (s1 := store q f1 s0).
  assert (El : mail_transaction_log_file_lock (Some q) s = Ret 0 sl).
  { unfold mail_transaction_log_file_lock.
    rewrite (bind_Ret _ _ _ _ _ (deref_Some _ _ _ Hf)).
    unfold bind at 1, get. rewrite Hl, Hlock.
    rewrite (bind_Ret _ _ _ _ _ (update_Some _ _ _ _ Hf)). reflexivity. }
  assert (Hfl : heap sl !! q = Some fl) by apply lookup_insert_eq.
  assert (Hh0 : head s0 = Some q) by exact Hq.
  assert (Hf0 : heap s0 !! q = Some f0) by apply lookup_insert_eq.
  assert (Er : mail_transaction_log_refresh s0 = Ret 0 s0).
  { apply (refresh_noop s0 q f0 Hh0 Hf0).
    destruct Hsame as [Hm|Hsame]; [now left|now right]. }
  assert (Hf1 : heap s1 !! q = Some f1) by apply lookup_insert_eq.
  assert (Hrc1 : (refcount f1 =? 0) = false).
  { apply Z.eqb_neq. subst f1 f0 fl. cbn. lia. }
  assert (Hh1 : head s1 = Some q) by exact Hq.
  assert (Et : lock_head_turn s = Ret (inl 0) s1).
  { unfold lock_head_turn. unfold bind at 1, get. rewrite Hq.
    rewrite (bind_Ret _ _ _ _ _ El).
    change (0 <? 0) with false. cbv iota.
    rewrite (bind_Ret _ _ _ _ _ (update_Some _ _ _ _ Hfl)).
    fold f0. fold s0.
    rewrite (bind_Ret _ _ _ _ _ Er).
    rewrite (bind_Ret _ _ _ _ _ (update_Some _ _ _ _ Hf0)).
    fold f1. fold s1.
    rewrite (bind_Ret _ _ _ _ _ (deref_Some _ _ _ Hf1)).
    rewrite Hrc1.
    unfold bind at 1, ret at 1.
    unfold bind at 1, get.
    rewrite Hh1. rewrite bool_decide_eq_true_2 by reflexivity.
    reflexivity. }
  cbn [mail_transaction_log_lock_head].
  rewrite (bind_Ret _ _ _ _ _ Et). unfold ret. f_equal.
  subst s1 s0 sl. rewrite !store_store.
  subst f1 f0 fl. now rewrite lock_unlocked_id.
Qed.

(** X28: [mail_transaction_log_lock_head] catches up with a rotation by
    another process in two turns of its loop.  When the path of the log
    holds another file than the head's, the first turn locks the old head,
    finds the new file in the refresh, and gives the lock back; the second
    locks the new head.  The call returns 0; the head is the new file,
    locked and referenced by the log alone; the old head, which a reader
    still references, is unlocked, has lost the reference of the log, and
    is on the chain. *)
Theorem lock_head_catches_up n s q f d :
  wf_ptrs s -> head s = Some q -> heap s !! q = Some f -> superseded s f d ->
  exists s' nf fo,
    mail_transaction_log_lock_head (S (S n)) s = Ret 0 s' /\
    head s' = Some (next_ptr s) /\ heap s' !! next_ptr s = Some nf /\
    locked nf = true /\ refcount nf = 1 /\ file_seq (hdr nf) = df_seq d /\
    heap s' !! q = Some fo /\ locked fo = false /\
    refcount fo = refcount f - 1 /\ hdr fo = hdr f /\ q ∈ files s'.
Proof.
  intros W Hq Hf [Hl Hmem Hpin Hcalls Hd Hv Hother].
  pose proof (wf_head _ W q Hq) as Hlt.
  assert (Hne : q <> next_ptr s) by lia.
  destruct (fresh_ptr s W) as (_ & Hpf & _).
  set (fl := set_locked true f).
  set (sl := store q fl s).
  set (f0 := set_refcount (refcount fl + 1) fl).
  set (s0 := store q f0 sl).
  assert (El : mail_transaction_log_file_lock (Some q) s = Ret 0 sl).
  { unfold mail_transaction_log_file_lock.
    rewrite (bind_Ret _ _ _ _ _ (deref_Some _ _ _ Hf)).
    unfold bind at 1, get. rewrite Hl, (fails_nothing s SysLock Hcalls).
    rewrite (bind_Ret _ _ _ _ _ (update_Some _ _ _ _ Hf)). reflexivity. }
  assert (Hfl : heap sl !! q = Some fl) by apply lookup_insert_eq.
  assert (Hh0 : head s0 = Some q) by exact Hq.
  assert (Hf0 : heap s0 !! q = Some f0) by apply lookup_insert_eq.
  assert (Er : mail_transaction_log_refresh s0 = Ret 0 (refreshed q f0 d s0)).
  { apply refresh_replaces; auto. subst f0 fl. cbn. lia. }
  set (s1 := refreshed q f0 d s0).
  set (f1 := set_refcount (refcount f0 - 1) f0).
  assert (Hf1 : heap s1 !! q = Some f1).
  { subst s1. unfold refreshed. snorm.
    rewrite lookup_insert_ne by (cbn; congruence). apply lookup_insert_eq. }
  set (f2 := set_refcount (refcount f1 - 1) f1).
  set (s2 := store q f2 s1).
  assert (Hf2 : heap s2 !! q = Some f2) by apply lookup_insert_eq.
  assert (Hrc2 : (refcount f2 =? 0) = false).
  { apply Z.eqb_neq. subst f2 f1 f0 fl. cbn. lia. }
  assert (Hh2 : head s2 = Some (next_ptr s)) by reflexivity.
  set (s3 := store q (set_locked false f2) s2).
  assert (Et : lock_head_turn s = Ret (inr tt) s3).
  { unfold lock_head_turn. unfold bind at 1, get. rewrite Hq.
    rewrite (bind_Ret _ _ _ _ _ El).
    change (0 <? 0) with false. cbv iota.
    rewrite (bind_Ret _ _ _ _ _ (update_Some _ _ _ _ Hfl)).
    fold f0. fold s0.
    rewrite (bind_Ret _ _ _ _ _ Er). fold s1.
    rewrite (bind_Ret _ _ _ _ _ (update_Some _ _ _ _ Hf1)).
    fold f2. fold s2.
    rewrite (bind_Ret _ _ _ _ _ (deref_Some _ _ _ Hf2)).
    rewrite Hrc2.
    unfold bind at 1, ret at 1.
    unfold bind at 1, get.
    rewrite Hh2. rewrite bool_decide_eq_false_2 by congruence.
    rewrite andb_false_r.
    unfold mail_transaction_log_file_unlock.
    rewrite (bind_Ret _ _ _ _ _ (update_Some _ _ _ _ Hf2)).
    reflexivity. }
  set (nf := load_disk_file d (env s0) (blank_file (log_path_of s0))).
  set (nf3 := set_refcount (refcount nf + 1) nf).
  assert (Hnf3 : heap s3 !! next_ptr s = Some nf3).
  { subst s3 s2 s1. unfold refreshed. snorm.
    rewrite !lookup_insert_ne by congruence. apply lookup_insert_eq. }
  assert (Hh3 : head s3 = Some (next_ptr s)) by reflexivity.
  assert (E2 : mail_transaction_log_lock_head (S n) s3
               = Ret 0 (store (next_ptr s) (set_locked true nf3) s3)).
  { apply (lock_head_at_once n s3 (next_ptr s) nf3 Hh3 Hnf3).
    - reflexivity.
    - change (refcount nf3) with (0 + 1). lia.
    - apply fails_nothing. exact Hcalls.
    - right. split; [apply fails_nothing; exact Hcalls|].
      exists d. split; [exact Hd|]. split; reflexivity. }
  exists (store (next_ptr s) (set_locked true nf3) s3), (set_locked true nf3),
         (set_locked false f2).
  split.
  { change (mail_transaction_log_lock_head (S (S n)) s)
      with (bind lock_head_turn
                 (fun t => match t with
                           | inl r => ret r
                           | inr _ => mail_transaction_log_lock_head (S n)
                           end) s).
    rewrite (bind_Ret _ _ _ _ _ Et). exact E2. }
  split; [reflexivity|].
  split; [snorm; apply lookup_insert_eq|].
  split; [reflexivity|]. split; [reflexivity|]. split; [reflexivity|].
  split.
  { snorm. rewrite lookup_insert_ne by congruence. apply lookup_insert_eq. }
  split; [reflexivity|].
  split; [subst f2 f1 f0 fl; cbn; lia|].
  split; [reflexivity|].
  subst s3 s2 s1 s0 sl. unfold refreshed. snorm. rewrite Hq.
  case_bool_decide; [assumption|left].
Qed.

Lemma behind_disk_wf : wf_ptrs Samples.behind_disk.
Proof.
  constructor; cbn.
  - intros q f Hq. apply lookup_singleton_Some in Hq as [<- _]. lia.
  - intros q [= <-]. lia.
  - intros q Hq. now apply not_elem_of_nil in Hq.
  - discriminate.
Qed.

Lemma lock_head_catches_up_witness :
  exists s', mail_transaction_log_lock_head 2 Samples.behind_disk = Ret 0 s' /\
             head s' = Some 1%nat /\ 0%nat ∈ files s'.
Proof.
  destruct (lock_head_catches_up 0 Samples.behind_disk 0%nat
              (Samples.disk_log_file 1 7 3 false 2) Samples.new_disk_file
              behind_disk_wf eq_refl)
    as (s' & nf & fo & E & Hh & _ & _ & _ & _ & _ & _ & _ & _ & Hin).
  - vm_compute. reflexivity.
  - constructor; try reflexivity; vm_compute; reflexivity.
  - exists s'. split; [exact E|]. split; [exact Hh|exact Hin].
Defined.

(** ** Creating the log of an index in memory *)

(** X29: for an index in memory [mail_transaction_log_create] returns 0,
    not 1: whenever it returns, the head is the file it has just
    allocated, in memory and referenced by the log alone; the file system
    and the descriptors are untouched, and an [open_file] left by an
    earlier [mail_transaction_log_open] is still there, not freed. *)
Theorem create_in_memory s r s' :
  index_in_memory (index s) = true ->
  mail_transaction_log_create s = Ret r s' ->
  r = 0 /\ head s' = Some (next_ptr s) /\
  (exists nf, heap s' !! next_ptr s = Some nf /\
              FILE_IN_MEMORY nf = true /\ refcount nf = 1) /\
  env s' = env s /\ open_file s' = open_file s /\
  (forall q, q <> next_ptr s -> heap s' !! q = heap s !! q).
Proof.
  intros Hmem H. unfold mail_transaction_log_create in H.
  apply bind_inv in H as (? & ? & E0 & H). apply get_inv in E0 as [-> ->].
  rewrite Hmem in H.
  apply bind_inv in H as (file & s1 & Ea & H).
  apply alloc_in_memory_inv in Ea as (-> & _ & ->).
  apply bind_inv in H as ([] & s2 & Eh & H).
  apply ret_inv in H as [-> ->].
  apply set_head_inv in Eh as (q & f & [= <-] & _ & Hf & ->).
  revert Hf. snorm. rewrite lookup_insert_eq. intros [= <-].
  split; [reflexivity|]. split; [reflexivity|].
  split; [eexists; split; [apply lookup_insert_eq|split; reflexivity]|].
  split; [reflexivity|]. split; [reflexivity|].
  intros q Hq. now rewrite !lookup_insert_ne by congruence.
Qed.

Lemma create_in_memory_witness :
  exists s', mail_transaction_log_create Samples.leftover_open_in_memory = Ret 0 s' /\
             open_file s' = open_file Samples.leftover_open_in_memory.
Proof.
  destruct (create_in_memory Samples.leftover_open_in_memory 0
              (state_after mail_transaction_log_create Samples.leftover_open_in_memory)
              eq_refl) as (_ & _ & _ & _ & Ho & _); [vm_compute; reflexivity|].
  eexists. split; [vm_compute; reflexivity|exact Ho].
Defined.

(** ** Looking up the sequence of the head *)

(** X30: [mail_transaction_log_find_file] hands out files of the chain and
    the file it opens on the [.2] archive, nothing else.  Called with the
    sequence of the head itself, it never returns the head when the head is
    not on the chain; and with an index in memory and no file of that
    sequence on the chain, the sequence of the head is reported as not
    found. *)
Theorem find_file_looks_on_the_chain s h fh :
  wf_ptrs s -> head s = Some h -> heap s !! h = Some fh -> h ∉ files s ->
  (forall r out s',
     mail_transaction_log_find_file (file_seq (hdr fh)) s = Ret (r, out) s' ->
     out <> Some h /\
     (r = 1 -> exists q, out = Some q /\ (q ∈ files s \/ q = next_ptr s))) /\
  (index_in_memory (index s) = true ->
   chain_misses s (files s) (file_seq (hdr fh)) ->
   mail_transaction_log_find_file (file_seq (hdr fh)) s = Ret (0, None) s).
Proof.
  intros W Hh Hf Hoff.
  pose proof (find_file_below s h fh _ Hh Hf (Z.le_refl _)) as Ebelow.
  pose proof (wf_head _ W h Hh) as Hlt.
  split.
  - intros r out s' H. rewrite Ebelow in H.
    unfold find_in_chain_or_archive in H.
    apply bind_inv in H as (? & ? & E0 & H). apply get_inv in E0 as [-> ->].
    apply bind_inv in H as (hit & ? & E0 & H).
    apply scan_chain_inv in E0 as [-> Hhit].
    destruct hit as [q|].
    { apply ret_inv in H as [[= -> ->] ->]. destruct Hhit as [Hin _].
      split; [intros [= ->]; contradiction|]. intros _. exists q. auto. }
    destruct (index_in_memory (index s)).
    { apply ret_inv in H as [[= -> ->] ->]. split; [discriminate|].
      intros [=]. }
    apply bind_inv in H as (file & ? & E0 & H).
    rewrite file_alloc_run in E0. injection E0 as <- <-.
    apply bind_inv in H as (c & s1 & Eo & H).
    destruct (Z.leb_spec c 0) as [Hc|Hc].
    { apply ret_inv in H as [[= -> ->] ->]. split; [discriminate|]. lia. }
    apply bind_inv in H as (f & ? & E0 & H).
    apply deref_inv in E0 as (-> & _).
    destruct (negb (file_seq (hdr f) =? file_seq (hdr fh))).
    + apply ret_inv in H as [[= -> ->] ->]. split; [discriminate|].
      intros [=].
    + apply ret_inv in H as [[= -> ->] ->].
      split; [intros [= E]; lia|]. intros _. exists (next_ptr s). auto.
  - intros Hmem Hmiss. rewrite Ebelow. now apply find_in_memory_misses.
Qed.

(** The sample log, just created: its head has sequence 1 and the chain is
    empty; looking sequence 1 up does not give the head. *)
Lemma find_file_looks_on_the_chain_witness :
  exists r out s',
    mail_transaction_log_find_file 1 Samples.created = Ret (r, out) s' /\
    out <> Some 0%nat.
Proof.
  assert (E : exists fh, heap Samples.created !! 0%nat = Some fh /\
                         file_seq (hdr fh) = 1)
    by (eexists; split; [vm_compute; reflexivity|reflexivity]).
  destruct E as (fh & E & Hseq).
  destruct (find_file_looks_on_the_chain Samples.created 0%nat fh
              (inv_ptrs _ (reachable_inv _ created_reachable)) eq_refl E)
    as [H _].
  - vm_compute. apply not_elem_of_nil.
  - rewrite Hseq in H.
    eexists _, _, _. split; [vm_compute; reflexivity|].
    refine (proj1 (H 0 _ _ _)). vm_compute. reflexivity.
Defined.
